(** * biosal: sequence partitioner, memory pool, red-black tree and hash

    A shallow embedding of four parts of the biosal actor library, the
    properties its specification states about them, and further
    properties of the code:

    - [Partitioner]: [bsal_sequence_partitioner_verify], the three
      configuration branches of [bsal_sequence_partitioner_receive],
      [bsal_sequence_partitioner_get_store] and
      [bsal_sequence_partitioner_generate_command]
      (storage/sequence_partitioner.c);
    - [MemoryPool]: the pool allocator (memory_pool.c);
    - [RedBlackTree]: [bsal_red_black_tree_delete],
      [bsal_red_black_tree_get], [bsal_red_black_tree_get_lowest_key], the
      comparators and the two rotations (red_black_tree.c);
    - [MurmurHash]: [bsal_murmur_hash_2_64_a] (murmur_hash_2_64_a.c).

    C integers are integers of [Z] with the wrap-around written out; C
    pointers are addresses in [Z] with [NULL] = 0. *)

From Stdlib Require Import ZArith List Lia Bool String.
From stdpp Require Import base option list gmap sets.

Local Open Scope Z_scope.

(** ** Machine integers *)

Definition NULL : Z := 0.

(** [uint32_t], [uint64_t] and [size_t] (an LP64 platform: 64 bits). *)
Definition to_uint32 (z : Z) : Z := z mod 2 ^ 32.
Definition to_uint64 (z : Z) : Z := z mod 2 ^ 64.
Definition to_size_t (z : Z) : Z := z mod 2 ^ 64.

(** Conversion to [int] (two's complement, 32 bits). *)
Definition to_int (z : Z) : Z := (z + 2 ^ 31) mod 2 ^ 32 - 2 ^ 31.

(** ** The sequence partitioner *)

Module Partitioner.

(** Tags of the messages the partitioner sends in the modelled branches. *)
Inductive tag :=
| BSAL_SEQUENCE_PARTITIONER_SET_BLOCK_SIZE_REPLY
| BSAL_SEQUENCE_PARTITIONER_SET_ENTRY_VECTOR_REPLY
| BSAL_SEQUENCE_PARTITIONER_SET_ACTOR_COUNT_REPLY
| BSAL_SEQUENCE_PARTITIONER_PROVIDE_STORE_ENTRY_COUNTS.

(** A sent message: its tag and its buffer.  The buffer of a packed vector
    is kept as the vector's elements ([bsal_vector_pack] is a collection
    primitive); an empty reply has an empty buffer. *)
Record message := Message { message_tag : tag; message_buffer : list Z }.

(** The configuration messages, with their unpacked payload. *)
Inductive request :=
| BSAL_SEQUENCE_PARTITIONER_SET_BLOCK_SIZE (value : Z)
| BSAL_SEQUENCE_PARTITIONER_SET_ENTRY_VECTOR (entries : list Z)
| BSAL_SEQUENCE_PARTITIONER_SET_ACTOR_COUNT (value : Z).

(** [struct bsal_sequence_partitioner], without the command queue and the
    active-command table (the configuration branches do not touch them);
    [sent] collects what the actor sends, oldest first. *)
Record bsal_sequence_partitioner := Partitioner {
  stream_entries : list Z;            (* vector of uint64_t *)
  stream_positions : list Z;          (* vector of uint64_t *)
  stream_global_positions : list Z;   (* vector of uint64_t *)
  store_entries : list Z;             (* vector of uint64_t *)
  store_current_entries : list Z;     (* vector of uint64_t *)
  store_count : Z;                    (* int *)
  block_size : Z;                     (* int *)
  total : Z;                          (* uint64_t *)
  command_number : Z;                 (* int *)
  sent : list message
}.

(** [bsal_sequence_partitioner_init]; the field [total] is not written by
    the source, [garbage] is what it holds. *)
Definition bsal_sequence_partitioner_init (garbage : Z) : bsal_sequence_partitioner :=
  {| stream_entries := []; stream_positions := [];
     stream_global_positions := []; store_entries := [];
     store_current_entries := [];
     store_count := -1; block_size := -1;
     total := garbage; command_number := 0; sent := [] |}.

Definition bsal_actor_send_reply (m : message) (s : bsal_sequence_partitioner)
  : bsal_sequence_partitioner :=
  {| stream_entries := stream_entries s; stream_positions := stream_positions s;
     stream_global_positions := stream_global_positions s;
     store_entries := store_entries s;
     store_current_entries := store_current_entries s;
     store_count := store_count s; block_size := block_size s;
     total := total s; command_number := command_number s;
     sent := sent s ++ [m] |}.

Definition bsal_actor_send_reply_empty (t : tag) : bsal_sequence_partitioner -> bsal_sequence_partitioner :=
  bsal_actor_send_reply (Message t []).

(** What [bsal_vector_push_back] stores for [&position].  The vector
    [stream_positions] holds [uint64_t] elements, so the push copies eight
    bytes from the four-byte [int position]: the low half of the element is
    the position, the high half is [above], the four bytes that lie above
    [position] on the stack (least significant byte first). *)
Definition pushed_position (position above : Z) : Z :=
  to_uint32 position + 2 ^ 32 * to_uint32 above.

(** First loop of verify: one position (pushed from the [int] 0) and one
    global position per stream, and the running total in [uint64_t].
    [stack k] is what lies above [position] on the stack when the element
    of index [k] of [stream_positions] is pushed; the source does not
    determine it. *)
Fixpoint verify_streams (stack : nat -> Z) (streams : list Z)
    (positions globals : list Z) (entries : Z)
  : list Z * list Z * Z :=
  match streams with
  | [] => (positions, globals, entries)
  | stream_entries :: rest =>
      verify_streams stack rest
        (positions ++ [pushed_position 0 (stack (length positions))])
        (globals ++ [entries])
        (to_uint64 (entries + stream_entries))
  end.

(** Second loop of verify: [n] iterations left, for i < store_count. *)
Fixpoint verify_stores (n : nat) (stores currents : list Z) (entries remaining : Z)
  : list Z * list Z :=
  match n with
  | O => (stores, currents)
  | S n' =>
      let stores := stores ++ [entries] in
      let remaining := to_uint64 (remaining - entries) in
      let entries := if remaining <? entries then remaining else entries in
      verify_stores n' stores (currents ++ [0]) entries remaining
  end.

(** [bsal_sequence_partitioner_verify].  [None] is the division by zero of
    [total / store_count] when [store_count] is 0. *)
Definition bsal_sequence_partitioner_verify
    (stack : nat -> Z) (s : bsal_sequence_partitioner)
  : option bsal_sequence_partitioner :=
  if block_size s =? -1 then Some s
  else if store_count s =? -1 then Some s
  else if Z.of_nat (length (stream_entries s)) =? 0 then Some s
  else
    let '(positions, globals, entries) :=
      verify_streams stack (stream_entries s) (stream_positions s)
        (stream_global_positions s) 0 in
    let total := entries in
    if to_uint64 (store_count s) =? 0 then None
    else
      let entries := total / to_uint64 (store_count s) in
      let entries :=
        if entries <? to_uint64 (block_size s) then to_uint64 (block_size s)
        else entries in
      let '(stores, currents) :=
        verify_stores (Z.to_nat (store_count s)) (store_entries s)
          (store_current_entries s) entries total in
      Some (bsal_actor_send_reply
              (Message BSAL_SEQUENCE_PARTITIONER_PROVIDE_STORE_ENTRY_COUNTS stores)
              {| stream_entries := stream_entries s;
                 stream_positions := positions;
                 stream_global_positions := globals;
                 store_entries := stores;
                 store_current_entries := currents;
                 store_count := store_count s; block_size := block_size s;
                 total := total; command_number := command_number s;
                 sent := sent s |}).

Definition set_block_size (v : Z) (s : bsal_sequence_partitioner) :=
  {| stream_entries := stream_entries s; stream_positions := stream_positions s;
     stream_global_positions := stream_global_positions s;
     store_entries := store_entries s;
     store_current_entries := store_current_entries s;
     store_count := store_count s; block_size := v;
     total := total s; command_number := command_number s; sent := sent s |}.

Definition set_store_count (v : Z) (s : bsal_sequence_partitioner) :=
  {| stream_entries := stream_entries s; stream_positions := stream_positions s;
     stream_global_positions := stream_global_positions s;
     store_entries := store_entries s;
     store_current_entries := store_current_entries s;
     store_count := v; block_size := block_size s;
     total := total s; command_number := command_number s; sent := sent s |}.

Definition set_stream_entries (v : list Z) (s : bsal_sequence_partitioner) :=
  {| stream_entries := v; stream_positions := stream_positions s;
     stream_global_positions := stream_global_positions s;
     store_entries := store_entries s;
     store_current_entries := store_current_entries s;
     store_count := store_count s; block_size := block_size s;
     total := total s; command_number := command_number s; sent := sent s |}.

(** The three configuration branches of [bsal_sequence_partitioner_receive]:
    store the value, acknowledge, run verify. *)
Definition bsal_sequence_partitioner_receive
    (stack : nat -> Z) (s : bsal_sequence_partitioner) (m : request)
  : option bsal_sequence_partitioner :=
  match m with
  | BSAL_SEQUENCE_PARTITIONER_SET_BLOCK_SIZE v =>
      bsal_sequence_partitioner_verify stack
        (bsal_actor_send_reply_empty BSAL_SEQUENCE_PARTITIONER_SET_BLOCK_SIZE_REPLY
           (set_block_size (to_int v) s))
  | BSAL_SEQUENCE_PARTITIONER_SET_ENTRY_VECTOR v =>
      bsal_sequence_partitioner_verify stack
        (bsal_actor_send_reply_empty BSAL_SEQUENCE_PARTITIONER_SET_ENTRY_VECTOR_REPLY
           (set_stream_entries (to_uint64 <$> v) s))
  | BSAL_SEQUENCE_PARTITIONER_SET_ACTOR_COUNT v =>
      bsal_sequence_partitioner_verify stack
        (bsal_actor_send_reply_empty BSAL_SEQUENCE_PARTITIONER_SET_ACTOR_COUNT_REPLY
           (set_store_count (to_int v) s))
  end.

(** A sequence of deliveries, stopping at the first trap. *)
Fixpoint deliver (stack : nat -> Z) (s : bsal_sequence_partitioner) (ms : list request)
  : option bsal_sequence_partitioner :=
  match ms with
  | [] => Some s
  | m :: rest =>
      match bsal_sequence_partitioner_receive stack s m with
      | Some s' => deliver stack s' rest
      | None => None
      end
  end.

Definition sum_entries (l : list Z) : Z := fold_right Z.add 0 l.

(** The configuration messages of the handshake scenario. *)
Definition handshake_requests : list request :=
  [BSAL_SEQUENCE_PARTITIONER_SET_BLOCK_SIZE 4096;
   BSAL_SEQUENCE_PARTITIONER_SET_ENTRY_VECTOR [10000];
   BSAL_SEQUENCE_PARTITIONER_SET_ACTOR_COUNT 3].

(** [bsal_sequence_partitioner_get_store]: the store of the entry with
    global index [index], computed in [uint64_t] and returned as an [int].
    [None] is the division by zero of a zero block size (or of a store
    count that is zero as a [uint64_t]). *)
Definition bsal_sequence_partitioner_get_store (block_size store_count index : Z)
  : option Z :=
  if store_count =? 0 then Some 0
  else if to_uint64 block_size =? 0 then None
  else if to_uint64 store_count =? 0 then None
  else Some (to_int ((index / to_uint64 block_size) mod to_uint64 store_count)).

(** The global position of each stream when no sum overflows: the number
    of entries of the streams before it, counted from [start]. *)
Fixpoint prefix_sums (start : Z) (streams : list Z) : list Z :=
  match streams with
  | [] => []
  | entries :: rest => start :: prefix_sums (start + entries) rest
  end.

(** The acknowledgement that receive sends for a configuration message. *)
Definition acknowledgement (m : request) : message :=
  match m with
  | BSAL_SEQUENCE_PARTITIONER_SET_BLOCK_SIZE _ =>
      Message BSAL_SEQUENCE_PARTITIONER_SET_BLOCK_SIZE_REPLY []
  | BSAL_SEQUENCE_PARTITIONER_SET_ENTRY_VECTOR _ =>
      Message BSAL_SEQUENCE_PARTITIONER_SET_ENTRY_VECTOR_REPLY []
  | BSAL_SEQUENCE_PARTITIONER_SET_ACTOR_COUNT _ =>
      Message BSAL_SEQUENCE_PARTITIONER_SET_ACTOR_COUNT_REPLY []
  end.

(** A list of configuration messages in which one of the three kinds never
    occurs. *)
Definition is_block_size (m : request) : bool :=
  match m with BSAL_SEQUENCE_PARTITIONER_SET_BLOCK_SIZE _ => true | _ => false end.
Definition is_entry_vector (m : request) : bool :=
  match m with BSAL_SEQUENCE_PARTITIONER_SET_ENTRY_VECTOR _ => true | _ => false end.
Definition is_actor_count (m : request) : bool :=
  match m with BSAL_SEQUENCE_PARTITIONER_SET_ACTOR_COUNT _ => true | _ => false end.

(** *** Commands *)

(** [struct bsal_stream_command], as [bsal_stream_command_init] fills it:
    the command number and three ranges of entries (in the stream, in the
    store, in the global numbering), each given by its first and its last
    entry. *)
Record bsal_stream_command := StreamCommand {
  command_name : Z;
  command_stream_index : Z;
  command_stream_first : Z;
  command_stream_last : Z;
  command_store_index : Z;
  command_store_first : Z;
  command_store_last : Z;
  command_global_first : Z;
  command_global_last : Z
}.

(** The partitioner together with its queue of available commands and the
    number of COMMAND_IS_READY replies it has sent. *)
Record command_state := CommandState {
  partitioner : bsal_sequence_partitioner;
  available_commands : list bsal_stream_command;
  command_is_ready_replies : nat
}.

(** [bsal_vector_at] followed by the read of the element: [None] outside
    the vector. *)
Definition vector_at (vector : list Z) (index : Z) : option Z :=
  if index <? 0 then None else vector !! Z.to_nat index.

(** The write through the bucket that [bsal_vector_at] returned. *)
Definition vector_set (vector : list Z) (index value : Z) : list Z :=
  <[Z.to_nat index := value]> vector.

(** The three positions and the command number that generate_command
    writes. *)
Definition set_positions (stream_positions' globals' currents' : list Z) (number : Z)
    (s : bsal_sequence_partitioner) : bsal_sequence_partitioner :=
  {| stream_entries := stream_entries s; stream_positions := stream_positions';
     stream_global_positions := globals';
     store_entries := store_entries s;
     store_current_entries := currents';
     store_count := store_count s; block_size := block_size s;
     total := total s; command_number := number; sent := sent s |}.

(** [bsal_sequence_partitioner_generate_command].  [None]: an index
    outside its vector, or the division by zero of get_store. *)
Definition bsal_sequence_partitioner_generate_command
    (st : command_state) (stream_index : Z) : option command_state :=
  let s := partitioner st in
  stream_position ← vector_at (stream_positions s) stream_index;
  global_first ← vector_at (stream_global_positions s) stream_index;
  store_index ←
    bsal_sequence_partitioner_get_store (block_size s) (store_count s) global_first;
  store_position ← vector_at (store_current_entries s) store_index;
  stream_entries ← vector_at (stream_entries s) stream_index;
  store_entries ← vector_at (store_entries s) store_index;
  (* check out what is left in the stream *)
  let actual_block_size := block_size s in
  let available_in_stream := to_uint64 (stream_entries - stream_position) in
  let actual_block_size :=
    if available_in_stream <? to_uint64 actual_block_size
    then to_int available_in_stream else actual_block_size in
  let available_in_store := to_uint64 (store_entries - store_position) in
  let actual_block_size :=
    if available_in_store <? to_uint64 actual_block_size
    then to_int available_in_store else actual_block_size in
  (* can't do that *)
  if actual_block_size =? 0 then Some st
  else
    let stream_first := stream_position in
    let stream_last := to_uint64 (stream_first + to_uint64 actual_block_size - 1) in
    let store_first := store_position in
    let store_last := to_uint64 (store_first + to_uint64 actual_block_size - 1) in
    let global_last := to_uint64 (global_first + to_uint64 actual_block_size - 1) in
    let command :=
      StreamCommand (command_number s) stream_index stream_first stream_last
        store_index store_first store_last global_first global_last in
    Some {| partitioner :=
              set_positions
                (vector_set (stream_positions s) stream_index (to_uint64 (stream_last + 1)))
                (vector_set (stream_global_positions s) stream_index
                   (to_uint64 (global_last + 1)))
                (vector_set (store_current_entries s) store_index
                   (to_uint64 (store_last + 1)))
                (to_int (command_number s + 1)) s;
            available_commands := available_commands st ++ [command];
            command_is_ready_replies := S (command_is_ready_replies st) |}.

(** The partitioner after the handshake for 10000 entries in one stream,
    blocks of 4096 and 3 stores, with no command generated yet. *)
Definition example_command_state : command_state :=
  {| partitioner :=
       {| stream_entries := [10000]; stream_positions := [0];
          stream_global_positions := [0];
          store_entries := [4096; 4096; 1808];
          store_current_entries := [0; 0; 0];
          store_count := 3; block_size := 4096;
          total := 10000; command_number := 0; sent := [] |};
     available_commands := [];
     command_is_ready_replies := 0 |}.

End Partitioner.

(** ** The memory pool *)

Module MemoryPool.

Definition FLAG_ENABLE_TRACKING : Z := 0.
Definition FLAG_DISABLED : Z := 1.
Definition FLAG_ENABLE_SEGMENT_NORMALIZATION : Z := 2.

(** Modelled from the spec: the bit helpers of core/helpers/bitmap.h, which
    the pool uses on its [uint32_t] flag word (flags: tracking-enabled,
    disabled, normalize-to-power-of-two). *)
Definition bsal_bitmap_get_bit_uint32_t (flags bit : Z) : bool := Z.testbit flags bit.
Definition bsal_bitmap_set_bit_uint32_t (flags bit : Z) : Z := Z.lor flags (Z.shiftl 1 bit).
Definition bsal_bitmap_clear_bit_uint32_t (flags bit : Z) : Z := Z.ldiff flags (Z.shiftl 1 bit).

(** *** The system

    What the pool does to the outside world is recorded in a trace.  The
    system allocator is an oracle: [sys_answers] are the addresses it will
    answer with, in order; once they run out it answers [NULL]. *)
Inductive sys_event :=
| SysAllocate (size pointer : Z)
| SysFree (pointer : Z)
| SysPrintf (format : string) (argument : Z)
| SysStackBacktrace.

Record system := System { sys_answers : list Z; sys_trace : list sys_event }.

Definition sys_emit (e : sys_event) (sys : system) : system :=
  System (sys_answers sys) (sys_trace sys ++ [e]).

(** Modelled from the spec: [bsal_memory_allocate] and [bsal_memory_free]
    of core/system/memory.c, the allocation "directly from the system". *)
Definition bsal_memory_allocate (sys : system) (size : Z) : Z * system :=
  match sys_answers sys with
  | [] => (NULL, System [] (sys_trace sys ++ [SysAllocate size NULL]))
  | pointer :: rest => (pointer, System rest (sys_trace sys ++ [SysAllocate size pointer]))
  end.

Definition bsal_memory_free (sys : system) (pointer : Z) : system :=
  sys_emit (SysFree pointer) sys.

(** *** Memory blocks *)

(** Modelled from the spec: [struct bsal_memory_block] of
    core/system/memory_block.c, a bump allocator over [total_bytes] bytes
    that start at address [memory]; [offset] is the bump pointer. *)
Record bsal_memory_block := MemoryBlock {
  memory : Z;
  total_bytes : Z;
  offset : Z
}.

(** Modelled from the spec: [bsal_memory_block_allocate] returns the address
    at the bump pointer and advances it, or [NULL] when [size] bytes do not
    fit in what is left of the block. *)
Definition bsal_memory_block_allocate (block : bsal_memory_block) (size : Z)
  : Z * bsal_memory_block :=
  if offset block + size >? total_bytes block then (NULL, block)
  else (memory block + offset block,
        MemoryBlock (memory block) (total_bytes block) (offset block + size)).

(** Modelled from the spec: [bsal_memory_block_free_all] resets the bump
    pointer and keeps the block's bytes. *)
Definition bsal_memory_block_free_all (block : bsal_memory_block) : bsal_memory_block :=
  MemoryBlock (memory block) (total_bytes block) 0.

(** Modelled from the spec: a new block.  [bsal_memory_pool_add_block]
    allocates the block descriptor with [bsal_memory_allocate] and leaves
    the bytes to [bsal_memory_block_init] of memory_block.c; here a new
    block is one request of [total] bytes to the system, whose answer is
    the address of the block's bytes. *)
Definition bsal_memory_block_new (sys : system) (total : Z) : bsal_memory_block * system :=
  let '(pointer, sys') := bsal_memory_allocate sys total in
  (MemoryBlock pointer total 0, sys').

(** *** The pool *)

(** [struct bsal_memory_pool].  The recycle bin maps an [int] size to a
    queue of pointers, the allocated-blocks map a pointer to its [int]
    size; a queue is a list, enqueued at the back and dequeued at the
    front.  Blocks are owned by exactly one of [current_block],
    [dried_blocks] and [ready_blocks]. *)
Record bsal_memory_pool := MemoryPool {
  recycle_bin : gmap Z (list Z);
  allocated_blocks : gmap Z Z;
  large_blocks : gset Z;
  current_block : option bsal_memory_block;
  dried_blocks : list bsal_memory_block;
  ready_blocks : list bsal_memory_block;
  block_size : Z;   (* int *)
  flags : Z         (* uint32_t *)
}.

Definition set_recycle_bin v (self : bsal_memory_pool) :=
  MemoryPool v (allocated_blocks self) (large_blocks self) (current_block self)
    (dried_blocks self) (ready_blocks self) (block_size self) (flags self).
Definition set_allocated_blocks v (self : bsal_memory_pool) :=
  MemoryPool (recycle_bin self) v (large_blocks self) (current_block self)
    (dried_blocks self) (ready_blocks self) (block_size self) (flags self).
Definition set_large_blocks v (self : bsal_memory_pool) :=
  MemoryPool (recycle_bin self) (allocated_blocks self) v (current_block self)
    (dried_blocks self) (ready_blocks self) (block_size self) (flags self).
Definition set_current_block v (self : bsal_memory_pool) :=
  MemoryPool (recycle_bin self) (allocated_blocks self) (large_blocks self) v
    (dried_blocks self) (ready_blocks self) (block_size self) (flags self).
Definition set_dried_blocks v (self : bsal_memory_pool) :=
  MemoryPool (recycle_bin self) (allocated_blocks self) (large_blocks self)
    (current_block self) v (ready_blocks self) (block_size self) (flags self).
Definition set_ready_blocks v (self : bsal_memory_pool) :=
  MemoryPool (recycle_bin self) (allocated_blocks self) (large_blocks self)
    (current_block self) (dried_blocks self) v (block_size self) (flags self).
Definition set_flags v (self : bsal_memory_pool) :=
  MemoryPool (recycle_bin self) (allocated_blocks self) (large_blocks self)
    (current_block self) (dried_blocks self) (ready_blocks self) (block_size self) v.

Definition tracking_enabled (self : bsal_memory_pool) : bool :=
  bsal_bitmap_get_bit_uint32_t (flags self) FLAG_ENABLE_TRACKING.
Definition disabled (self : bsal_memory_pool) : bool :=
  bsal_bitmap_get_bit_uint32_t (flags self) FLAG_DISABLED.
Definition normalization_enabled (self : bsal_memory_pool) : bool :=
  bsal_bitmap_get_bit_uint32_t (flags self) FLAG_ENABLE_SEGMENT_NORMALIZATION.

Definition bsal_memory_pool_init (block_size : Z) : bsal_memory_pool :=
  let flags := 0 in
  let flags := bsal_bitmap_set_bit_uint32_t flags FLAG_ENABLE_TRACKING in
  let flags := bsal_bitmap_clear_bit_uint32_t flags FLAG_ENABLE_SEGMENT_NORMALIZATION in
  let flags := bsal_bitmap_clear_bit_uint32_t flags FLAG_DISABLED in
  {| recycle_bin := ∅; allocated_blocks := ∅; large_blocks := ∅;
     current_block := None; dried_blocks := []; ready_blocks := [];
     block_size := block_size; flags := flags |}.

Definition bsal_memory_pool_disable_tracking (self : bsal_memory_pool) :=
  set_flags (bsal_bitmap_clear_bit_uint32_t (flags self) FLAG_ENABLE_TRACKING) self.
Definition bsal_memory_pool_enable_tracking (self : bsal_memory_pool) :=
  set_flags (bsal_bitmap_set_bit_uint32_t (flags self) FLAG_ENABLE_TRACKING) self.
Definition bsal_memory_pool_enable_normalization (self : bsal_memory_pool) :=
  set_flags (bsal_bitmap_set_bit_uint32_t (flags self) FLAG_ENABLE_SEGMENT_NORMALIZATION) self.
Definition bsal_memory_pool_disable_normalization (self : bsal_memory_pool) :=
  set_flags (bsal_bitmap_clear_bit_uint32_t (flags self) FLAG_ENABLE_SEGMENT_NORMALIZATION) self.
Definition bsal_memory_pool_disable (self : bsal_memory_pool) :=
  set_flags (bsal_bitmap_set_bit_uint32_t (flags self) FLAG_DISABLED) self.

(** *** Segment normalization *)

(** The loop [while (return_value < size) return_value *= 2] on [size_t];
    [None] when the fuel runs out. *)
Fixpoint normalize_loop (fuel : nat) (return_value size : Z) : option Z :=
  match fuel with
  | O => None
  | S fuel' =>
      if return_value <? size
      then normalize_loop fuel' (to_size_t (return_value * 2)) size
      else Some return_value
  end.

(** The bit-twiddling branch, on [uint32_t]. *)
Definition normalize_uint32 (size : Z) : Z :=
  let value := to_uint32 size in
  let value := to_uint32 (value - 1) in
  let value := Z.lor value (Z.shiftr value 1) in
  let value := Z.lor value (Z.shiftr value 2) in
  let value := Z.lor value (Z.shiftr value 4) in
  let value := Z.lor value (Z.shiftr value 8) in
  let value := Z.lor value (Z.shiftr value 16) in
  to_uint32 (value + 1).

(** [bsal_memory_pool_normalize_segment_length] (it does not read the
    pool).  After 64 doublings [return_value] is 0 and stays 0, so 65
    rounds of fuel decide the loop: [None] is a loop that never ends (see
    [normalize_loop_never_ends]). *)
Definition bsal_memory_pool_normalize_segment_length (size : Z) : option Z :=
  let value := to_uint32 (0 - 1) in
  let maximum := value in
  if size >? maximum then normalize_loop 65 1 size
  else Some (normalize_uint32 size).

(** What the normalization is meant to compute: [r] is the smallest power
    of two that is at least [size]. *)
Definition next_power_of_two (size r : Z) : Prop :=
  (exists k, 0 <= k /\ r = 2 ^ k) /\ size <= r /\
  forall k, 0 <= k -> size <= 2 ^ k -> r <= 2 ^ k.

(** Invariant of the bit trick: [x] has the highest set bit of [v], and
    the [n] bits below and including it are set.  One round
    [value |= value >> n] doubles [n]. *)
Definition smeared (n v x : Z) : Prop :=
  0 < x /\ Z.log2 x = Z.log2 v /\
  forall i, 0 <= i -> Z.log2 v - n < i <= Z.log2 v -> Z.testbit x i = true.

(** *** Allocation *)

Section Build.

(** The compile-time option BSAL_MEMORY_POOL_DISCARD_EMPTY_QUEUES.  (The
    other option of the file, BSAL_MEMORY_ALIGNMENT_ENABLED, is taken as
    not defined.) *)
Variable discard_empty_queues : bool.

(** [bsal_memory_pool_add_block]: take a ready block or create one; the
    block is returned along with the pool whose current block it now is. *)
Definition bsal_memory_pool_add_block (sys : system) (self : bsal_memory_pool)
  : system * bsal_memory_block * bsal_memory_pool :=
  match ready_blocks self with
  | block :: rest =>
      (sys, block, set_current_block (Some block) (set_ready_blocks rest self))
  | [] =>
      let '(block, sys') := bsal_memory_block_new sys (block_size self) in
      (sys', block, set_current_block (Some block) self)
  end.

(** The key under which a [size_t] size is looked up in the recycle bin and
    stored in the allocated-blocks map: both tables hold an [int], read
    from the first bytes of the [size_t] (little-endian). *)
Definition size_key (size : Z) : Z := to_int size.

(** The second half of [bsal_memory_pool_allocate_private]: nothing was
    recycled, the bytes are taken from the current block, or from the next
    block when the current one is exhausted. *)
Definition allocate_from_blocks (sys : system) (self : bsal_memory_pool) (size : Z)
  : Z * system * bsal_memory_pool :=
  let '(sys, block, self) :=
    match current_block self with
    | Some block => (sys, block, self)
    | None => bsal_memory_pool_add_block sys self
    end in
  let '(pointer, block) := bsal_memory_block_allocate block size in
  let self := set_current_block (Some block) self in
  let '(pointer, sys, self) :=
    if pointer =? NULL then
      (* the current block is exhausted *)
      let self := set_dried_blocks (dried_blocks self ++ [block]) self in
      let self := set_current_block None self in
      let '(sys, block, self) := bsal_memory_pool_add_block sys self in
      let '(pointer, block) := bsal_memory_block_allocate block size in
      (pointer, sys, set_current_block (Some block) self)
    else (pointer, sys, self) in
  let self :=
    if tracking_enabled self
    then set_allocated_blocks (<[pointer := size_key size]> (allocated_blocks self)) self
    else self in
  (pointer, sys, self).

(** [bsal_memory_pool_allocate_private], for a pool that is neither NULL nor
    disabled and a size below the block size: recycle a freed pointer of
    that size if there is one. *)
Definition allocate_in_pool (sys : system) (self : bsal_memory_pool) (size : Z)
  : Z * system * bsal_memory_pool :=
  let queue :=
    if tracking_enabled self then recycle_bin self !! size_key size else None in
  match queue with
  | Some (pointer :: rest) =>
      (* recycling is good for the environment *)
      let self :=
        if tracking_enabled self
        then set_allocated_blocks (<[pointer := size_key size]> (allocated_blocks self)) self
        else self in
      let bin :=
        if discard_empty_queues && bool_decide (rest = [])
        then delete (size_key size) (recycle_bin self)
        else <[size_key size := rest]> (recycle_bin self) in
      (pointer, sys, set_recycle_bin bin self)
  | _ => allocate_from_blocks sys self size
  end.

(** [bsal_memory_pool_allocate_private]; [self] is [None] for a NULL pool. *)
Definition bsal_memory_pool_allocate_private
    (sys : system) (self : option bsal_memory_pool) (size : Z)
  : Z * system * option bsal_memory_pool :=
  if size =? 0 then (NULL, sys, self)
  else
    match self with
    | None =>
        let '(pointer, sys) := bsal_memory_allocate sys size in (pointer, sys, None)
    | Some pool =>
        if disabled pool then
          let '(pointer, sys) := bsal_memory_allocate sys size in (pointer, sys, self)
        else if size >=? to_size_t (block_size pool) then
          let '(pointer, sys) := bsal_memory_allocate sys size in
          (pointer, sys, Some (set_large_blocks ({[pointer]} ∪ large_blocks pool) pool))
        else
          let '(pointer, sys, pool) := allocate_in_pool sys pool size in
          (pointer, sys, Some pool)
    end.

(** How a call of the public allocate ends. *)
Inductive outcome :=
| Returned (pointer : Z) (sys : system) (self : option bsal_memory_pool)
| Exited (status : Z) (sys : system)
| Diverged.

(** The size [bsal_memory_pool_allocate] passes on: normalized when the
    pool asks for it. *)
Definition requested_size (self : option bsal_memory_pool) (size : Z) : option Z :=
  match self with
  | Some pool =>
      if normalization_enabled pool
      then bsal_memory_pool_normalize_segment_length size
      else Some size
  | None => Some size
  end.

(** [bsal_memory_pool_allocate]. *)
Definition bsal_memory_pool_allocate
    (sys : system) (self : option bsal_memory_pool) (size : Z) : outcome :=
  match requested_size self size with
  | None => Diverged
  | Some size =>
      let '(pointer, sys, self) := bsal_memory_pool_allocate_private sys self size in
      if pointer =? NULL then
        let sys :=
          sys_emit (SysPrintf "Error, requested %zu bytes, returned pointer is NULL\n" size) sys in
        let sys := sys_emit SysStackBacktrace sys in
        Exited 1 sys
      else Returned pointer sys self
  end.

(** [bsal_memory_pool_free]. *)
Definition bsal_memory_pool_free
    (sys : system) (self : option bsal_memory_pool) (pointer : Z)
  : system * option bsal_memory_pool :=
  if pointer =? NULL then (sys, self)
  else
    match self with
    | None => (bsal_memory_free sys pointer, None)
    | Some pool =>
        if disabled pool then (bsal_memory_free sys pointer, self)
        else if bool_decide (pointer ∈ large_blocks pool) then
          (bsal_memory_free sys pointer,
           Some (set_large_blocks (large_blocks pool ∖ {[pointer]}) pool))
        else if negb (tracking_enabled pool) then (sys, self)
        else
          match allocated_blocks pool !! pointer with
          | None => (sys, self)
          | Some size =>
              let queue := default [] (recycle_bin pool !! size) in
              let pool := set_recycle_bin (<[size := queue ++ [pointer]]> (recycle_bin pool)) pool in
              (sys, Some (set_allocated_blocks (delete pointer (allocated_blocks pool)) pool))
          end
    end.

End Build.

(** *** free_all *)

(** The loop over the ready blocks: [n] rounds left ([i < size]); it also
    stops when the queue is empty. *)
Fixpoint reset_ready_blocks (n : nat) (ready : list bsal_memory_block)
  : list bsal_memory_block :=
  match n with
  | O => ready
  | S n' =>
      match ready with
      | [] => []
      | block :: rest =>
          reset_ready_blocks n' (rest ++ [bsal_memory_block_free_all block])
      end
  end.

(** The loop over the dried blocks: dequeue, reset, enqueue as ready. *)
Fixpoint reset_dried_blocks (dried ready : list bsal_memory_block)
  : list bsal_memory_block :=
  match dried with
  | [] => ready
  | block :: rest =>
      reset_dried_blocks rest (ready ++ [bsal_memory_block_free_all block])
  end.

(** Modelled from the spec: [bsal_queue_size] of the queue collection
    primitive, the number of queued elements as an [int]. *)
Definition bsal_queue_size {A} (queue : list A) : Z := to_int (Z.of_nat (length queue)).

(** [bsal_memory_pool_free_all]. *)
Definition bsal_memory_pool_free_all (self : bsal_memory_pool) : bsal_memory_pool :=
  let self :=
    set_current_block (bsal_memory_block_free_all <$> current_block self) self in
  let size := bsal_queue_size (ready_blocks self) in
  let self :=
    set_ready_blocks (reset_ready_blocks (Z.to_nat size) (ready_blocks self)) self in
  set_dried_blocks []
    (set_ready_blocks (reset_dried_blocks (dried_blocks self) (ready_blocks self)) self).

(** *** What the properties talk about *)

(** The blocks a pool owns. *)
Definition all_blocks (self : bsal_memory_pool) : list bsal_memory_block :=
  option_list (current_block self) ++ dried_blocks self ++ ready_blocks self.

(** A pointer is in use: the allocated-blocks map has it. *)
Definition in_use (self : bsal_memory_pool) (pointer : Z) : Prop :=
  is_Some (allocated_blocks self !! pointer).

(** A pointer is freed: some queue of the recycle bin holds it. *)
Definition in_bin (self : bsal_memory_pool) (pointer : Z) : Prop :=
  exists size queue, recycle_bin self !! size = Some queue /\ pointer ∈ queue.

Definition exactly_one (P Q : Prop) : Prop := (P /\ ~ Q) \/ (~ P /\ Q).

(** Two blocks share no byte. *)
Definition apart (b1 b2 : bsal_memory_block) : Prop :=
  memory b1 + total_bytes b1 <= memory b2 \/ memory b2 + total_bytes b2 <= memory b1.

(** The pool after [size] bytes were taken from [block]. *)
Definition bumped (block : bsal_memory_block) (size : Z) : bsal_memory_block :=
  MemoryBlock (memory block) (total_bytes block) (offset block + size).

(** What holds of a tracking pool that is driven by allocate and free.
    The blocks are distinct regions of block_size bytes; every tracked
    pointer lies below the bump pointer of one of them; no pointer is both
    in the allocated-blocks map and in the recycle bin, or twice in the
    bin. *)
Record pool_invariant (self : bsal_memory_pool) : Prop := {
  inv_tracking : tracking_enabled self = true;
  inv_enabled : disabled self = false;
  inv_block_size : 0 < block_size self < 2 ^ 31;
  inv_blocks_nodup : NoDup (memory <$> all_blocks self);
  inv_blocks_apart : forall b1 b2,
    b1 ∈ all_blocks self -> b2 ∈ all_blocks self ->
    memory b1 <> memory b2 -> apart b1 b2;
  inv_blocks_bounds : forall b,
    b ∈ all_blocks self ->
    0 < memory b /\ total_bytes b = block_size self /\ 0 <= offset b <= total_bytes b;
  inv_ready_reset : forall b, b ∈ ready_blocks self -> offset b = 0;
  inv_tracked_in_block : forall p,
    in_use self p \/ in_bin self p ->
    exists b, b ∈ all_blocks self /\ memory b <= p < memory b + offset b;
  inv_exclusive : forall p, in_use self p -> ~ in_bin self p;
  inv_queue_nodup : forall s q, recycle_bin self !! s = Some q -> NoDup q;
  inv_queues_apart : forall s1 s2 q1 q2 p,
    recycle_bin self !! s1 = Some q1 -> recycle_bin self !! s2 = Some q2 ->
    p ∈ q1 -> p ∈ q2 -> s1 = s2
}.

(** The system answers a request for a block with memory that is not
    NULL and overlaps no block of the pool. *)
Definition region_free (self : bsal_memory_pool) (a : Z) : Prop :=
  0 < a /\
  forall b, b ∈ all_blocks self ->
    a + block_size self <= memory b \/ memory b + total_bytes b <= a.

Definition system_fresh (sys : system) (self : bsal_memory_pool) : Prop :=
  Forall (region_free self) (sys_answers sys).

(** The pools reached from init by allocate, free and the normalization
    switches, together with the pointers allocate has handed out for a
    size below block_size.  The system between two calls is arbitrary. *)
Inductive reachable (discard_empty_queues : bool) : bsal_memory_pool -> gset Z -> Prop :=
| reachable_init block_size :
    0 < block_size < 2 ^ 31 ->
    reachable discard_empty_queues (bsal_memory_pool_init block_size) ∅
| reachable_allocate self handed sys size size' pointer sys' self' :
    reachable discard_empty_queues self handed ->
    0 <= size < 2 ^ 64 ->
    system_fresh sys self ->
    requested_size (Some self) size = Some size' ->
    bsal_memory_pool_allocate discard_empty_queues sys (Some self) size =
      Returned pointer sys' (Some self') ->
    reachable discard_empty_queues self'
      (if bool_decide (size' < to_size_t (block_size self))
       then {[pointer]} ∪ handed else handed)
| reachable_free self handed sys pointer sys' self' :
    reachable discard_empty_queues self handed ->
    bsal_memory_pool_free sys (Some self) pointer = (sys', Some self') ->
    reachable discard_empty_queues self' handed
| reachable_enable_normalization self handed :
    reachable discard_empty_queues self handed ->
    reachable discard_empty_queues (bsal_memory_pool_enable_normalization self) handed
| reachable_disable_normalization self handed :
    reachable discard_empty_queues self handed ->
    reachable discard_empty_queues (bsal_memory_pool_disable_normalization self) handed.

(** *** Running a pool *)

Inductive operation :=
| Allocate (size : Z)
| Free (pointer : Z)
| FreeAll.

(** One call on a pool; [None] when allocate does not return. *)
Definition step (discard_empty_queues : bool)
    (state : system * bsal_memory_pool) (op : operation)
  : option (system * bsal_memory_pool) :=
  match op with
  | Allocate size =>
      match bsal_memory_pool_allocate discard_empty_queues state.1 (Some state.2) size with
      | Returned _ sys (Some self) => Some (sys, self)
      | _ => None
      end
  | Free pointer =>
      match bsal_memory_pool_free state.1 (Some state.2) pointer with
      | (sys, Some self) => Some (sys, self)
      | _ => None
      end
  | FreeAll => Some (state.1, bsal_memory_pool_free_all state.2)
  end.

Fixpoint run (discard_empty_queues : bool)
    (state : system * bsal_memory_pool) (ops : list operation)
  : option (system * bsal_memory_pool) :=
  match ops with
  | [] => Some state
  | op :: rest =>
      match step discard_empty_queues state op with
      | Some state' => run discard_empty_queues state' rest
      | None => None
      end
  end.

(** *** Example pools

    A pool of 64-byte blocks on a system that answers 4096, 8192, 12288. *)
Definition example_start : system * bsal_memory_pool :=
  (System [4096; 8192; 12288] [], bsal_memory_pool_init 64).

Definition example_system : system :=
  System [12288] [SysAllocate 64 4096; SysAllocate 64 8192].

(** After [Allocate 48; Allocate 48]: the first block is exhausted. *)
Definition example_pool : bsal_memory_pool :=
  {| recycle_bin := ∅;
     allocated_blocks := {[4096 := 48; 8192 := 48]};
     large_blocks := ∅;
     current_block := Some (MemoryBlock 8192 64 48);
     dried_blocks := [MemoryBlock 4096 64 48];
     ready_blocks := [];
     block_size := 64; flags := 1 |}.

(** After [Allocate 48; Allocate 48; Free 4096]. *)
Definition example_pool_freed : bsal_memory_pool :=
  {| recycle_bin := {[48 := [4096]]};
     allocated_blocks := {[8192 := 48]};
     large_blocks := ∅;
     current_block := Some (MemoryBlock 8192 64 48);
     dried_blocks := [MemoryBlock 4096 64 48];
     ready_blocks := [];
     block_size := 64; flags := 1 |}.

(** After [Allocate 16; Free 4096; FreeAll]: the bump pointer is back at
    the start of the block, the freed pointer is still in the bin. *)
Definition example_pool_reset : bsal_memory_pool :=
  {| recycle_bin := {[16 := [4096]]};
     allocated_blocks := ∅;
     large_blocks := ∅;
     current_block := Some (MemoryBlock 4096 64 0);
     dried_blocks := [];
     ready_blocks := [];
     block_size := 64; flags := 1 |}.

(** ... and after one more [Allocate 32]. *)
Definition example_pool_reused : bsal_memory_pool :=
  {| recycle_bin := {[16 := [4096]]};
     allocated_blocks := {[4096 := 32]};
     large_blocks := ∅;
     current_block := Some (MemoryBlock 4096 64 32);
     dried_blocks := [];
     ready_blocks := [];
     block_size := 64; flags := 1 |}.

(** *** The bytes of the tracked pointers *)

(** A pointer is tracked with a size: the allocated-blocks map records the
    size for it, or it waits in the recycle bin's queue for that size. *)
Definition tracked_size (self : bsal_memory_pool) (pointer size : Z) : Prop :=
  allocated_blocks self !! pointer = Some size \/
  exists queue, recycle_bin self !! size = Some queue /\ pointer ∈ queue.

(** The bytes of the tracked pointers: every tracked pointer has a
    positive size and its bytes lie below the bump pointer of one block;
    the bytes of two tracked pointers do not overlap. *)
Record range_invariant (self : bsal_memory_pool) : Prop := {
  ranges_positive : forall p s, tracked_size self p s -> 0 < s;
  ranges_in_block : forall p s,
    tracked_size self p s ->
    exists b, b ∈ all_blocks self /\ memory b <= p /\ p + s <= memory b + offset b;
  ranges_apart : forall p1 s1 p2 s2,
    tracked_size self p1 s1 -> tracked_size self p2 s2 -> p1 <> p2 ->
    p1 + s1 <= p2 \/ p2 + s2 <= p1
}.

End MemoryPool.

(** ** The red-black tree *)

Module RedBlackTree.

Inductive node_color := BSAL_COLOR_RED | BSAL_COLOR_BLACK.

(** [struct bsal_red_black_node]: the links are node addresses, [key] and
    [value] the addresses of the node's key and value buffers. *)
Record bsal_red_black_node := Node {
  parent : Z;
  left_node : Z;
  right_node : Z;
  color : node_color;
  key : Z;
  value : Z
}.

(** The memory a tree lives in: the nodes by address, and the bytes of the
    key buffers by address (those of the nodes and those of the callers). *)
Record memory := Memory {
  nodes : gmap Z bsal_red_black_node;
  buffers : gmap Z (list Z)
}.

(** The two functions the field [compare] can point to. *)
Inductive comparator :=
| bsal_red_black_tree_compare_memory_content
| bsal_red_black_tree_compare_uint64_t.

(** [struct bsal_red_black_tree] (the memory pool of the tree is only used
    by add and destroy). *)
Record bsal_red_black_tree := Tree {
  root : Z;
  size : Z;          (* int *)
  key_size : Z;      (* int *)
  value_size : Z;    (* int *)
  compare : comparator;
  cached_last_node : Z;
  cached_lowest_node : Z
}.

Definition bsal_red_black_tree_init (key_size value_size : Z) : bsal_red_black_tree :=
  {| root := NULL; size := 0; key_size := key_size; value_size := value_size;
     compare := bsal_red_black_tree_compare_memory_content;
     cached_last_node := NULL; cached_lowest_node := NULL |}.

Definition bsal_red_black_tree_use_uint64_t_keys (self : bsal_red_black_tree) :=
  Tree (root self) (size self) (key_size self) (value_size self)
    bsal_red_black_tree_compare_uint64_t (cached_last_node self) (cached_lowest_node self).

Definition set_size v (self : bsal_red_black_tree) :=
  Tree (root self) v (key_size self) (value_size self) (compare self)
    (cached_last_node self) (cached_lowest_node self).
Definition set_cached_last_node v (self : bsal_red_black_tree) :=
  Tree (root self) (size self) (key_size self) (value_size self) (compare self)
    v (cached_lowest_node self).
Definition set_cached_lowest_node v (self : bsal_red_black_tree) :=
  Tree (root self) (size self) (key_size self) (value_size self) (compare self)
    (cached_last_node self) v.

(** The sign of the first difference on the first [n] bytes: -1 when the
    first byte that differs is smaller in [bytes1], 1 when it is larger, 0
    when no byte differs; [None] when a buffer is shorter than [n]. *)
Fixpoint first_difference (bytes1 bytes2 : list Z) (n : nat) : option Z :=
  match n with
  | O => Some 0
  | S n' =>
      match bytes1, bytes2 with
      | b1 :: rest1, b2 :: rest2 =>
          if b1 <? b2 then Some (-1)
          else if b2 <? b1 then Some 1
          else first_difference rest1 rest2 n'
      | _, _ => None
      end
  end.

(** [memcmp] of the C library.  Its result is negative, zero or positive
    by the first byte that differs; how large a non-zero result is depends
    on the library (the difference of the two bytes, 1, ...), and
    [magnitude] gives it for the two buffers and the length. *)
Definition memcmp (magnitude : list Z -> list Z -> nat -> positive)
    (bytes1 bytes2 : list Z) (n : nat) : option Z :=
  sign ← first_difference bytes1 bytes2 n;
  Some (sign * Z.pos (magnitude bytes1 bytes2 n)).

(** A little-endian unsigned integer of [n] bytes. *)
Fixpoint read_unsigned (n : nat) (bytes : list Z) : option Z :=
  match n with
  | O => Some 0
  | S n' =>
      match bytes with
      | b :: rest => v ← read_unsigned n' rest; Some (b + 256 * v)
      | [] => None
      end
  end.

(** [bsal_red_black_tree_compare]: the call through the field [compare],
    on two key addresses; [None] when an address holds no readable key. *)
Definition bsal_red_black_tree_compare
    (magnitude : list Z -> list Z -> nat -> positive)
    (m : memory) (self : bsal_red_black_tree) (key1 key2 : Z) : option Z :=
  bytes1 ← buffers m !! key1;
  bytes2 ← buffers m !! key2;
  match compare self with
  | bsal_red_black_tree_compare_memory_content =>
      memcmp magnitude bytes1 bytes2 (Z.to_nat (key_size self))
  | bsal_red_black_tree_compare_uint64_t =>
      key1_as_uint64_t ← read_unsigned 8 bytes1;
      key2_as_uint64_t ← read_unsigned 8 bytes2;
      if key1_as_uint64_t <? key2_as_uint64_t then Some (-1)
      else if key1_as_uint64_t >? key2_as_uint64_t then Some 1
      else Some 0
  end.

(** [bsal_red_black_tree_delete].  It writes two fields of the tree and no
    node.  [None]: the assertion on the lowest-key cache fails (without the
    assertion, the NULL pointer is read), or a key cannot be read. *)
Definition bsal_red_black_tree_delete
    (magnitude : list Z -> list Z -> nat -> positive)
    (m : memory) (self : bsal_red_black_tree) (key : Z) : option bsal_red_black_tree :=
  if size self =? 0 then Some self
  else if cached_lowest_node self =? NULL then None
  else
    lowest ← nodes m !! cached_lowest_node self;
    result ← bsal_red_black_tree_compare magnitude m self key (RedBlackTree.key lowest);
    let self :=
      if result =? 0 then set_cached_lowest_node (parent lowest) self else self in
    Some (set_size (to_int (size self - 1)) self).

(** The loop of get, [while (node != NULL && value == NULL)], from the
    state [(node, value)]; [None] when a node or key cannot be read or the
    fuel runs out. *)
Fixpoint get_loop (magnitude : list Z -> list Z -> nat -> positive)
    (fuel : nat) (m : memory) (self : bsal_red_black_tree)
    (key node value : Z) : option (Z * Z) :=
  if negb (node =? NULL) && (value =? NULL) then
    match fuel with
    | O => None
    | S fuel' =>
        n ← nodes m !! node;
        result ← bsal_red_black_tree_compare magnitude m self key (RedBlackTree.key n);
        if result <? 0 then get_loop magnitude fuel' m self key (left_node n) value
        else if result >? 0 then get_loop magnitude fuel' m self key (right_node n) value
        else get_loop magnitude fuel' m self key node (RedBlackTree.value n)
    end
  else Some (node, value).

(** [bsal_red_black_tree_get]: the value address and the tree, whose
    last-node cache the search updates. *)
Definition bsal_red_black_tree_get
    (magnitude : list Z -> list Z -> nat -> positive)
    (fuel : nat) (m : memory) (self : bsal_red_black_tree) (key : Z)
  : option (Z * bsal_red_black_tree) :=
  cached ←
    (if cached_last_node self =? NULL then Some None
     else
       last ← nodes m !! cached_last_node self;
       Some (if RedBlackTree.key last =? key then Some (RedBlackTree.value last) else None));
  match cached with
  | Some value => Some (value, self)
  | None =>
      '(node, value) ← get_loop magnitude fuel m self key (root self) NULL;
      Some (value, set_cached_last_node node self)
  end.

(** *** An example tree

    What [bsal_red_black_tree_add] builds for the [int] key 5 added twice
    (4-byte keys): the first node, at 1000, is the black root; the second,
    at 2000, compares equal and becomes its right child; the lowest-key
    cache stays on the root, the last-node cache is the node just added.
    The caller's own key buffer is at 500. *)
Definition example_memory : memory :=
  {| nodes :=
       {[ 1000 := Node NULL NULL 2000 BSAL_COLOR_BLACK 1100 1200;
          2000 := Node 1000 NULL NULL BSAL_COLOR_RED 2100 2200 ]};
     buffers :=
       {[ 500 := [5; 0; 0; 0]; 1100 := [5; 0; 0; 0]; 2100 := [5; 0; 0; 0] ]} |}.

(** A [memcmp] whose non-zero answers are -2 and 2. *)
Definition example_magnitude : list Z -> list Z -> nat -> positive :=
  fun _ _ _ => 2%positive.

Definition example_tree : bsal_red_black_tree :=
  {| root := 1000; size := 2; key_size := 4; value_size := 4;
     compare := bsal_red_black_tree_compare_memory_content;
     cached_last_node := 2000; cached_lowest_node := 1000 |}.

(** The example tree after one delete of the key 5. *)
Definition example_tree_deleted : bsal_red_black_tree :=
  {| root := 1000; size := 1; key_size := 4; value_size := 4;
     compare := bsal_red_black_tree_compare_memory_content;
     cached_last_node := 2000; cached_lowest_node := NULL |}.

(** *** Lowest key and rotations *)

Definition set_root v (self : bsal_red_black_tree) :=
  Tree v (size self) (key_size self) (value_size self) (compare self)
    (cached_last_node self) (cached_lowest_node self).

Definition set_parent v (n : bsal_red_black_node) :=
  Node v (left_node n) (right_node n) (color n) (key n) (value n).
Definition set_left_node v (n : bsal_red_black_node) :=
  Node (parent n) v (right_node n) (color n) (key n) (value n).
Definition set_right_node v (n : bsal_red_black_node) :=
  Node (parent n) (left_node n) v (color n) (key n) (value n).

(** Reading and writing a node through a pointer: NULL and an address
    that holds no node fault. *)
Definition read_node (m : memory) (address : Z) : option bsal_red_black_node :=
  if address =? NULL then None else nodes m !! address.

Definition write_node (m : memory) (address : Z)
    (f : bsal_red_black_node -> bsal_red_black_node) : option memory :=
  n ← read_node m address;
  Some (Memory (<[address := f n]> (nodes m)) (buffers m)).

(** The loop [while (1)] of get_lowest_key, from a node that is not NULL. *)
Fixpoint lowest_loop (fuel : nat) (m : memory) (node : Z) : option Z :=
  match fuel with
  | O => None
  | S fuel' =>
      n ← nodes m !! node;
      if left_node n =? NULL then Some (RedBlackTree.key n)
      else lowest_loop fuel' m (left_node n)
  end.

(** [bsal_red_black_tree_get_lowest_key]: the key address and the tree,
    whose last-node cache is set when the lowest-key cache answers. *)
Definition bsal_red_black_tree_get_lowest_key
    (fuel : nat) (m : memory) (self : bsal_red_black_tree)
  : option (Z * bsal_red_black_tree) :=
  if negb (cached_lowest_node self =? NULL) then
    lowest ← nodes m !! cached_lowest_node self;
    Some (RedBlackTree.key lowest,
          set_cached_last_node (cached_lowest_node self) self)
  else if root self =? NULL then Some (NULL, self)
  else
    lowest_key ← lowest_loop fuel m (root self);
    Some (lowest_key, self).

(** [bsal_red_black_tree_rotate_left], one write after the other. *)
Definition bsal_red_black_tree_rotate_left
    (m : memory) (self : bsal_red_black_tree) (node : Z)
  : option (memory * bsal_red_black_tree) :=
  let node_N := node in
  n ← read_node m node_N;
  let node_G := parent n in
  let node_D := right_node n in
  d ← read_node m node_D;
  let node_E := left_node d in
  m ← write_node m node_N (set_right_node node_E);
  m ← (if negb (node_E =? NULL) then write_node m node_E (set_parent node_N)
       else Some m);
  m ← write_node m node_D (set_left_node node_N);
  m ← write_node m node_N (set_parent node_D);
  '(m, self) ←
    (if negb (node_G =? NULL) then
       g ← read_node m node_G;
       if left_node g =? node_N
       then m ← write_node m node_G (set_left_node node_D); Some (m, self)
       else m ← write_node m node_G (set_right_node node_D); Some (m, self)
     else Some (m, set_root node_D self));
  m ← write_node m node_D (set_parent node_G);
  Some (m, self).

(** [bsal_red_black_tree_rotate_right]. *)
Definition bsal_red_black_tree_rotate_right
    (m : memory) (self : bsal_red_black_tree) (node : Z)
  : option (memory * bsal_red_black_tree) :=
  let node_N := node in
  n ← read_node m node_N;
  let node_G := parent n in
  let node_D := left_node n in
  d ← read_node m node_D;
  let node_E := right_node d in
  m ← write_node m node_N (set_left_node node_E);
  m ← (if negb (node_E =? NULL) then write_node m node_E (set_parent node_N)
       else Some m);
  m ← write_node m node_D (set_right_node node_N);
  m ← write_node m node_N (set_parent node_D);
  '(m, self) ←
    (if negb (node_G =? NULL) then
       g ← read_node m node_G;
       if right_node g =? node_N
       then m ← write_node m node_G (set_right_node node_D); Some (m, self)
       else m ← write_node m node_G (set_left_node node_D); Some (m, self)
     else Some (m, set_root node_D self));
  m ← write_node m node_D (set_parent node_G);
  Some (m, self).

(** The nodes below [node] from left to right, the order that the
    comments of the rotations give ([C N E D F]); [None] when a node
    cannot be read or the fuel runs out. *)
Fixpoint in_order (fuel : nat) (m : memory) (node : Z) : option (list Z) :=
  if node =? NULL then Some []
  else
    match fuel with
    | O => None
    | S fuel' =>
        n ← nodes m !! node;
        lower ← in_order fuel' m (left_node n);
        higher ← in_order fuel' m (right_node n);
        Some (lower ++ node :: higher)
    end.

(** A larger example: 2000 is the root, with the left child 1000 and the
    right child 4000, whose children are 3000 and 5000. *)
Definition example_nodes : memory :=
  {| nodes :=
       {[ 1000 := Node 2000 NULL NULL BSAL_COLOR_BLACK 1100 1200;
          2000 := Node NULL 1000 4000 BSAL_COLOR_BLACK 2100 2200;
          3000 := Node 4000 NULL NULL BSAL_COLOR_BLACK 3100 3200;
          4000 := Node 2000 3000 5000 BSAL_COLOR_RED 4100 4200;
          5000 := Node 4000 NULL NULL BSAL_COLOR_BLACK 5100 5200 ]};
     buffers :=
       {[ 1100 := [1; 0; 0; 0]; 2100 := [2; 0; 0; 0]; 3100 := [3; 0; 0; 0];
          4100 := [4; 0; 0; 0]; 5100 := [5; 0; 0; 0] ]} |}.

Definition example_rooted : bsal_red_black_tree :=
  {| root := 2000; size := 5; key_size := 4; value_size := 4;
     compare := bsal_red_black_tree_compare_memory_content;
     cached_last_node := NULL; cached_lowest_node := NULL |}.

End RedBlackTree.

(** ** The hash function *)

Module MurmurHash.

Definition m : Z := 0xc6a4a7935bd1e995.
Definition r : Z := 47.

(** The body of the loop over the 64-bit words of the key. *)
Definition mix_word (h k : Z) : Z :=
  let k := to_uint64 (k * m) in
  let k := Z.lxor k (Z.shiftr k r) in
  let k := to_uint64 (k * m) in
  let h := Z.lxor h k in
  to_uint64 (h * m).

(** [while (data != end)]: [count] words are read, least significant
    byte first; the rest of the key and the hash are returned.  [None]
    when the key is shorter than the words to read. *)
Fixpoint hash_words (count : nat) (data : list Z) (h : Z) : option (list Z * Z) :=
  match count with
  | O => Some (data, h)
  | S count' =>
      k ← RedBlackTree.read_unsigned 8 data;
      hash_words count' (drop 8 data) (mix_word h k)
  end.

(** The cases [count], ..., 1 of the switch, which fall through. *)
Fixpoint hash_tail (count : nat) (data2 : list Z) (h : Z) : option Z :=
  match count with
  | O => Some h
  | S count' =>
      byte ← data2 !! count';
      hash_tail count' data2 (Z.lxor h (Z.shiftl byte (8 * Z.of_nat count')))
  end.

(** The last three statements. *)
Definition finish (h : Z) : Z :=
  let h := Z.lxor h (Z.shiftr h r) in
  let h := to_uint64 (h * m) in
  Z.lxor h (Z.shiftr h r).

(** [bsal_murmur_hash_2_64_a] on a key given by its bytes (values from 0
    to 255).  [len / 8] is the division of [int], which rounds towards 0,
    and [len & 7] is taken on the two's complement of [len]: with [len]
    from -7 to -1 no word is read and [len & 7] bytes are.  With [len]
    below -7 the pointer [end] lies before [data] and the loop runs out of
    the key: [None], as when the key is shorter than what is read. *)
Definition bsal_murmur_hash_2_64_a (key : list Z) (len seed : Z) : option Z :=
  if len ÷ 8 <? 0 then None
  else
    let h := Z.lxor (to_uint32 seed) (to_uint32 len) in
    '(data2, h) ← hash_words (Z.to_nat (len ÷ 8)) key h;
    h ← (if Z.land len 7 =? 0 then Some h
         else
           h ← hash_tail (Z.to_nat (Z.land len 7)) data2 h;
           Some (to_uint64 (h * m)));
    Some (finish h).

(** A key is a list of bytes. *)
Definition is_bytes (key : list Z) : Prop := Forall (fun b => 0 <= b < 256) key.

End MurmurHash.

(** * Properties *)

(** ** Machine integers *)

Lemma to_int_small z : - 2 ^ 31 <= z < 2 ^ 31 -> to_int z = z.
Proof. intros H. unfold to_int. rewrite Z.mod_small; lia. Qed.

Lemma to_size_t_small z : 0 <= z < 2 ^ 64 -> to_size_t z = z.
Proof. intros H. unfold to_size_t. apply Z.mod_small; lia. Qed.

Lemma to_uint64_small z : 0 <= z < 2 ^ 64 -> to_uint64 z = z.
Proof. intros H. unfold to_uint64. apply Z.mod_small; lia. Qed.

(** ** The sequence partitioner *)

Section PartitionerFacts.
Import Partitioner.

Lemma verify_stores_example stores currents :
  verify_stores 3 stores currents 4096 10000 =
  (stores ++ [4096; 4096; 1808], currents ++ [0; 0; 0]).
Proof.
  cbn [verify_stores]. rewrite <- !app_assoc. reflexivity.
Qed.

(** C1.  With block_size = 4096, the entry vector [10000] and
    store_count = 3, verify pushes the store entry counts 4096, 4096, 1808
    in that order and replies with PROVIDE_STORE_ENTRY_COUNTS carrying the
    store-entry vector; the three counts sum to 10000 and the first two
    equal the block size. *)
Theorem verify_provides_store_entry_counts stack (s : bsal_sequence_partitioner) :
  block_size s = 4096 ->
  stream_entries s = [10000] ->
  store_count s = 3 ->
  exists s',
    bsal_sequence_partitioner_verify stack s = Some s' /\
    store_entries s' = store_entries s ++ [4096; 4096; 1808] /\
    sent s' = sent s ++
      [Message BSAL_SEQUENCE_PARTITIONER_PROVIDE_STORE_ENTRY_COUNTS (store_entries s')] /\
    total s' = 10000 /\
    sum_entries [4096; 4096; 1808] = total s' /\
    [4096; 4096] = [block_size s'; block_size s'].
Proof.
  intros Hb He Hc. unfold bsal_sequence_partitioner_verify.
  rewrite Hb, He, Hc. cbn [Z.eqb length Z.of_nat verify_streams].
  change (to_uint64 (0 + 10000)) with 10000.
  change (to_uint64 3) with 3. change (to_uint64 4096) with 4096.
  change (10000 / 3) with 3333.
  change (Z.to_nat 3) with 3%nat.
  cbn [Z.eqb Z.ltb Z.compare Pos.compare Pos.compare_cont Pos.of_succ_nat Pos.succ].
  rewrite verify_stores_example.
  eexists. split; [reflexivity|]. cbn. repeat split; reflexivity.
Qed.

(** The initial state with the three values of the handshake stored. *)
Lemma verify_provides_store_entry_counts_witness :
  let s := set_store_count 3
             (set_stream_entries [10000]
                (set_block_size 4096 (bsal_sequence_partitioner_init 0))) in
  block_size s = 4096 /\ stream_entries s = [10000] /\ store_count s = 3 /\
  exists s',
    bsal_sequence_partitioner_verify (fun _ => 6%Z) s = Some s' /\
    store_entries s' = store_entries s ++ [4096; 4096; 1808] /\
    sent s' = sent s ++
      [Message BSAL_SEQUENCE_PARTITIONER_PROVIDE_STORE_ENTRY_COUNTS (store_entries s')] /\
    total s' = 10000 /\
    sum_entries [4096; 4096; 1808] = total s' /\
    [4096; 4096] = [block_size s'; block_size s'].
Proof.
  intros s. split; [reflexivity|]. split; [reflexivity|]. split; [reflexivity|].
  apply (verify_provides_store_entry_counts (fun _ => 6%Z) s); reflexivity.
Defined.

(** The same through receive: whatever the order in which the three
    configuration messages arrive, the last of them triggers the reply. *)
Lemma handshake_any_order stack (garbage : Z) (ms : list request) :
  ms ∈ permutations handshake_requests ->
  exists s',
    deliver stack (bsal_sequence_partitioner_init garbage) ms = Some s' /\
    store_entries s' = [4096; 4096; 1808] /\
    last (sent s') =
      Some (Message BSAL_SEQUENCE_PARTITIONER_PROVIDE_STORE_ENTRY_COUNTS
              [4096; 4096; 1808]) /\
    length (sent s') = 4%nat.
Proof.
  intros Hms. vm_compute in Hms.
  repeat (apply elem_of_cons in Hms as [-> | Hms];
          [eexists; split; [cbv -[pushed_position]; reflexivity | repeat split] |]).
  inversion Hms.
Qed.

End PartitionerFacts.

(** ** Memory pool: segment normalization *)

Section NormalizationFacts.
Import MemoryPool.

Lemma smeared_init v : 0 < v -> smeared 1 v v.
Proof.
  intros Hv. repeat split; [lia|]. intros i Hi Hr.
  assert (i = Z.log2 v) as -> by lia. apply Z.bit_log2. lia.
Qed.

Lemma smeared_step n v x :
  0 < n -> smeared n v x -> smeared (2 * n) v (Z.lor x (Z.shiftr x n)).
Proof.
  intros Hn (Hx & Hlog & Hbits).
  assert (0 <= Z.shiftr x n) as Hs by (apply Z.shiftr_nonneg; lia).
  assert (Z.log2 (Z.lor x (Z.shiftr x n)) = Z.log2 v) as Hl.
  { rewrite Z.log2_lor by lia. rewrite Z.log2_shiftr by lia.
    pose proof (Z.log2_nonneg x). lia. }
  split.
  - pose proof (Z.lor_nonneg x (Z.shiftr x n)) as [_ Hnn].
    assert (0 <= Z.lor x (Z.shiftr x n)) as H0 by (apply Hnn; lia).
    destruct (Z.eq_dec (Z.lor x (Z.shiftr x n)) 0) as [E|E]; [|lia].
    apply Z.lor_eq_0_iff in E. lia.
  - split; [exact Hl|]. intros i Hi Hr. rewrite Z.lor_spec.
    destruct (Z_lt_le_dec (Z.log2 v - n) i) as [Hhi|Hlo].
    + rewrite Hbits by lia. reflexivity.
    + rewrite Z.shiftr_spec by lia. rewrite (Hbits (i + n)) by lia.
      apply orb_true_r.
Qed.

Lemma smeared_all_ones v x :
  Z.log2 v < 32 -> smeared 32 v x -> x = 2 ^ (Z.log2 v + 1) - 1.
Proof.
  intros Hv (Hx & Hlog & Hbits).
  pose proof (Z.log2_nonneg v) as Hnn.
  replace (2 ^ (Z.log2 v + 1) - 1) with (Z.ones (Z.log2 v + 1))
    by (rewrite Z.ones_equiv; lia).
  apply Z.bits_inj'. intros i Hi.
  destruct (Z_lt_le_dec (Z.log2 v) i) as [Hhi|Hlo].
  - rewrite Z.ones_spec_high by lia. apply Z.bits_above_log2; lia.
  - rewrite Z.ones_spec_low by lia. apply Hbits; lia.
Qed.

(** The five rounds of the trick turn a positive [v] below 2^32 into
    2^(log2 v + 1) - 1. *)
Lemma smear_uint32 v :
  0 < v < 2 ^ 32 ->
  let x := Z.lor v (Z.shiftr v 1) in
  let x := Z.lor x (Z.shiftr x 2) in
  let x := Z.lor x (Z.shiftr x 4) in
  let x := Z.lor x (Z.shiftr x 8) in
  let x := Z.lor x (Z.shiftr x 16) in
  x = 2 ^ (Z.log2 v + 1) - 1.
Proof.
  intros Hv. cbv zeta.
  assert (Z.log2 v < 32) as Hlog by (apply Z.log2_lt_pow2; lia).
  apply smeared_all_ones; [exact Hlog|].
  apply (smeared_step 16); [lia|]. apply (smeared_step 8); [lia|].
  apply (smeared_step 4); [lia|]. apply (smeared_step 2); [lia|].
  apply (smeared_step 1); [lia|]. apply smeared_init. lia.
Qed.

Lemma normalize_uint32_log2 size :
  1 < size <= 2 ^ 32 - 1 ->
  normalize_uint32 size = to_uint32 (2 ^ (Z.log2 (size - 1) + 1)).
Proof.
  intros Hs. unfold normalize_uint32.
  assert (to_uint32 size = size) as -> by (apply Z.mod_small; lia).
  assert (to_uint32 (size - 1) = size - 1) as -> by (apply Z.mod_small; lia).
  cbv zeta. rewrite (smear_uint32 (size - 1)) by lia. f_equal. lia.
Qed.

Lemma next_power_of_two_log2 size :
  1 < size -> next_power_of_two size (2 ^ (Z.log2 (size - 1) + 1)).
Proof.
  intros Hs. pose proof (Z.log2_nonneg (size - 1)) as Hnn.
  pose proof (Z.log2_spec (size - 1) ltac:(lia)) as [Hlo Hhi].
  replace (Z.succ (Z.log2 (size - 1))) with (Z.log2 (size - 1) + 1) in Hhi by lia.
  split; [exists (Z.log2 (size - 1) + 1); split; [lia | reflexivity]|].
  split; [lia|]. intros k Hk Hle.
  apply Z.pow_le_mono_r; [lia|].
  destruct (Z_lt_le_dec (Z.log2 (size - 1)) k) as [|Hc]; [lia|].
  assert (2 ^ k <= 2 ^ Z.log2 (size - 1)) by (apply Z.pow_le_mono_r; lia). lia.
Qed.

(** On 1 .. 2^31 the bit trick computes the next power of two. *)
Lemma normalize_uint32_correct size :
  1 <= size <= 2 ^ 31 -> next_power_of_two size (normalize_uint32 size).
Proof.
  intros Hs. destruct (Z.eq_dec size 1) as [->|Hne].
  - change (normalize_uint32 1) with 1. split; [exists 0; split; [lia|reflexivity]|].
    split; [lia|]. intros k Hk _.
    change 1 with (2 ^ 0). apply Z.pow_le_mono_r; lia.
  - rewrite normalize_uint32_log2 by lia.
    assert (Z.log2 (size - 1) < 31) as Hlog by (apply Z.log2_lt_pow2; lia).
    pose proof (Z.log2_nonneg (size - 1)) as Hnn.
    assert (2 ^ (Z.log2 (size - 1) + 1) <= 2 ^ 31) by (apply Z.pow_le_mono_r; lia).
    assert (0 < 2 ^ (Z.log2 (size - 1) + 1)) by (apply Z.pow_pos_nonneg; lia).
    unfold to_uint32. rewrite Z.mod_small by lia.
    apply next_power_of_two_log2. lia.
Qed.

(** Above 2^31 the result of the trick does not fit in a [uint32_t]: the
    final increment wraps to 0. *)
Lemma normalize_uint32_wraps size :
  2 ^ 31 < size <= 2 ^ 32 - 1 -> normalize_uint32 size = 0.
Proof.
  intros Hs. rewrite normalize_uint32_log2 by lia.
  assert (Z.log2 (size - 1) = 31) as ->.
  { apply Z.log2_unique; lia. }
  reflexivity.
Qed.

Lemma normalize_loop_zero fuel size :
  0 < size -> normalize_loop fuel 0 size = None.
Proof.
  intros Hs. induction fuel as [|fuel IH]; [reflexivity|].
  cbn [normalize_loop]. destruct (Z.ltb_spec 0 size); [|lia]. exact IH.
Qed.

Lemma to_size_t_double_pow2 k :
  0 <= k < 63 -> to_size_t (2 ^ k * 2) = 2 ^ (k + 1).
Proof.
  intros Hk. unfold to_size_t. rewrite Z.pow_add_r by lia. change (2 ^ 1) with 2.
  assert (2 ^ k * 2 <= 2 ^ 63).
  { replace (2 ^ k * 2) with (2 ^ (k + 1)) by (rewrite Z.pow_add_r by lia; reflexivity).
    apply Z.pow_le_mono_r; lia. }
  assert (0 < 2 ^ k) by (apply Z.pow_pos_nonneg; lia).
  apply Z.mod_small. lia.
Qed.

(** Above 2^63 the doubling loop never ends, whatever the fuel. *)
Lemma normalize_loop_never_ends_from (n : nat) fuel size :
  2 ^ 63 < size ->
  (n <= 63)%nat ->
  normalize_loop fuel (2 ^ (63 - Z.of_nat n)) size = None.
Proof.
  intros Hs. revert fuel. induction n as [|n IH]; intros fuel Hn.
  - destruct fuel as [|fuel]; [reflexivity|]. cbn [normalize_loop].
    change (63 - Z.of_nat 0) with 63.
    destruct (Z.ltb_spec (2 ^ 63) size); [|lia].
    change (to_size_t (2 ^ 63 * 2)) with 0. apply normalize_loop_zero. lia.
  - destruct fuel as [|fuel]; [reflexivity|]. cbn [normalize_loop].
    assert (2 ^ (63 - Z.of_nat (S n)) <= 2 ^ 63) by (apply Z.pow_le_mono_r; lia).
    destruct (Z.ltb_spec (2 ^ (63 - Z.of_nat (S n))) size); [|lia].
    rewrite to_size_t_double_pow2 by lia.
    replace (63 - Z.of_nat (S n) + 1) with (63 - Z.of_nat n) by lia.
    apply IH. lia.
Qed.

Lemma normalize_loop_never_ends fuel size :
  2 ^ 63 < size -> normalize_loop fuel 1 size = None.
Proof.
  intros Hs. apply (normalize_loop_never_ends_from 63 fuel size Hs). lia.
Qed.

(** From 2^k on, with enough fuel, the loop stops at the next power of
    two, as long as that power is at most 2^63. *)
Lemma normalize_loop_correct_from (fuel : nat) k size :
  0 <= k <= 63 -> 1 < size <= 2 ^ 63 ->
  (k = 0 \/ 2 ^ (k - 1) < size) ->
  (Z.to_nat (63 - k) < fuel)%nat ->
  exists r, normalize_loop fuel (2 ^ k) size = Some r /\ next_power_of_two size r.
Proof.
  revert k. induction fuel as [|fuel IH]; intros k Hk Hs Hlow Hfuel; [lia|].
  cbn [normalize_loop]. destruct (Z.ltb_spec (2 ^ k) size) as [Hlt|Hge].
  - assert (k < 63).
    { destruct (Z_lt_le_dec k 63); [lia|]. replace k with 63 in Hlt by lia. lia. }
    rewrite to_size_t_double_pow2 by lia.
    apply IH; [lia | lia | | lia].
    right. replace (k + 1 - 1) with k by lia. exact Hlt.
  - exists (2 ^ k). split; [reflexivity|].
    split; [exists k; split; [lia|reflexivity]|]. split; [lia|].
    intros j Hj Hle. apply Z.pow_le_mono_r; [lia|].
    destruct Hlow as [->|Hlow]; [lia|].
    destruct (Z_lt_le_dec j k) as [Hjk|]; [|lia].
    assert (2 ^ j <= 2 ^ (k - 1)) by (apply Z.pow_le_mono_r; lia). lia.
Qed.

(** C5, as the code has it.  On a pool whose normalize flag is set,
    allocate rounds the requested size up before it allocates, for every
    size from 1 to 2^31 (where the normalization takes the bit-trick
    branch) and for every size from 2^32 to 2^63 (where it takes the
    doubling loop, which ends): the size that allocate passes on is the
    smallest power of two that is at least the requested size, and what
    allocate returns is what the internal allocation returns for that
    power of two.  On a pool whose flag is clear the requested size is
    passed on as it is. *)
Theorem normalize_segment_length_correct d sys (self : bsal_memory_pool) size :
  (normalization_enabled self = true ->
   1 <= size <= 2 ^ 31 \/ 2 ^ 32 <= size <= 2 ^ 63 ->
   exists r,
     next_power_of_two size r /\
     bsal_memory_pool_normalize_segment_length size = Some r /\
     (size <= 2 ^ 31 -> r = normalize_uint32 size) /\
     (2 ^ 32 <= size -> normalize_loop 65 1 size = Some r) /\
     requested_size (Some self) size = Some r /\
     forall pointer sys' self',
       bsal_memory_pool_allocate d sys (Some self) size = Returned pointer sys' self' <->
       bsal_memory_pool_allocate_private d sys (Some self) r = (pointer, sys', self') /\
       pointer <> NULL) /\
  (normalization_enabled self = false ->
   requested_size (Some self) size = Some size).
Proof.
  split; [|intros Hflag; unfold requested_size; rewrite Hflag; reflexivity].
  intros Hflag Hsize.
  assert (exists r,
            next_power_of_two size r /\
            bsal_memory_pool_normalize_segment_length size = Some r /\
            (size <= 2 ^ 31 -> r = normalize_uint32 size) /\
            (2 ^ 32 <= size -> normalize_loop 65 1 size = Some r))
    as (r & Hnext & Hcall & Hsmall & Hlarge).
  { unfold bsal_memory_pool_normalize_segment_length;
      change (to_uint32 (0 - 1)) with (2 ^ 32 - 1); cbv zeta.
    destruct Hsize as [Hs|Hs].
    - destruct (Z.gtb_spec size (2 ^ 32 - 1)); [lia|].
      exists (normalize_uint32 size).
      split; [apply normalize_uint32_correct; exact Hs|].
      split; [reflexivity|]. split; [reflexivity | lia].
    - destruct (Z.gtb_spec size (2 ^ 32 - 1)); [|lia].
      destruct (normalize_loop_correct_from 65 0 size) as (r & Hr & Hnext);
        [lia | lia | left; reflexivity | change (Z.to_nat (63 - 0)) with 63%nat; lia |].
      change (2 ^ 0) with 1 in Hr. exists r.
      split; [exact Hnext|]. split; [exact Hr|]. split; [lia | intros _; exact Hr]. }
  assert (requested_size (Some self) size = Some r) as Hreq
    by (unfold requested_size; rewrite Hflag; exact Hcall).
  exists r. split; [exact Hnext|]. split; [exact Hcall|]. split; [exact Hsmall|].
  split; [exact Hlarge|]. split; [exact Hreq|].
  intros pointer sys' self'. unfold bsal_memory_pool_allocate. rewrite Hreq.
  destruct (bsal_memory_pool_allocate_private d sys (Some self) r) as [[p sys1] self1].
  destruct (Z.eqb_spec p NULL) as [Hnull|Hnull].
  - split; [discriminate|]. intros [H Hp]. injection H as -> _ _. contradiction.
  - split.
    + intros H. injection H as -> -> ->. split; [reflexivity | exact Hnull].
    + intros [H _]. injection H as -> -> ->. reflexivity.
Qed.

Lemma normalize_segment_length_correct_witness :
  let pool := bsal_memory_pool_enable_normalization (bsal_memory_pool_init 64) in
  normalization_enabled pool = true /\
  requested_size (Some pool) 100 = Some 128 /\
  next_power_of_two 100 128 /\
  bsal_memory_pool_allocate false (System [4096] []) (Some pool) 100 =
    Returned 4096 (System [] [SysAllocate 128 4096])
      (Some (set_large_blocks {[4096]} pool)) /\
  exists r,
    requested_size (Some pool) (2 ^ 32 + 1) = Some r /\
    normalize_loop 65 1 (2 ^ 32 + 1) = Some r /\
    next_power_of_two (2 ^ 32 + 1) r.
Proof.
  intros pool.
  assert (normalization_enabled pool = true) as Hflag by reflexivity.
  assert (1 <= 100 <= 2 ^ 31 \/ 2 ^ 32 <= 100 <= 2 ^ 63) as Hsmall by lia.
  assert (1 <= 2 ^ 32 + 1 <= 2 ^ 31 \/ 2 ^ 32 <= 2 ^ 32 + 1 <= 2 ^ 63) as Hlarge by lia.
  destruct (normalize_segment_length_correct false (System [4096] []) pool 100)
    as [H32 _].
  destruct (normalize_segment_length_correct false (System [4096] []) pool (2 ^ 32 + 1))
    as [H64 _].
  destruct (H32 Hflag Hsmall) as (r & Hnext & _ & Hr & _ & Hreq & Hallocate).
  assert (r = 128) as -> by (rewrite Hr by lia; reflexivity).
  destruct (H64 Hflag Hlarge) as (r' & Hnext' & _ & _ & Hloop & Hreq' & _).
  split; [exact Hflag|]. split; [exact Hreq|]. split; [exact Hnext|].
  split.
  - apply Hallocate. split; [reflexivity | discriminate].
  - exists r'. split; [exact Hreq'|]. split; [apply Hloop; lia | exact Hnext'].
Defined.

(** C5, counterexamples to the statement for every size.  The size 2^31 + 1
    fits in 32 bits and its next power of two is 2^32, but the bit trick
    answers 0: its last increment wraps in [uint32_t].  The size 0 is
    answered with 0 as well, which is no power of two.  For the size
    2^63 + 1 the doubling overflows [size_t] to 0 and the loop never
    ends.  On a pool whose normalize flag is set, allocate therefore asks
    for 0 bytes when 2^31 + 1 are requested, and leaves the process, and
    returns nothing at all when 2^63 + 1 are requested. *)
Lemma normalize_segment_length_counterexamples :
  bsal_memory_pool_normalize_segment_length (2 ^ 31 + 1) = Some 0 /\
  next_power_of_two (2 ^ 31 + 1) (2 ^ 32) /\
  ~ next_power_of_two (2 ^ 31 + 1) 0 /\
  bsal_memory_pool_normalize_segment_length 0 = Some 0 /\
  ~ next_power_of_two 0 0 /\
  bsal_memory_pool_normalize_segment_length (2 ^ 63 + 1) = None /\
  (forall fuel, normalize_loop fuel 1 (2 ^ 63 + 1) = None) /\
  (let pool := bsal_memory_pool_enable_normalization (bsal_memory_pool_init 64) in
   normalization_enabled pool = true /\
   requested_size (Some pool) (2 ^ 31 + 1) = Some 0 /\
   (exists sys',
      bsal_memory_pool_allocate false (System [4096] []) (Some pool) (2 ^ 31 + 1) =
        Exited 1 sys') /\
   bsal_memory_pool_allocate false (System [4096] []) (Some pool) (2 ^ 63 + 1) =
     Diverged).
Proof.
  split; [reflexivity|]. split.
  { change (2 ^ 32) with (2 ^ (Z.log2 (2 ^ 31 + 1 - 1) + 1)).
    apply next_power_of_two_log2. lia. }
  split; [intros (_ & Hle & _); lia|].
  split; [reflexivity|]. split.
  { intros ((k & Hk & Hpow) & _). pose proof (Z.pow_pos_nonneg 2 k). lia. }
  split; [reflexivity|].
  split; [intros fuel; apply normalize_loop_never_ends; lia|].
  split; [reflexivity|]. split; [reflexivity|].
  split; [eexists; vm_compute; reflexivity | reflexivity].
Qed.

End NormalizationFacts.

(** ** Memory pool: allocate, free and free_all *)

Section PoolFacts.
Import MemoryPool.

Variable discard_empty_queues : bool.

Abbreviation allocate_private := (bsal_memory_pool_allocate_private discard_empty_queues).
Abbreviation allocate := (bsal_memory_pool_allocate discard_empty_queues).

(** C3.  The public allocate never hands NULL to its caller.  When the
    internal allocation yields NULL it prints the error and a stack
    backtrace and leaves the process with status 1; otherwise it returns
    the internal allocation's pointer, which is not NULL.  (A call can also
    hang in the normalization loop; then nothing is returned at all.) *)
Theorem allocate_never_returns_null sys self size :
  match allocate sys self size with
  | Returned pointer sys' self' =>
      pointer <> NULL /\
      exists size', requested_size self size = Some size' /\
        allocate_private sys self size' = (pointer, sys', self')
  | Exited status sys' =>
      status = 1 /\
      exists size' sys1 self1, requested_size self size = Some size' /\
        allocate_private sys self size' = (NULL, sys1, self1) /\
        sys_answers sys' = sys_answers sys1 /\
        sys_trace sys' = sys_trace sys1 ++
          [SysPrintf "Error, requested %zu bytes, returned pointer is NULL\n" size';
           SysStackBacktrace]
  | Diverged => requested_size self size = None
  end.
Proof.
  unfold bsal_memory_pool_allocate.
  destruct (requested_size self size) as [size'|]; [|reflexivity].
  destruct (allocate_private sys self size') as [[pointer sys1] self1] eqn:Hp.
  destruct (Z.eqb_spec pointer NULL) as [->|Hne].
  - split; [reflexivity|]. exists size', sys1, self1.
    split; [reflexivity|]. split; [exact Hp|]. split; [reflexivity|].
    cbn. rewrite <- app_assoc. reflexivity.
  - split; [exact Hne|]. exists size'. split; [reflexivity | exact Hp].
Qed.

Lemma reset_ready_blocks_spec done ready :
  reset_ready_blocks (length ready) (ready ++ done) =
  done ++ (bsal_memory_block_free_all <$> ready).
Proof.
  revert done. induction ready as [|block ready IH]; intros done.
  - cbn. rewrite app_nil_r. reflexivity.
  - cbn [length reset_ready_blocks app]. rewrite <- app_assoc, IH.
    rewrite <- app_assoc. reflexivity.
Qed.

Lemma reset_dried_blocks_spec dried ready :
  reset_dried_blocks dried ready = ready ++ (bsal_memory_block_free_all <$> dried).
Proof.
  revert ready. induction dried as [|block dried IH]; intros ready.
  - cbn. rewrite app_nil_r. reflexivity.
  - cbn [reset_dried_blocks]. rewrite IH, <- app_assoc. reflexivity.
Qed.

(** C4.  free_all on a tracking pool resets the bump pointer of the
    current block and of every ready and dried block, moves the dried
    blocks behind the ready ones and leaves the dried queue empty; the
    recycle bin, the allocated-blocks map and the large-block set stay as
    they were (and so do the block size and the flags). *)
Theorem free_all_resets_blocks_only (self : bsal_memory_pool) :
  tracking_enabled self = true ->
  Z.of_nat (length (ready_blocks self)) < 2 ^ 31 ->
  let self' := bsal_memory_pool_free_all self in
  current_block self' = bsal_memory_block_free_all <$> current_block self /\
  ready_blocks self' =
    bsal_memory_block_free_all <$> (ready_blocks self ++ dried_blocks self) /\
  dried_blocks self' = [] /\
  (forall block, block ∈ all_blocks self' -> offset block = 0) /\
  recycle_bin self' = recycle_bin self /\
  allocated_blocks self' = allocated_blocks self /\
  large_blocks self' = large_blocks self /\
  block_size self' = block_size self /\
  flags self' = flags self.
Proof.
  intros _ Hlen self'.
  assert (ready_blocks self' =
          bsal_memory_block_free_all <$> (ready_blocks self ++ dried_blocks self)) as Hready.
  { subst self'. unfold bsal_memory_pool_free_all, bsal_queue_size. cbn.
    rewrite to_int_small by lia. rewrite Nat2Z.id.
    rewrite <- (app_nil_r (ready_blocks self)) at 2.
    rewrite reset_ready_blocks_spec, reset_dried_blocks_spec. cbn.
    rewrite fmap_app. reflexivity. }
  repeat split; try reflexivity; try exact Hready.
  intros block Hin. unfold all_blocks in Hin. rewrite Hready in Hin.
  subst self'. cbn in Hin.
  apply elem_of_app in Hin as [Hin|Hin].
  - destruct (current_block self) as [b|]; cbn in Hin.
    + apply list_elem_of_singleton in Hin as ->. reflexivity.
    + inversion Hin.
  - apply list_elem_of_fmap in Hin as (b & -> & _). reflexivity.
Qed.

(** C6.  On a tracking pool, freeing a pointer that is neither a large
    block nor in the allocated-blocks map (a double free, a foreign
    pointer) leaves the pool as it was; unless the pool is disabled the
    system is not called either. *)
Theorem free_untracked_is_noop sys (self : bsal_memory_pool) pointer :
  tracking_enabled self = true ->
  pointer ∉ large_blocks self ->
  allocated_blocks self !! pointer = None ->
  (bsal_memory_pool_free sys (Some self) pointer).2 = Some self /\
  (disabled self = false ->
   (bsal_memory_pool_free sys (Some self) pointer).1 = sys).
Proof.
  intros Htrack Hlarge Hmap. unfold bsal_memory_pool_free.
  destruct (pointer =? NULL); [split; reflexivity|].
  destruct (disabled self); [split; [reflexivity|discriminate]|].
  rewrite bool_decide_eq_false_2 by exact Hlarge.
  rewrite Htrack, Hmap. split; reflexivity.
Qed.

(** C7.  On an enabled pool a request of at least block_size bytes is
    served by the system allocator alone: the pointer it answers is
    returned and added to the large-block set, and nothing else of the pool
    changes (no recycle bin, no block).  Freeing that pointer calls the
    system's free and takes the pointer out of the large-block set, leaving
    the rest of the pool as it is. *)
Theorem large_block_allocate_then_free sys (self : bsal_memory_pool) size :
  disabled self = false ->
  0 < size ->
  to_size_t (block_size self) <= size ->
  exists pointer sys1,
    bsal_memory_allocate sys size = (pointer, sys1) /\
    allocate_private sys (Some self) size =
      (pointer, sys1, Some (set_large_blocks ({[pointer]} ∪ large_blocks self) self)) /\
    (pointer <> NULL ->
     bsal_memory_pool_free sys1
       (Some (set_large_blocks ({[pointer]} ∪ large_blocks self) self)) pointer =
     (bsal_memory_free sys1 pointer,
      Some (set_large_blocks (large_blocks self ∖ {[pointer]}) self))).
Proof.
  intros Hen Hpos Hsize.
  destruct (bsal_memory_allocate sys size) as [pointer sys1] eqn:Hsys.
  exists pointer, sys1. split; [reflexivity|]. split.
  - unfold bsal_memory_pool_allocate_private.
    destruct (Z.eqb_spec size 0); [lia|]. rewrite Hen.
    destruct (Z.geb_spec size (to_size_t (block_size self))); [|lia].
    rewrite Hsys. reflexivity.
  - intros Hne. unfold bsal_memory_pool_free.
    destruct (Z.eqb_spec pointer NULL); [contradiction|].
    change (disabled (set_large_blocks _ self)) with (disabled self). rewrite Hen.
    rewrite bool_decide_eq_true_2 by (cbn; set_solver).
    do 2 f_equal. unfold set_large_blocks. cbn. f_equal.
    rewrite difference_union_distr_l_L, difference_diag_L. apply union_empty_l_L.
Qed.

Lemma size_key_small s : 0 < s < 2 ^ 31 -> size_key s = s.
Proof. intros H. apply to_int_small. lia. Qed.

(** C8, as the code has it.  Recycling round trip.  On a tracking pool
    that is not disabled, let [p] be a tracked pointer of size [s] below
    the block size whose recycle-bin queue is empty (or not there yet).
    Freeing [p] and then allocating [s] bytes returns exactly [p],
    recorded again in the allocated-blocks map with size [s]; the system
    is not called, and the pool is as before up to the now empty queue for
    [s].  This holds for the internal allocation, and for allocate itself
    whenever it passes [s] on as it is (the normalize flag is clear, or
    [s] is a power of two). *)
Theorem free_then_allocate_recycles sys (self : bsal_memory_pool) p s :
  tracking_enabled self = true ->
  disabled self = false ->
  p <> NULL ->
  p ∉ large_blocks self ->
  allocated_blocks self !! p = Some s ->
  0 < s < 2 ^ 31 ->
  s < to_size_t (block_size self) ->
  recycle_bin self !! s = None \/ recycle_bin self !! s = Some [] ->
  exists self1 self2,
    bsal_memory_pool_free sys (Some self) p = (sys, Some self1) /\
    recycle_bin self1 !! s = Some [p] /\
    allocated_blocks self1 !! p = None /\
    allocate_private sys (Some self1) s = (p, sys, Some self2) /\
    allocated_blocks self2 !! p = Some s /\
    self2 = set_recycle_bin
              (if discard_empty_queues then delete s (recycle_bin self)
               else <[s := []]> (recycle_bin self)) self /\
    (requested_size (Some self) s = Some s ->
     allocate sys (Some self1) s = Returned p sys (Some self2)).
Proof.
  intros Htrack Hen Hp Hlarge Hmap Hs Hbelow Hqueue.
  assert (default [] (recycle_bin self !! s) = []) as Hdef
    by (destruct Hqueue as [-> | ->]; reflexivity).
  set (self1 := set_allocated_blocks (delete p (allocated_blocks self))
                  (set_recycle_bin (<[s := [p]]> (recycle_bin self)) self)).
  exists self1. eexists. split.
  { unfold bsal_memory_pool_free.
    destruct (Z.eqb_spec p NULL); [contradiction|]. rewrite Hen.
    rewrite bool_decide_eq_false_2 by exact Hlarge.
    rewrite Htrack, Hmap, Hdef. reflexivity. }
  assert (recycle_bin self1 !! s = Some [p]) as Hbin1 by apply lookup_insert_eq.
  split; [exact Hbin1|].
  split; [apply lookup_delete_eq|].
  assert (allocate_private sys (Some self1) s =
          (p, sys, Some (set_recycle_bin
                           (if discard_empty_queues then delete s (recycle_bin self)
                            else <[s := []]> (recycle_bin self)) self))) as Halloc.
  { unfold bsal_memory_pool_allocate_private.
    destruct (Z.eqb_spec s 0); [lia|].
    change (disabled self1) with (disabled self). rewrite Hen.
    change (block_size self1) with (block_size self).
    destruct (Z.geb_spec s (to_size_t (block_size self))); [lia|].
    unfold allocate_in_pool.
    change (tracking_enabled self1) with (tracking_enabled self).
    rewrite Htrack, size_key_small by exact Hs. rewrite Hbin1.
    rewrite bool_decide_eq_true_2 by reflexivity. rewrite andb_true_r.
    do 2 f_equal. unfold set_recycle_bin, set_allocated_blocks, self1; cbn.
    assert (<[p := s]> (delete p (allocated_blocks self)) = allocated_blocks self) as ->
      by (rewrite insert_delete_eq; apply insert_id; exact Hmap).
    destruct self, discard_empty_queues; cbn; f_equal.
    - apply delete_insert_eq.
    - apply insert_insert_eq. }
  split; [exact Halloc|]. split; [exact Hmap|]. split; [reflexivity|].
  intros Hreq. unfold bsal_memory_pool_allocate.
  change (requested_size (Some self1) s) with (requested_size (Some self) s).
  rewrite Hreq, Halloc.
  destruct (Z.eqb_spec p NULL); [contradiction | reflexivity].
Qed.

End PoolFacts.

(** ** Memory pool: the tracking invariant *)

Section InvariantFacts.
Import MemoryPool.

Ltac pool_simpl :=
  cbn [recycle_bin allocated_blocks large_blocks current_block dried_blocks
       ready_blocks block_size flags set_recycle_bin set_allocated_blocks
       set_large_blocks set_current_block set_dried_blocks set_ready_blocks
       set_flags all_blocks in_use in_bin tracking_enabled disabled] in *.

Ltac pool_norm :=
  unfold tracking_enabled, disabled, set_recycle_bin, set_allocated_blocks,
    set_large_blocks, set_current_block, set_dried_blocks, set_ready_blocks,
    set_flags, all_blocks in *;
  cbn [recycle_bin allocated_blocks large_blocks current_block dried_blocks
       ready_blocks block_size flags option_list] in *.

Lemma normalization_flag_keeps_tracking fl :
  bsal_bitmap_get_bit_uint32_t
    (bsal_bitmap_set_bit_uint32_t fl FLAG_ENABLE_SEGMENT_NORMALIZATION)
    FLAG_ENABLE_TRACKING = bsal_bitmap_get_bit_uint32_t fl FLAG_ENABLE_TRACKING /\
  bsal_bitmap_get_bit_uint32_t
    (bsal_bitmap_set_bit_uint32_t fl FLAG_ENABLE_SEGMENT_NORMALIZATION)
    FLAG_DISABLED = bsal_bitmap_get_bit_uint32_t fl FLAG_DISABLED /\
  bsal_bitmap_get_bit_uint32_t
    (bsal_bitmap_clear_bit_uint32_t fl FLAG_ENABLE_SEGMENT_NORMALIZATION)
    FLAG_ENABLE_TRACKING = bsal_bitmap_get_bit_uint32_t fl FLAG_ENABLE_TRACKING /\
  bsal_bitmap_get_bit_uint32_t
    (bsal_bitmap_clear_bit_uint32_t fl FLAG_ENABLE_SEGMENT_NORMALIZATION)
    FLAG_DISABLED = bsal_bitmap_get_bit_uint32_t fl FLAG_DISABLED.
Proof.
  unfold bsal_bitmap_get_bit_uint32_t, bsal_bitmap_set_bit_uint32_t,
    bsal_bitmap_clear_bit_uint32_t.
  rewrite !Z.lor_spec, !Z.ldiff_spec.
  change (Z.testbit (Z.shiftl 1 FLAG_ENABLE_SEGMENT_NORMALIZATION) FLAG_ENABLE_TRACKING)
    with false.
  change (Z.testbit (Z.shiftl 1 FLAG_ENABLE_SEGMENT_NORMALIZATION) FLAG_DISABLED)
    with false.
  cbn [negb]. rewrite !orb_false_r, !andb_true_r. repeat split.
Qed.

(** The invariant reads neither the large-block set nor the normalization
    flag. *)
Lemma pool_invariant_transfer (self self' : bsal_memory_pool) :
  pool_invariant self ->
  recycle_bin self' = recycle_bin self ->
  allocated_blocks self' = allocated_blocks self ->
  current_block self' = current_block self ->
  dried_blocks self' = dried_blocks self ->
  ready_blocks self' = ready_blocks self ->
  block_size self' = block_size self ->
  tracking_enabled self' = tracking_enabled self ->
  disabled self' = disabled self ->
  pool_invariant self'.
Proof.
  intros [] Hbin Halloc Hcur Hdried Hready Hbs Htrack Hdis.
  constructor; unfold all_blocks, in_use, in_bin in *;
    rewrite ?Hbin, ?Halloc, ?Hcur, ?Hdried, ?Hready, ?Hbs, ?Htrack, ?Hdis;
    assumption.
Qed.

Lemma pool_invariant_init bs :
  0 < bs < 2 ^ 31 -> pool_invariant (bsal_memory_pool_init bs).
Proof.
  intros Hbs. constructor; try reflexivity; try exact Hbs.
  - constructor.
  - intros b1 b2 H. inversion H.
  - intros b H. inversion H.
  - intros b H. inversion H.
  - intros p [[v H]|(s & q & H & _)]; cbn in H; rewrite lookup_empty in H; discriminate.
  - intros p [v H]. cbn in H. rewrite lookup_empty in H. discriminate.
  - intros s q H. cbn in H. rewrite lookup_empty in H. discriminate.
  - intros s1 s2 q1 q2 p H. cbn in H. rewrite lookup_empty in H. discriminate.
Qed.

(** free of a tracked pointer: the pointer leaves the map for the back of
    the queue of its size. *)
Lemma pool_invariant_free_tracked (self : bsal_memory_pool) p size :
  pool_invariant self ->
  allocated_blocks self !! p = Some size ->
  let self' :=
    set_allocated_blocks (delete p (allocated_blocks self))
      (set_recycle_bin
         (<[size := default [] (recycle_bin self !! size) ++ [p]]> (recycle_bin self))
         self) in
  pool_invariant self' /\
  in_bin self' p /\ ~ in_use self' p /\
  (forall x, x <> p -> (in_use self' x <-> in_use self x) /\ (in_bin self' x <-> in_bin self x)).
Proof.
  intros Hinv Hp self'.
  assert (~ in_bin self p) as Hnotbin by (apply (inv_exclusive _ Hinv); eexists; exact Hp).
  assert (in_bin self' p) as Hbin'.
  { exists size, (default [] (recycle_bin self !! size) ++ [p]). split.
    - apply lookup_insert_eq.
    - apply elem_of_app. right. apply list_elem_of_singleton. reflexivity. }
  assert (~ in_use self' p) as Huse'.
  { intros [v Hv]. cbn in Hv. rewrite lookup_delete_eq in Hv. discriminate. }
  assert (forall x, in_use self' x <-> x <> p /\ in_use self x) as Huse.
  { intros x. unfold in_use, self'. pool_simpl. split.
    - intros [v Hv]. apply lookup_delete_Some in Hv as [Hne Hv]. split; [congruence | eexists; exact Hv].
    - intros [Hne [v Hv]]. exists v. apply lookup_delete_Some. split; [congruence | exact Hv]. }
  assert (forall x, in_bin self' x <-> x = p \/ in_bin self x) as Hbin.
  { intros x. split.
    - intros (s & q & Hq & Hx). unfold self' in Hq. pool_simpl.
      destruct (decide (size = s)) as [<-|Hne].
      + rewrite lookup_insert_eq in Hq. injection Hq as <-.
        apply elem_of_app in Hx as [Hx|Hx].
        * right. destruct (recycle_bin self !! size) as [q0|] eqn:Hq0; cbn in Hx.
          -- exists size, q0. split; assumption.
          -- inversion Hx.
        * left. apply list_elem_of_singleton in Hx. exact Hx.
      + rewrite lookup_insert_ne in Hq by exact Hne. right. exists s, q. split; assumption.
    - intros [->|(s & q & Hq & Hx)]; [exact Hbin'|].
      destruct (decide (size = s)) as [<-|Hne].
      + exists size, (default [] (recycle_bin self !! size) ++ [p]). split.
        * apply lookup_insert_eq.
        * rewrite Hq. cbn. apply elem_of_app. left. exact Hx.
      + exists s, q. split; [|exact Hx]. unfold self'. pool_simpl.
        rewrite lookup_insert_ne by exact Hne. exact Hq. }
  split; [|split; [exact Hbin'|split; [exact Huse'|]]].
  2:{ intros x Hx. rewrite Huse, Hbin. tauto. }
  constructor.
  - exact (inv_tracking _ Hinv).
  - exact (inv_enabled _ Hinv).
  - exact (inv_block_size _ Hinv).
  - exact (inv_blocks_nodup _ Hinv).
  - exact (inv_blocks_apart _ Hinv).
  - exact (inv_blocks_bounds _ Hinv).
  - exact (inv_ready_reset _ Hinv).
  - intros x Hx. apply (inv_tracked_in_block _ Hinv x).
    rewrite Huse, Hbin in Hx. destruct Hx as [[_ Hx]|[->|Hx]]; [left|left|right]; try assumption.
    eexists; exact Hp.
  - intros x Hx Hx'. apply Huse in Hx as [Hne Hx]. apply Hbin in Hx' as [->|Hx']; [congruence|].
    exact (inv_exclusive _ Hinv x Hx Hx').
  - intros s q Hq. unfold self' in Hq. pool_simpl.
    destruct (decide (size = s)) as [<-|Hne].
    + rewrite lookup_insert_eq in Hq. injection Hq as <-.
      apply NoDup_app. split; [|split].
      * destruct (recycle_bin self !! size) as [q0|] eqn:Hq0; cbn; [|constructor].
        exact (inv_queue_nodup _ Hinv _ _ Hq0).
      * intros x Hx Hx'. apply list_elem_of_singleton in Hx' as ->. apply Hnotbin.
        destruct (recycle_bin self !! size) as [q0|] eqn:Hq0; cbn in Hx; [|inversion Hx].
        exists size, q0. split; assumption.
      * apply NoDup_singleton.
    + rewrite lookup_insert_ne in Hq by exact Hne. exact (inv_queue_nodup _ Hinv _ _ Hq).
  - assert (forall s q x, recycle_bin self' !! s = Some q -> x ∈ q ->
              (x = p /\ s = size) \/ (x <> p /\ recycle_bin self !! s = Some q \/
                 x <> p /\ s = size /\ exists q0, recycle_bin self !! s = Some q0 /\ x ∈ q0)) as Hwhere.
    { intros s q x Hq Hx. unfold self' in Hq. pool_simpl.
      destruct (decide (size = s)) as [<-|Hne].
      - rewrite lookup_insert_eq in Hq. injection Hq as <-.
        apply elem_of_app in Hx as [Hx|Hx].
        + right. right.
          destruct (recycle_bin self !! size) as [q0|] eqn:Hq0; cbn in Hx; [|inversion Hx].
          assert (x <> p) by (intros ->; apply Hnotbin; exists size, q0; split; assumption).
          split; [assumption|]. split; [reflexivity|]. exists q0. split; [reflexivity | exact Hx].
        + left. apply list_elem_of_singleton in Hx. split; [exact Hx | reflexivity].
      - rewrite lookup_insert_ne in Hq by exact Hne. right. left. split; [|exact Hq].
        intros ->. apply Hnotbin. exists s, q. split; assumption. }
    intros s1 s2 q1 q2 x Hq1 Hq2 Hx1 Hx2.
    destruct (Hwhere _ _ _ Hq1 Hx1) as [[-> ->]|H1];
      destruct (Hwhere _ _ _ Hq2 Hx2) as [[E ->]|H2]; try reflexivity.
    + destruct H2 as [[Hne _]|[Hne _]]; congruence.
    + destruct H1 as [[Hne _]|[Hne _]]; congruence.
    + assert (exists q1', recycle_bin self !! s1 = Some q1' /\ x ∈ q1') as (q1' & Hq1' & Hx1').
      { destruct H1 as [[_ H]|(_ & _ & q0 & H & Hin)]; eauto. }
      assert (exists q2', recycle_bin self !! s2 = Some q2' /\ x ∈ q2') as (q2' & Hq2' & Hx2').
      { destruct H2 as [[_ H]|(_ & _ & q0 & H & Hin)]; eauto. }
      exact (inv_queues_apart _ Hinv _ _ _ _ _ Hq1' Hq2' Hx1' Hx2').
Qed.

(** allocate that recycles: the front pointer of the queue goes back into
    the map. *)
Lemma pool_invariant_recycle (self : bsal_memory_pool) k p rest v bin' :
  pool_invariant self ->
  recycle_bin self !! k = Some (p :: rest) ->
  bin' = <[k := rest]> (recycle_bin self) \/
    (rest = [] /\ bin' = delete k (recycle_bin self)) ->
  let self' :=
    set_recycle_bin bin'
      (set_allocated_blocks (<[p := v]> (allocated_blocks self)) self) in
  pool_invariant self' /\
  in_use self' p /\ ~ in_bin self' p /\
  (forall x, x <> p -> (in_use self' x <-> in_use self x) /\ (in_bin self' x <-> in_bin self x)).
Proof.
  intros Hinv Hk Hbin' self'.
  pose proof (inv_queue_nodup _ Hinv _ _ Hk) as Hnodup.
  apply NoDup_cons in Hnodup as [Hprest Hnodup].
  assert (forall s q, bin' !! s = Some q ->
            (s = k /\ q = rest) \/ (s <> k /\ recycle_bin self !! s = Some q)) as Hold.
  { intros s q Hq. destruct (decide (k = s)) as [<-|Hne].
    - left. split; [reflexivity|]. destruct Hbin' as [->|[_ ->]].
      + rewrite lookup_insert_eq in Hq. congruence.
      + rewrite lookup_delete_eq in Hq. discriminate.
    - right. split; [congruence|]. destruct Hbin' as [->|[_ ->]].
      + rewrite lookup_insert_ne in Hq by exact Hne. exact Hq.
      + rewrite lookup_delete_ne in Hq by exact Hne. exact Hq. }
  assert (forall s q, s <> k -> recycle_bin self !! s = Some q -> bin' !! s = Some q) as Hother.
  { intros s q Hne Hq. destruct Hbin' as [->|[_ ->]].
    - rewrite lookup_insert_ne by congruence. exact Hq.
    - rewrite lookup_delete_ne by congruence. exact Hq. }
  assert (forall x, x ∈ rest -> bin' !! k = Some rest) as Hrest.
  { intros x Hx. destruct Hbin' as [->|[-> _]]; [apply lookup_insert_eq | inversion Hx]. }
  assert (forall s q, s <> k -> recycle_bin self !! s = Some q -> p ∉ q) as Hpq.
  { intros s q Hne Hq Hin. apply Hne.
    apply (inv_queues_apart _ Hinv s k q (p :: rest) p Hq Hk Hin). apply list_elem_of_here. }
  assert (forall x, in_bin self' x <-> x <> p /\ in_bin self x) as Hbin.
  { intros x. split.
    - intros (s & q & Hq & Hx). unfold self' in Hq. pool_simpl.
      destruct (Hold _ _ Hq) as [[-> ->]|[Hne Hq0]].
      + split; [intros ->; contradiction|]. exists k, (p :: rest). split; [exact Hk|].
        apply list_elem_of_further. exact Hx.
      + split; [intros ->; exact (Hpq _ _ Hne Hq0 Hx)|]. exists s, q. split; assumption.
    - intros [Hne (s & q & Hq & Hx)]. destruct (decide (s = k)) as [->|Hsk].
      + rewrite Hk in Hq. injection Hq as <-.
        apply elem_of_cons in Hx as [->|Hx]; [contradiction|].
        exists k, rest. split; [exact (Hrest _ Hx) | exact Hx].
      + exists s, q. split; [exact (Hother _ _ Hsk Hq) | exact Hx]. }
  assert (forall x, in_use self' x <-> x = p \/ in_use self x) as Huse.
  { intros x. unfold in_use, self'. pool_simpl. destruct (decide (p = x)) as [<-|Hne].
    - rewrite lookup_insert_eq. split; [left; reflexivity | eexists; reflexivity].
    - rewrite lookup_insert_ne by exact Hne. split; [tauto | intros [->|H]; [contradiction | exact H]]. }
  assert (in_bin self p) as Hpbin.
  { exists k, (p :: rest). split; [exact Hk | apply list_elem_of_here]. }
  split; [|split; [apply Huse; left; reflexivity|split; [rewrite Hbin; tauto|]]].
  2:{ intros x Hx. rewrite Huse, Hbin. split; [|tauto]. split; [intros [->|H]; [contradiction | exact H] | tauto]. }
  constructor.
  - exact (inv_tracking _ Hinv).
  - exact (inv_enabled _ Hinv).
  - exact (inv_block_size _ Hinv).
  - exact (inv_blocks_nodup _ Hinv).
  - exact (inv_blocks_apart _ Hinv).
  - exact (inv_blocks_bounds _ Hinv).
  - exact (inv_ready_reset _ Hinv).
  - intros x Hx. apply (inv_tracked_in_block _ Hinv x).
    rewrite Huse, Hbin in Hx. destruct Hx as [[->|Hx]|[_ Hx]]; [right|left|right]; assumption.
  - intros x Hx Hx'. apply Hbin in Hx' as [Hne Hx']. apply Huse in Hx as [->|Hx]; [congruence|].
    exact (inv_exclusive _ Hinv x Hx Hx').
  - intros s q Hq. unfold self' in Hq. pool_simpl.
    destruct (Hold _ _ Hq) as [[-> ->]|[Hne Hq0]]; [exact Hnodup|].
    exact (inv_queue_nodup _ Hinv _ _ Hq0).
  - intros s1 s2 q1 q2 x Hq1 Hq2 Hx1 Hx2. unfold self' in Hq1, Hq2. pool_simpl.
    assert (forall s q, bin' !! s = Some q -> x ∈ q ->
              exists q0, recycle_bin self !! s = Some q0 /\ x ∈ q0) as Hback.
    { intros s q Hq Hx. destruct (Hold _ _ Hq) as [[-> ->]|[Hne Hq0]].
      - exists (p :: rest). split; [exact Hk | apply list_elem_of_further; exact Hx].
      - exists q. split; assumption. }
    destruct (Hback _ _ Hq1 Hx1) as (q1' & Hq1' & Hx1').
    destruct (Hback _ _ Hq2 Hx2) as (q2' & Hq2' & Hx2').
    exact (inv_queues_apart _ Hinv _ _ _ _ _ Hq1' Hq2' Hx1' Hx2').
Qed.

(** Taking bytes from the blocks: some block [b], an old one or a fresh
    one from the system, is bumped by [size] and the pointer is the old
    bump position in it. *)
Lemma allocate_from_blocks_spec sys (self : bsal_memory_pool) size pointer sys' self' :
  pool_invariant self ->
  system_fresh sys self ->
  0 < size < block_size self ->
  allocate_from_blocks sys self size = (pointer, sys', self') ->
  pointer <> NULL ->
  exists b others,
    all_blocks self' ≡ₚ bumped b size :: others /\
    (all_blocks self ≡ₚ b :: others \/
     (all_blocks self ≡ₚ others /\ region_free self (memory b) /\
      offset b = 0 /\ total_bytes b = block_size self)) /\
    offset b + size <= total_bytes b /\
    pointer = memory b + offset b /\
    (forall x, x ∈ ready_blocks self' -> x ∈ ready_blocks self) /\
    recycle_bin self' = recycle_bin self /\
    allocated_blocks self' = <[pointer := size_key size]> (allocated_blocks self) /\
    block_size self' = block_size self /\
    flags self' = flags self.
Proof.
  intros Hinv Hfresh Hsize Halloc Hnull.
  pose proof (inv_tracking _ Hinv) as Htrack.
  pose proof (inv_blocks_bounds _ Hinv) as Hbounds.
  pose proof (inv_ready_reset _ Hinv) as Hreset.
  destruct self as [bin alloc large cur dried ready bs fl].
  unfold allocate_from_blocks, bsal_memory_pool_add_block, bsal_memory_block_new,
    bsal_memory_allocate, bsal_memory_block_allocate in Halloc.
  unfold system_fresh in Hfresh. unfold NULL in *. pool_norm.
  destruct cur as [b|].
  - (* a current block *)
    assert (0 < memory b /\ total_bytes b = bs /\ 0 <= offset b <= total_bytes b) as (Hm & Ht & Ho)
      by (apply Hbounds; apply list_elem_of_here).
    destruct (Z.gtb_spec (offset b + size) (total_bytes b)) as [Hfull|Hfits].
    + (* exhausted *)
      cbn [Z.eqb] in Halloc. pool_norm.
      destruct ready as [|nb rest].
      * destruct (sys_answers sys) as [|a answers] eqn:Hans; pool_norm; cbn [memory total_bytes offset] in Halloc.
        -- destruct (Z.gtb_spec (0 + size) bs); pool_norm; cbn [Z.add] in Halloc;
             rewrite ?Htrack in Halloc; injection Halloc as <- _ _; lia.
        -- destruct (Z.gtb_spec (0 + size) bs); [lia|]. pool_norm. rewrite Htrack in Halloc.
           injection Halloc as <- <- <-. pool_norm.
           apply Forall_cons in Hfresh as [Hfree _].
           exists (MemoryBlock a bs 0), (dried ++ [b]).
           unfold bumped; cbn [memory total_bytes offset app].
           split; [cbn; rewrite app_nil_r; reflexivity|]. split.
           { right. split; [|split; [exact Hfree|split; reflexivity]].
             cbn. rewrite app_nil_r. apply Permutation_cons_append. }
           split; [lia|]. split; [reflexivity|]. split; [tauto|].
           repeat split.
      * assert (offset nb = 0) as Hnb0 by (apply Hreset; apply list_elem_of_here).
        assert (0 < memory nb /\ total_bytes nb = bs /\ 0 <= offset nb <= total_bytes nb) as (Hnm & Hnt & Hno).
        { apply Hbounds. cbn. apply list_elem_of_further. apply elem_of_app. right. apply list_elem_of_here. }
        cbn [memory total_bytes offset] in Halloc.
        destruct (Z.gtb_spec (offset nb + size) (total_bytes nb)); [lia|]. pool_norm.
        rewrite Htrack in Halloc. injection Halloc as <- <- <-. pool_norm.
        exists nb, (dried ++ [b] ++ rest).
        split; [cbn; unfold bumped; rewrite <- app_assoc; reflexivity|].
        split; [left; cbn; solve_Permutation|].
        split; [lia|]. split; [reflexivity|].
        split; [intros x Hx; apply list_elem_of_further; exact Hx|].
        repeat split.
    + (* it fits *)
      destruct (Z.eqb_spec (memory b + offset b) 0) as [E|_]; [lia|]. pool_norm.
      rewrite Htrack in Halloc. injection Halloc as <- <- <-. pool_norm.
      exists b, (dried ++ ready). split; [reflexivity|]. split; [left; reflexivity|].
      split; [lia|]. split; [reflexivity|]. split; [tauto|]. repeat split.
  - (* no current block yet *)
    destruct ready as [|nb rest].
    + destruct (sys_answers sys) as [|a answers] eqn:Hans; pool_norm; cbn [memory total_bytes offset] in Halloc.
      * destruct (Z.gtb_spec (0 + size) bs); [lia|].
        change (0 + 0 =? 0) with true in Halloc. pool_norm.
        cbn [sys_answers memory total_bytes offset] in Halloc.
        destruct (Z.gtb_spec (0 + size) bs); [lia|]. pool_norm. rewrite Htrack in Halloc.
        injection Halloc as <- _ _. lia.
      * apply Forall_cons in Hfresh as [Hfree _]. pose proof Hfree as [Ha _].
        destruct (Z.gtb_spec (0 + size) bs); [lia|].
        destruct (Z.eqb_spec (a + 0) 0) as [E|_]; [lia|]. pool_norm.
        rewrite Htrack in Halloc. injection Halloc as <- <- <-. pool_norm.
        exists (MemoryBlock a bs 0), (dried ++ []). cbn [memory total_bytes offset bumped].
        split; [reflexivity|]. split.
        { right. split; [reflexivity|]. split; [exact Hfree|split; reflexivity]. }
        split; [lia|]. split; [reflexivity|]. split; [tauto|]. repeat split.
    + assert (offset nb = 0) as Hnb0 by (apply Hreset; apply list_elem_of_here).
      assert (0 < memory nb /\ total_bytes nb = bs /\ 0 <= offset nb <= total_bytes nb) as (Hnm & Hnt & Hno).
      { apply Hbounds. cbn. apply elem_of_app. right. apply list_elem_of_here. }
      destruct (Z.gtb_spec (offset nb + size) (total_bytes nb)); [lia|].
      destruct (Z.eqb_spec (memory nb + offset nb) 0) as [E|_]; [lia|]. pool_norm.
      rewrite Htrack in Halloc. injection Halloc as <- <- <-. pool_norm.
      exists nb, (dried ++ rest). split; [reflexivity|].
      split; [left; cbn; solve_Permutation|].
      split; [lia|]. split; [reflexivity|].
      split; [intros x Hx; apply list_elem_of_further; exact Hx|]. repeat split.
Qed.

(** The invariant after bytes were taken from a block. *)
Lemma pool_invariant_bump (self self' : bsal_memory_pool) b others size pointer v :
  pool_invariant self ->
  0 < size ->
  all_blocks self' ≡ₚ bumped b size :: others ->
  (all_blocks self ≡ₚ b :: others \/
   (all_blocks self ≡ₚ others /\ region_free self (memory b) /\
    offset b = 0 /\ total_bytes b = block_size self)) ->
  offset b + size <= total_bytes b ->
  pointer = memory b + offset b ->
  (forall x, x ∈ ready_blocks self' -> x ∈ ready_blocks self) ->
  recycle_bin self' = recycle_bin self ->
  allocated_blocks self' = <[pointer := v]> (allocated_blocks self) ->
  block_size self' = block_size self ->
  flags self' = flags self ->
  pool_invariant self' /\
  in_use self' pointer /\ ~ in_bin self' pointer /\
  (forall x, x <> pointer -> (in_use self' x <-> in_use self x) /\ (in_bin self' x <-> in_bin self x)).
Proof.
  intros Hinv Hsize Hnew Hold Hfit -> Hready Hbin Halloc Hbs Hfl.
  pose proof (inv_block_size _ Hinv) as Hbspos.
  assert (forall x, x ∈ others -> x ∈ all_blocks self) as Hothers.
  { intros x Hx. destruct Hold as [Hp|[Hp _]]; rewrite Hp; [apply list_elem_of_further|]; exact Hx. }
  assert (forall x, x ∈ all_blocks self -> x = b \/ x ∈ others) as Hcases.
  { intros x Hx. destruct Hold as [Hp|[Hp _]]; rewrite Hp in Hx.
    - apply elem_of_cons in Hx. exact Hx.
    - right. exact Hx. }
  assert (0 < memory b /\ total_bytes b = block_size self /\ 0 <= offset b) as (Hbm & Hbt & Hbo).
  { destruct Hold as [Hp|(_ & [Ha _] & Ho & Ht)].
    - assert (b ∈ all_blocks self) as Hb by (rewrite Hp; apply list_elem_of_here).
      destruct (inv_blocks_bounds _ Hinv b Hb) as (? & ? & ? & ?). auto.
    - split; [exact Ha|]. split; [exact Ht | lia]. }
  assert (forall x, x ∈ others -> memory x <> memory b /\ apart b x) as Hbapart.
  { intros x Hx. pose proof (Hothers x Hx) as Hxold.
    destruct (inv_blocks_bounds _ Hinv x Hxold) as (Hxm & Hxt & Hxo).
    destruct Hold as [Hp|(_ & [_ Hfree] & _ & _)].
    - assert (memory x <> memory b) as Hne.
      { pose proof (inv_blocks_nodup _ Hinv) as Hnd. rewrite Hp in Hnd. cbn in Hnd.
        apply NoDup_cons in Hnd as [Hnotin _]. intros E. apply Hnotin. rewrite <- E.
        apply list_elem_of_fmap_2. exact Hx. }
      split; [exact Hne|]. apply (inv_blocks_apart _ Hinv); [|exact Hxold|congruence].
      rewrite Hp. apply list_elem_of_here.
    - destruct (Hfree x Hxold) as [H|H]; (split; [lia|]); unfold apart; lia. }
  assert (~ (in_use self (memory b + offset b) \/ in_bin self (memory b + offset b))) as Hfresh.
  { intros Htracked. destruct (inv_tracked_in_block _ Hinv _ Htracked) as (x & Hx & Hrange).
    destruct (inv_blocks_bounds _ Hinv x Hx) as (Hxm & Hxt & Hxo).
    destruct (Hcases x Hx) as [->|Hxo'].
    - lia.
    - destruct (Hbapart x Hxo') as [_ [H|H]]; lia. }
  assert (forall x, in_use self' x <-> x = memory b + offset b \/ in_use self x) as Huse.
  { intros x. unfold in_use. rewrite Halloc.
    destruct (decide (memory b + offset b = x)) as [<-|Hne].
    - rewrite lookup_insert_eq. split; [left; reflexivity | eexists; reflexivity].
    - rewrite lookup_insert_ne by exact Hne. split; [tauto | intros [->|H]; [contradiction | exact H]]. }
  assert (forall x, in_bin self' x <-> in_bin self x) as Hbin'.
  { intros x. unfold in_bin. rewrite Hbin. reflexivity. }
  split; [|split; [apply Huse; left; reflexivity|split; [rewrite Hbin'; tauto|]]].
  2:{ intros x Hx. rewrite Huse, Hbin'. split; [|tauto]. split; [intros [->|H]; [contradiction | exact H] | tauto]. }
  constructor.
  - unfold tracking_enabled. rewrite Hfl. exact (inv_tracking _ Hinv).
  - unfold disabled. rewrite Hfl. exact (inv_enabled _ Hinv).
  - rewrite Hbs. exact Hbspos.
  - rewrite Hnew. cbn. apply NoDup_cons. split.
    + intros Hin. apply list_elem_of_fmap in Hin as (x & E & Hx).
      destruct (Hbapart x Hx) as [Hne _]. congruence.
    + destruct Hold as [Hp|[Hp _]]; pose proof (inv_blocks_nodup _ Hinv) as Hnd;
        rewrite Hp in Hnd; [apply NoDup_cons in Hnd as [_ Hnd]|]; exact Hnd.
  - intros b1 b2 H1 H2 Hne. rewrite Hnew in H1, H2.
    apply elem_of_cons in H1 as [->|H1]; apply elem_of_cons in H2 as [->|H2].
    + contradiction.
    + destruct (Hbapart b2 H2) as [_ Ha]. exact Ha.
    + destruct (Hbapart b1 H1) as [_ [Ha|Ha]]; unfold apart; cbn; lia.
    + apply (inv_blocks_apart _ Hinv); auto.
  - intros x Hx. rewrite Hnew in Hx. rewrite Hbs.
    apply elem_of_cons in Hx as [->|Hx].
    + cbn. lia.
    + apply (inv_blocks_bounds _ Hinv). auto.
  - intros x Hx. apply (inv_ready_reset _ Hinv). auto.
  - intros x Hx. rewrite Huse, Hbin' in Hx.
    assert (x = memory b + offset b \/ (in_use self x \/ in_bin self x)) as [->|Hx'] by tauto.
    + exists (bumped b size). split; [rewrite Hnew; apply list_elem_of_here|]. cbn. lia.
    + destruct (inv_tracked_in_block _ Hinv _ Hx') as (blk & Hblk & Hrange).
      destruct (Hcases blk Hblk) as [->|Hblk'].
      * exists (bumped b size). split; [rewrite Hnew; apply list_elem_of_here|]. cbn. lia.
      * exists blk. split; [rewrite Hnew; apply list_elem_of_further; exact Hblk' | exact Hrange].
  - intros x Hx Hx'. apply Huse in Hx. apply Hbin' in Hx'. destruct Hx as [->|Hx].
    + apply Hfresh. right. exact Hx'.
    + exact (inv_exclusive _ Hinv x Hx Hx').
  - intros s q. rewrite Hbin. apply (inv_queue_nodup _ Hinv).
  - intros s1 s2 q1 q2 x. rewrite Hbin. apply (inv_queues_apart _ Hinv).
Qed.

Lemma normalize_loop_nonneg fuel return_value size r :
  0 <= return_value ->
  normalize_loop fuel return_value size = Some r -> 0 <= r.
Proof.
  revert return_value. induction fuel as [|fuel IH]; intros rv Hrv H; [discriminate|].
  cbn [normalize_loop] in H. destruct (rv <? size).
  - apply (IH _ (proj1 (Z.mod_pos_bound (rv * 2) (2 ^ 64) ltac:(lia))) H).
  - injection H as <-. exact Hrv.
Qed.

Lemma requested_size_nonneg self size size' :
  0 <= size -> requested_size self size = Some size' -> 0 <= size'.
Proof.
  intros Hs H. unfold requested_size in H.
  destruct self as [pool|]; [|injection H as <-; exact Hs].
  destruct (normalization_enabled pool); [|injection H as <-; exact Hs].
  unfold bsal_memory_pool_normalize_segment_length in H.
  destruct (size >? to_uint32 (0 - 1)).
  - apply (normalize_loop_nonneg 65 1 size size'); [lia | exact H].
  - injection H as <-. unfold normalize_uint32, to_uint32.
    apply Z.mod_pos_bound. lia.
Qed.

(** One public allocate keeps the invariant, and the pointer it hands out
    for a size below block_size is in use. *)
Lemma pool_invariant_allocate d sys (self : bsal_memory_pool) size size' pointer sys' self' :
  pool_invariant self ->
  0 <= size ->
  system_fresh sys self ->
  requested_size (Some self) size = Some size' ->
  bsal_memory_pool_allocate d sys (Some self) size = Returned pointer sys' (Some self') ->
  pool_invariant self' /\
  (size' < to_size_t (block_size self) -> in_use self' pointer /\ ~ in_bin self' pointer) /\
  (forall x, x <> pointer \/ to_size_t (block_size self) <= size' ->
     (in_use self' x <-> in_use self x) /\ (in_bin self' x <-> in_bin self x)).
Proof.
  intros Hinv Hsize Hfresh Hreq Hcall.
  pose proof (requested_size_nonneg _ _ _ Hsize Hreq) as Hsize'.
  pose proof (inv_block_size _ Hinv) as Hbs.
  assert (to_size_t (block_size self) = block_size self) as Hcast
    by (apply to_size_t_small; lia).
  unfold bsal_memory_pool_allocate in Hcall. rewrite Hreq in Hcall.
  destruct (bsal_memory_pool_allocate_private d sys (Some self) size')
    as [[ptr sys1] self1] eqn:Hpriv.
  destruct (Z.eqb_spec ptr NULL) as [|Hnull]; [discriminate|].
  injection Hcall as -> -> ->.
  unfold bsal_memory_pool_allocate_private in Hpriv.
  destruct (Z.eqb_spec size' 0) as [|Hnz]; [injection Hpriv as <- _ _; contradiction|].
  rewrite (inv_enabled _ Hinv) in Hpriv.
  destruct (Z.geb_spec size' (to_size_t (block_size self))) as [Hlarge|Hsmall].
  - (* a large block *)
    destruct (bsal_memory_allocate sys size') as [p sys2].
    injection Hpriv as <- <- <-.
    split; [eapply pool_invariant_transfer; [exact Hinv|..]; reflexivity|].
    split; [lia|]. intros x _. split; reflexivity.
  - assert (0 < size' < block_size self) as Hrange by lia.
    assert (0 < size') as Hpos by lia.
    destruct (allocate_in_pool d sys self size') as [[p sys2] pool2] eqn:Hin.
    injection Hpriv as -> -> <-.
    unfold allocate_in_pool in Hin. rewrite (inv_tracking _ Hinv) in Hin.
    destruct (recycle_bin self !! size_key size') as [[|p rest]|] eqn:Hqueue.
    + destruct (allocate_from_blocks_spec _ _ _ _ _ _ Hinv Hfresh Hrange Hin Hnull)
        as (b & others & H1 & H2 & H3 & H4 & H5 & H6 & H7 & H8 & H9).
      destruct (pool_invariant_bump _ _ _ _ _ _ _ Hinv Hpos H1 H2 H3 H4 H5 H6 H7 H8 H9)
        as (Hinv' & Huse & Hbin & Hrest).
      split; [exact Hinv'|]. split; [intros _; split; assumption|].
      intros x [Hx|Hx]; [exact (Hrest x Hx) | lia].
    + injection Hin as <- <- <-.
      destruct (pool_invariant_recycle self (size_key size') p rest (size_key size')
                  (if d && bool_decide (rest = [])
                   then delete (size_key size') (recycle_bin self)
                   else <[size_key size' := rest]> (recycle_bin self)) Hinv Hqueue)
        as (Hinv' & Huse & Hbin & Hrest).
      { destruct d; cbn [andb]; [|left; reflexivity].
        destruct (decide (rest = [])) as [->|Hne].
        - right. split; reflexivity.
        - left. rewrite bool_decide_eq_false_2 by exact Hne. reflexivity. }
      split; [exact Hinv'|]. split; [intros _; split; assumption|].
      intros x [Hx|Hx]; [exact (Hrest x Hx) | lia].
    + destruct (allocate_from_blocks_spec _ _ _ _ _ _ Hinv Hfresh Hrange Hin Hnull)
        as (b & others & H1 & H2 & H3 & H4 & H5 & H6 & H7 & H8 & H9).
      destruct (pool_invariant_bump _ _ _ _ _ _ _ Hinv Hpos H1 H2 H3 H4 H5 H6 H7 H8 H9)
        as (Hinv' & Huse & Hbin & Hrest).
      split; [exact Hinv'|]. split; [intros _; split; assumption|].
      intros x [Hx|Hx]; [exact (Hrest x Hx) | lia].
Qed.

(** One free keeps the invariant and the set of tracked pointers. *)
Lemma pool_invariant_free sys (self : bsal_memory_pool) pointer sys' self' :
  pool_invariant self ->
  bsal_memory_pool_free sys (Some self) pointer = (sys', Some self') ->
  pool_invariant self' /\
  (forall x, in_use self' x \/ in_bin self' x <-> in_use self x \/ in_bin self x).
Proof.
  intros Hinv Hcall. unfold bsal_memory_pool_free in Hcall.
  destruct (pointer =? NULL); [injection Hcall as _ <-; split; [exact Hinv | tauto]|].
  rewrite (inv_enabled _ Hinv), (inv_tracking _ Hinv) in Hcall. cbn [negb] in Hcall.
  destruct (bool_decide (pointer ∈ large_blocks self)).
  { injection Hcall as _ <-.
    split; [eapply pool_invariant_transfer; [exact Hinv|..]; reflexivity | tauto]. }
  destruct (allocated_blocks self !! pointer) as [size|] eqn:Hmap;
    [|injection Hcall as _ <-; split; [exact Hinv | tauto]].
  injection Hcall as _ <-.
  destruct (pool_invariant_free_tracked self pointer size Hinv Hmap)
    as (Hinv' & Hbin & Huse & Hrest).
  split; [exact Hinv'|]. intros x.
  destruct (decide (x = pointer)) as [->|Hne].
  - split; intros _; [left; eexists; exact Hmap | right; exact Hbin].
  - destruct (Hrest x Hne) as [-> ->]. reflexivity.
Qed.

(** Every reachable pool satisfies the invariant and still tracks every
    pointer it has handed out. *)
Lemma reachable_invariant d (self : bsal_memory_pool) handed :
  reachable d self handed ->
  pool_invariant self /\ forall p, p ∈ handed -> in_use self p \/ in_bin self p.
Proof.
  induction 1 as [bs Hbs
                 |self handed sys size size' pointer sys' self' Hreach [Hinv Hhanded] Hsize Hfresh Hreq Hcall
                 |self handed sys pointer sys' self' Hreach [Hinv Hhanded] Hcall
                 |self handed Hreach [Hinv Hhanded]
                 |self handed Hreach [Hinv Hhanded]].
  - split; [apply pool_invariant_init; exact Hbs|]. intros p Hp.
    apply not_elem_of_empty in Hp. contradiction.
  - destruct (pool_invariant_allocate _ _ _ _ _ _ _ _ Hinv (proj1 Hsize) Hfresh Hreq Hcall)
      as (Hinv' & Hnew & Hrest).
    split; [exact Hinv'|]. intros p Hp.
    destruct (decide (p = pointer)) as [->|Hne].
    + case_bool_decide as Hsmall.
      * left. apply Hnew. exact Hsmall.
      * destruct (Hrest pointer) as [-> ->]; [right; lia|]. exact (Hhanded pointer Hp).
    + assert (p ∈ handed) as Hp'.
      { case_bool_decide; [|exact Hp].
        apply elem_of_union in Hp as [Hp|Hp]; [|exact Hp].
        apply elem_of_singleton in Hp. contradiction. }
      destruct (Hrest p) as [-> ->]; [left; exact Hne|]. exact (Hhanded p Hp').
  - destruct (pool_invariant_free _ _ _ _ _ Hinv Hcall) as (Hinv' & Hsame).
    split; [exact Hinv'|]. intros p Hp. apply Hsame. exact (Hhanded p Hp).
  - split.
    + eapply pool_invariant_transfer; [exact Hinv|..]; try reflexivity;
        apply normalization_flag_keeps_tracking.
    + exact Hhanded.
  - split.
    + eapply pool_invariant_transfer; [exact Hinv|..]; try reflexivity;
        apply normalization_flag_keeps_tracking.
    + exact Hhanded.
Qed.

Lemma example_pool_run :
  run false example_start [Allocate 48; Allocate 48] = Some (example_system, example_pool) /\
  run false (example_system, example_pool) [Free 4096] =
    Some (example_system, example_pool_freed).
Proof. split; vm_compute; reflexivity. Qed.

Lemma example_pool_reachable :
  reachable false example_pool ({[8192]} ∪ ({[4096]} ∪ ∅)).
Proof.
  pose (sys0 := System [4096; 8192; 12288] []).
  pose (sys1 := System [8192; 12288] [SysAllocate 64 4096]).
  pose (pool1 := {| recycle_bin := ∅; allocated_blocks := {[4096 := 48]};
                    large_blocks := ∅;
                    current_block := Some (MemoryBlock 4096 64 48);
                    dried_blocks := []; ready_blocks := [];
                    block_size := 64; flags := 1 |}).
  assert (reachable false pool1 ({[4096]} ∪ ∅)) as H1.
  { apply (reachable_allocate false (bsal_memory_pool_init 64) ∅ sys0 48 48 4096 sys1 pool1).
    - apply reachable_init. lia.
    - lia.
    - unfold system_fresh, sys0. cbn [sys_answers].
      repeat apply Forall_cons_2; try apply Forall_nil_2;
        (split; [lia|]); intros blk Hb; inversion Hb.
    - reflexivity.
    - vm_compute. reflexivity. }
  apply (reachable_allocate false pool1 _ sys1 48 48 8192 example_system example_pool H1).
  - lia.
  - unfold system_fresh, sys1. cbn [sys_answers].
    repeat apply Forall_cons_2; try apply Forall_nil_2;
      (split; [lia|]); intros blk Hb; apply list_elem_of_singleton in Hb as ->;
      cbn; lia.
  - reflexivity.
  - vm_compute. reflexivity.
Qed.

Lemma example_pool_freed_reachable :
  reachable false example_pool_freed ({[8192]} ∪ ({[4096]} ∪ ∅)).
Proof.
  apply (reachable_free false example_pool _ example_system 4096 example_system).
  - exact example_pool_reachable.
  - vm_compute. reflexivity.
Qed.

(** C2, as the code has it.  In every pool reached from init by allocate
    and free (and the normalization switches), with a system that answers
    block requests with fresh memory, every pointer that allocate has
    handed out for a size that is below block_size after normalization
    (the requested size when the normalize flag is clear, its next power
    of two when the flag is set: this is how [reachable] collects the
    pointers) is in exactly one of the allocated-blocks map and the
    recycle bin, and so is the pointer that the next such allocate hands
    out, together with the earlier ones.  On such a pool, an allocate that
    finds a recycled pointer moves it from the bin into the map, and free
    moves a tracked pointer from the map into the bin. *)
Theorem handed_out_pointer_in_exactly_one_table d (self : bsal_memory_pool) handed :
  reachable d self handed ->
  (forall p, p ∈ handed -> exactly_one (in_use self p) (in_bin self p)) /\
  (forall sys size p rest,
     0 < size < block_size self ->
     recycle_bin self !! size_key size = Some (p :: rest) ->
     exists self',
       bsal_memory_pool_allocate_private d sys (Some self) size = (p, sys, Some self') /\
       in_bin self p /\ ~ in_use self p /\
       in_use self' p /\ ~ in_bin self' p) /\
  (forall sys p,
     p <> NULL -> p ∉ large_blocks self -> in_use self p ->
     exists self',
       bsal_memory_pool_free sys (Some self) p = (sys, Some self') /\
       ~ in_bin self p /\
       in_bin self' p /\ ~ in_use self' p) /\
  (forall sys size size' pointer sys' self',
     0 <= size < 2 ^ 64 ->
     system_fresh sys self ->
     requested_size (Some self) size = Some size' ->
     size' < to_size_t (block_size self) ->
     bsal_memory_pool_allocate d sys (Some self) size =
       Returned pointer sys' (Some self') ->
     exactly_one (in_use self' pointer) (in_bin self' pointer) /\
     forall p, p ∈ handed -> exactly_one (in_use self' p) (in_bin self' p)).
Proof.
  intros Hreach. destruct (reachable_invariant _ _ _ Hreach) as [Hinv Hhanded].
  pose proof (inv_block_size _ Hinv) as Hbs.
  split; [|split; [|split]].
  - intros p Hp. destruct (Hhanded p Hp) as [Hu|Hb].
    + left. split; [exact Hu | exact (inv_exclusive _ Hinv p Hu)].
    + right. split; [|exact Hb]. intros Hu. exact (inv_exclusive _ Hinv p Hu Hb).
  - intros sys size p rest Hsize Hqueue.
    assert (in_bin self p) as Hpbin.
    { exists (size_key size), (p :: rest). split; [exact Hqueue | apply list_elem_of_here]. }
    eexists. split.
    + unfold bsal_memory_pool_allocate_private.
      destruct (Z.eqb_spec size 0); [lia|]. rewrite (inv_enabled _ Hinv).
      rewrite to_size_t_small by lia.
      destruct (Z.geb_spec size (block_size self)); [lia|].
      unfold allocate_in_pool. rewrite (inv_tracking _ Hinv), Hqueue. reflexivity.
    + destruct (pool_invariant_recycle self (size_key size) p rest (size_key size)
                  (if d && bool_decide (rest = [])
                   then delete (size_key size) (recycle_bin self)
                   else <[size_key size := rest]> (recycle_bin self)) Hinv Hqueue)
        as (_ & Huse & Hbin & _).
      { destruct d; cbn [andb]; [|left; reflexivity].
        destruct (decide (rest = [])) as [->|Hne].
        - right. split; reflexivity.
        - left. rewrite bool_decide_eq_false_2 by exact Hne. reflexivity. }
      split; [exact Hpbin|]. split; [|split; assumption].
      intros Hu. exact (inv_exclusive _ Hinv p Hu Hpbin).
  - intros sys p Hnull Hlarge [size Hmap].
    destruct (pool_invariant_free_tracked self p size Hinv Hmap) as (_ & Hbin & Huse & _).
    eexists. split.
    + unfold bsal_memory_pool_free.
      destruct (Z.eqb_spec p NULL); [contradiction|].
      rewrite (inv_enabled _ Hinv), (inv_tracking _ Hinv).
      rewrite bool_decide_eq_false_2 by exact Hlarge. rewrite Hmap. reflexivity.
    + split; [|split; assumption].
      apply (inv_exclusive _ Hinv). eexists. exact Hmap.
  - intros sys size size' pointer sys' self' Hsize Hfresh Hreq Hbelow Hcall.
    pose proof (reachable_allocate d self handed sys size size' pointer sys' self'
                  Hreach Hsize Hfresh Hreq Hcall) as Hreach'.
    rewrite bool_decide_eq_true_2 in Hreach' by exact Hbelow.
    destruct (reachable_invariant _ _ _ Hreach') as [Hinv' Hhanded'].
    assert (forall p, p ∈ {[pointer]} ∪ handed ->
                      exactly_one (in_use self' p) (in_bin self' p)) as Hone.
    { intros p Hp. destruct (Hhanded' p Hp) as [Hu|Hb].
      - left. split; [exact Hu | exact (inv_exclusive _ Hinv' p Hu)].
      - right. split; [|exact Hb]. intros Hu. exact (inv_exclusive _ Hinv' p Hu Hb). }
    split.
    + apply Hone. apply elem_of_union_l, elem_of_singleton. reflexivity.
    + intros p Hp. apply Hone. apply elem_of_union_r. exact Hp.
Qed.

End InvariantFacts.

Section InvariantExamples.
Import MemoryPool.

Lemma handed_out_pointer_in_exactly_one_table_witness :
  reachable false example_pool_freed ({[8192]} ∪ ({[4096]} ∪ ∅)) /\
  exactly_one (in_use example_pool_freed 4096) (in_bin example_pool_freed 4096) /\
  exactly_one (in_use example_pool_freed 8192) (in_bin example_pool_freed 8192).
Proof.
  split; [exact example_pool_freed_reachable|].
  destruct (handed_out_pointer_in_exactly_one_table false example_pool_freed _
              example_pool_freed_reachable) as [H _].
  split; apply H.
  - apply elem_of_union_r, elem_of_union_l, elem_of_singleton. reflexivity.
  - apply elem_of_union_l, elem_of_singleton. reflexivity.
Defined.

(** C2, counterexamples to the statement for every tracking pool and
    every size below block_size.  After free_all the bump pointer
    restarts below pointers that the recycle bin still holds.  From
    init(64): allocate(16) hands out 4096, free(4096) puts it in the bin,
    free_all resets the block; the pool has tracking enabled and 4096 is
    in exactly one table.  The next allocate(32) hands out 4096 again from
    the block, so that 4096 is now in the map and in the bin.  And with
    the normalize flag set, a request of 48 bytes, below the block size
    64, is rounded up to 64 and served as a large block: the pointer
    handed out is in the large-block set and in neither table. *)
Lemma free_all_then_allocate_breaks_exactly_one :
  run false example_start [Allocate 16; Free 4096; FreeAll] =
    Some (System [8192; 12288] [SysAllocate 64 4096], example_pool_reset) /\
  tracking_enabled example_pool_reset = true /\
  exactly_one (in_use example_pool_reset 4096) (in_bin example_pool_reset 4096) /\
  bsal_memory_pool_allocate false (System [8192; 12288] [SysAllocate 64 4096])
      (Some example_pool_reset) 32 =
    Returned 4096 (System [8192; 12288] [SysAllocate 64 4096]) (Some example_pool_reused) /\
  in_use example_pool_reused 4096 /\ in_bin example_pool_reused 4096 /\
  ~ exactly_one (in_use example_pool_reused 4096) (in_bin example_pool_reused 4096) /\
  (let pool := bsal_memory_pool_enable_normalization (bsal_memory_pool_init 64) in
   let pool' := set_large_blocks {[4096]} pool in
   tracking_enabled pool = true /\ 48 < block_size pool /\
   bsal_memory_pool_allocate false (System [4096] []) (Some pool) 48 =
     Returned 4096 (System [] [SysAllocate 64 4096]) (Some pool') /\
   (4096 ∈ large_blocks pool') /\
   ~ in_use pool' 4096 /\ ~ in_bin pool' 4096 /\
   ~ exactly_one (in_use pool' 4096) (in_bin pool' 4096)).
Proof.
  assert (in_bin example_pool_reset 4096) as Hbin.
  { exists 16, [4096]. split; [reflexivity | apply list_elem_of_here]. }
  assert (in_use example_pool_reused 4096) as Hu by (exists 32; reflexivity).
  assert (in_bin example_pool_reused 4096) as Hb.
  { exists 16, [4096]. split; [reflexivity | apply list_elem_of_here]. }
  split; [vm_compute; reflexivity|]. split; [reflexivity|].
  split; [right; split; [intros [v Hv]; discriminate | exact Hbin]|].
  split; [vm_compute; reflexivity|].
  split; [exact Hu|]. split; [exact Hb|].
  split; [intros [[_ Hn]|[Hn _]]; contradiction|].
  intros pool pool'.
  assert (~ in_use pool' 4096) as Hnu by (intros [v Hv]; discriminate).
  assert (~ in_bin pool' 4096) as Hnb by (intros (k & q & Hq & _); discriminate).
  split; [reflexivity|]. split; [reflexivity|]. split; [reflexivity|].
  split; [change (4096 ∈ ({[4096]} : gset Z)); apply elem_of_singleton; reflexivity|].
  split; [exact Hnu|]. split; [exact Hnb|].
  intros [[H _]|[_ H]]; contradiction.
Qed.

End InvariantExamples.

(** ** Memory pool: the properties on the example pools *)

Section PoolExamples.
Import MemoryPool.

Lemma free_all_resets_blocks_only_witness :
  tracking_enabled example_pool = true /\
  Z.of_nat (length (ready_blocks example_pool)) < 2 ^ 31 /\
  current_block (bsal_memory_pool_free_all example_pool) = Some (MemoryBlock 8192 64 0) /\
  ready_blocks (bsal_memory_pool_free_all example_pool) = [MemoryBlock 4096 64 0] /\
  dried_blocks (bsal_memory_pool_free_all example_pool) = [] /\
  allocated_blocks (bsal_memory_pool_free_all example_pool) = {[4096 := 48; 8192 := 48]}.
Proof.
  assert (tracking_enabled example_pool = true) as Htrack by reflexivity.
  assert (Z.of_nat (length (ready_blocks example_pool)) < 2 ^ 31) as Hlen by (cbn; lia).
  destruct (free_all_resets_blocks_only example_pool Htrack Hlen)
    as (Hcur & Hready & Hdried & _ & _ & Halloc & _).
  split; [exact Htrack|]. split; [exact Hlen|].
  split; [exact Hcur|]. split; [exact Hready|]. split; [exact Hdried | exact Halloc].
Defined.

Lemma free_untracked_is_noop_witness :
  tracking_enabled example_pool_freed = true /\
  (4096 ∉ large_blocks example_pool_freed) /\
  allocated_blocks example_pool_freed !! 4096 = None /\
  (bsal_memory_pool_free example_system (Some example_pool_freed) 4096).2 =
    Some example_pool_freed /\
  (bsal_memory_pool_free example_system (Some example_pool_freed) 4096).1 =
    example_system.
Proof.
  assert (tracking_enabled example_pool_freed = true) as Htrack by reflexivity.
  assert (4096 ∉ large_blocks example_pool_freed) as Hlarge by apply not_elem_of_empty.
  assert (allocated_blocks example_pool_freed !! 4096 = None) as Hmap by reflexivity.
  destruct (free_untracked_is_noop example_system example_pool_freed 4096 Htrack Hlarge Hmap)
    as [Hpool Hsys].
  split; [exact Htrack|]. split; [exact Hlarge|]. split; [exact Hmap|].
  split; [exact Hpool | apply Hsys; reflexivity].
Defined.

Lemma large_block_allocate_then_free_witness :
  disabled example_pool = false /\ (0 < 100) /\
  (to_size_t (block_size example_pool) <= 100) /\
  exists pointer sys1,
    bsal_memory_allocate example_system 100 = (pointer, sys1) /\
    bsal_memory_pool_allocate_private false example_system (Some example_pool) 100 =
      (pointer, sys1,
       Some (set_large_blocks ({[pointer]} ∪ large_blocks example_pool) example_pool)) /\
    (pointer <> NULL ->
     bsal_memory_pool_free sys1
       (Some (set_large_blocks ({[pointer]} ∪ large_blocks example_pool) example_pool))
       pointer =
     (bsal_memory_free sys1 pointer,
      Some (set_large_blocks (large_blocks example_pool ∖ {[pointer]}) example_pool))).
Proof.
  split; [reflexivity|]. split; [lia|]. split; [vm_compute; discriminate|].
  apply (large_block_allocate_then_free false example_system example_pool 100).
  - reflexivity.
  - lia.
  - vm_compute. discriminate.
Defined.

Lemma free_then_allocate_recycles_witness :
  tracking_enabled example_pool = true /\ disabled example_pool = false /\
  4096 <> NULL /\ (4096 ∉ large_blocks example_pool) /\
  allocated_blocks example_pool !! 4096 = Some 48 /\
  (0 < 48 < 2 ^ 31) /\ (48 < to_size_t (block_size example_pool)) /\
  recycle_bin example_pool !! 48 = None /\
  exists self1 self2,
    bsal_memory_pool_free example_system (Some example_pool) 4096 =
      (example_system, Some self1) /\
    recycle_bin self1 !! 48 = Some [4096] /\
    allocated_blocks self1 !! 4096 = None /\
    bsal_memory_pool_allocate_private false example_system (Some self1) 48 =
      (4096, example_system, Some self2) /\
    allocated_blocks self2 !! 4096 = Some 48 /\
    self2 = set_recycle_bin (<[48 := []]> (recycle_bin example_pool)) example_pool /\
    (requested_size (Some example_pool) 48 = Some 48 ->
     bsal_memory_pool_allocate false example_system (Some self1) 48 =
       Returned 4096 example_system (Some self2)).
Proof.
  assert (4096 <> NULL) as Hnull by discriminate.
  assert (4096 ∉ large_blocks example_pool) as Hlarge by apply not_elem_of_empty.
  assert (0 < 48 < 2 ^ 31) as Hs by lia.
  assert (48 < to_size_t (block_size example_pool)) as Hbelow by reflexivity.
  split; [reflexivity|]. split; [reflexivity|]. split; [exact Hnull|].
  split; [exact Hlarge|]. split; [reflexivity|]. split; [exact Hs|].
  split; [exact Hbelow|]. split; [reflexivity|].
  apply (free_then_allocate_recycles false example_system example_pool 4096 48);
    try reflexivity; try assumption.
  left. reflexivity.
Defined.

(** C8, counterexample to the statement for every tracking pool.  The
    example pool, once disabled, still has tracking enabled and still
    tracks 4096 with size 48, with no queue for 48 in the recycle bin.  A
    disabled pool passes free and allocate on to the system: freeing 4096
    puts nothing in the bin, and allocating 48 bytes returns what the
    system answers, 12288, and not 4096.  And on the example pool with
    the normalize flag set instead, free puts 4096 in the bin for 48, but
    allocate rounds the 48 bytes up to 64, the block size, and returns a
    large block, 12288. *)
Lemma free_then_allocate_misses_on_disabled_pool :
  (let pool := bsal_memory_pool_disable example_pool in
   tracking_enabled pool = true /\ disabled pool = true /\
   allocated_blocks pool !! 4096 = Some 48 /\
   48 < to_size_t (block_size pool) /\
   recycle_bin pool !! 48 = None /\
   bsal_memory_pool_free example_system (Some pool) 4096 =
     (bsal_memory_free example_system 4096, Some pool) /\
   bsal_memory_pool_allocate false (bsal_memory_free example_system 4096) (Some pool) 48 =
     Returned 12288
       (bsal_memory_allocate (bsal_memory_free example_system 4096) 48).2 (Some pool) /\
   12288 <> 4096) /\
  (let pool := bsal_memory_pool_enable_normalization example_pool in
   let freed := bsal_memory_pool_enable_normalization example_pool_freed in
   tracking_enabled pool = true /\ disabled pool = false /\
   allocated_blocks pool !! 4096 = Some 48 /\
   48 < to_size_t (block_size pool) /\
   recycle_bin pool !! 48 = None /\
   bsal_memory_pool_free example_system (Some pool) 4096 = (example_system, Some freed) /\
   recycle_bin freed !! 48 = Some [4096] /\
   (exists sys' pool',
      bsal_memory_pool_allocate false example_system (Some freed) 48 =
        Returned 12288 sys' (Some pool') /\
      recycle_bin pool' !! 48 = Some [4096]) /\
   12288 <> 4096).
Proof.
  split.
  - intros pool. repeat (split; [reflexivity|]). discriminate.
  - intros pool freed. repeat (split; [reflexivity|]).
    split; [|discriminate]. eexists _, _. split; reflexivity.
Qed.

End PoolExamples.

(** ** The red-black tree: delete and get *)

Section RedBlackTreeFacts.
Import RedBlackTree.

(** The search of get reads the root and the comparison fields only, so it
    cannot tell a tree from the same tree after delete. *)
Lemma compare_after_delete magnitude m (self self' : bsal_red_black_tree) key1 key2 :
  key_size self' = key_size self -> compare self' = compare self ->
  bsal_red_black_tree_compare magnitude m self' key1 key2 =
  bsal_red_black_tree_compare magnitude m self key1 key2.
Proof.
  intros Hk Hc. unfold bsal_red_black_tree_compare. rewrite Hk, Hc. reflexivity.
Qed.

Lemma get_loop_after_delete magnitude fuel m (self self' : bsal_red_black_tree) key node value :
  key_size self' = key_size self -> compare self' = compare self ->
  get_loop magnitude fuel m self' key node value = get_loop magnitude fuel m self key node value.
Proof.
  intros Hk Hc. revert node value. induction fuel as [|fuel IH]; intros node value.
  - reflexivity.
  - cbn [get_loop]. destruct (negb (node =? NULL) && (value =? NULL)); [|reflexivity].
    destruct (nodes m !! node) as [n|]; [|reflexivity]. cbn.
    rewrite (compare_after_delete magnitude m self self' key (RedBlackTree.key n) Hk Hc).
    destruct (bsal_red_black_tree_compare magnitude m self key (RedBlackTree.key n)) as [result|];
      [|reflexivity].
    cbn. rewrite !IH. reflexivity.
Qed.

(** What delete does while its assertion holds (the part of C10 that the
    code keeps).  delete on a tree of size 0 leaves the tree as
    it is.  On a tree of positive size whose lowest-key cache points to a
    node with a readable key (the cache is not NULL: the code asserts it),
    delete takes exactly one off the size and may move the lowest-key cache
    to the parent of the cached node; it writes nothing else, in
    particular no node and not the root, so that a get of the deleted key
    returns after the delete what it returned before. *)
Theorem delete_only_updates_size_and_cache magnitude m (self : bsal_red_black_tree) key :
  (size self = 0 -> bsal_red_black_tree_delete magnitude m self key = Some self) /\
  (forall lowest result,
     0 < size self < 2 ^ 31 ->
     cached_lowest_node self <> NULL ->
     nodes m !! cached_lowest_node self = Some lowest ->
     bsal_red_black_tree_compare magnitude m self key (RedBlackTree.key lowest) = Some result ->
     exists self',
       bsal_red_black_tree_delete magnitude m self key = Some self' /\
       size self' = size self - 1 /\
       cached_lowest_node self' =
         (if result =? 0 then parent lowest else cached_lowest_node self) /\
       root self' = root self /\
       cached_last_node self' = cached_last_node self /\
       key_size self' = key_size self /\ value_size self' = value_size self /\
       compare self' = compare self /\
       forall fuel,
         fst <$> bsal_red_black_tree_get magnitude fuel m self' key =
         fst <$> bsal_red_black_tree_get magnitude fuel m self key).
Proof.
  split.
  - intros Hsize. unfold bsal_red_black_tree_delete. rewrite Hsize. reflexivity.
  - intros lowest result Hsize Hnull Hlowest Hcompare.
    unfold bsal_red_black_tree_delete.
    destruct (Z.eqb_spec (size self) 0); [lia|].
    destruct (Z.eqb_spec (cached_lowest_node self) NULL); [contradiction|].
    rewrite Hlowest. cbn. rewrite Hcompare. cbn.
    eexists. split; [reflexivity|].
    assert (forall t, size t = size self -> to_int (size t - 1) = size self - 1) as Hdec.
    { intros t ->. apply to_int_small. lia. }
    destruct (result =? 0); cbn; (split; [apply Hdec; reflexivity|]);
      repeat (split; [reflexivity|]); intros fuel;
      unfold bsal_red_black_tree_get; cbn;
      (destruct (cached_last_node self =? NULL);
       [|destruct (nodes m !! cached_last_node self) as [last|]; [|reflexivity];
         cbn; destruct (RedBlackTree.key last =? key); [reflexivity|]]);
      cbn;
      match goal with
      | |- context [get_loop magnitude fuel m ?t key (root self) NULL] =>
          rewrite (get_loop_after_delete magnitude fuel m self t key (root self) NULL
                     eq_refl eq_refl)
      end;
      destruct (get_loop magnitude fuel m self key (root self) NULL) as [[node value]|];
      reflexivity.
Qed.

Lemma delete_only_updates_size_and_cache_witness :
  size (bsal_red_black_tree_init 4 4) = 0 /\
  bsal_red_black_tree_delete example_magnitude example_memory (bsal_red_black_tree_init 4 4) 500 =
    Some (bsal_red_black_tree_init 4 4) /\
  (0 < size example_tree < 2 ^ 31) /\
  cached_lowest_node example_tree <> NULL /\
  bsal_red_black_tree_delete example_magnitude example_memory example_tree 500 = Some example_tree_deleted /\
  bsal_red_black_tree_get example_magnitude 2 example_memory example_tree 500 =
    Some (1200, set_cached_last_node 1000 example_tree) /\
  fst <$> bsal_red_black_tree_get example_magnitude 2 example_memory example_tree_deleted 500 = Some 1200.
Proof.
  pose proof (delete_only_updates_size_and_cache example_magnitude example_memory
                (bsal_red_black_tree_init 4 4) 500) as [Hempty _].
  pose proof (delete_only_updates_size_and_cache example_magnitude example_memory
                example_tree 500) as [_ Hdelete].
  assert (0 < size example_tree < 2 ^ 31) as Hsize by (cbn; lia).
  assert (cached_lowest_node example_tree <> NULL) as Hnull by discriminate.
  destruct (Hdelete (Node NULL NULL 2000 BSAL_COLOR_BLACK 1100 1200) 0 Hsize Hnull
              eq_refl eq_refl) as (self' & Hcall & _ & _ & _ & _ & _ & _ & _ & Hget).
  assert (Some self' = Some example_tree_deleted) as Hsame
    by (rewrite <- Hcall; reflexivity).
  injection Hsame as ->.
  split; [reflexivity|]. split; [apply Hempty; reflexivity|].
  split; [exact Hsize|]. split; [exact Hnull|]. split; [exact Hcall|].
  split; [reflexivity|]. rewrite Hget. reflexivity.
Defined.

(** C10, the defect: delete breaks its own assertion.  On the tree that
    holds the key 5 twice, one delete of the key leaves a tree of size 1
    that still holds both nodes, and get still finds the key; but the
    delete has moved the lowest-key cache to the parent of the root, which
    is NULL (its comment says the new cache "might be NULL").  The next
    delete, on this tree of size 1, stops at
    BSAL_DEBUGGER_ASSERT(cached_lowest_node != NULL) and does not
    decrement the size, whereas get_lowest_key on the same tree accepts
    the NULL cache and walks down from the root. *)
Lemma delete_with_null_lowest_cache_fails :
  bsal_red_black_tree_delete example_magnitude example_memory example_tree 500 =
    Some example_tree_deleted /\
  size example_tree_deleted = 1 /\
  cached_lowest_node example_tree_deleted = NULL /\
  fst <$> bsal_red_black_tree_get example_magnitude 2 example_memory example_tree_deleted 500 =
    Some 1200 /\
  bsal_red_black_tree_delete example_magnitude example_memory example_tree_deleted 500 =
    None /\
  bsal_red_black_tree_get_lowest_key 2 example_memory example_tree_deleted =
    Some (1100, example_tree_deleted).
Proof. repeat split. Qed.

End RedBlackTreeFacts.

(** * Further properties *)

(** ** The sequence partitioner: stores, counts and positions *)

Section PartitionerMoreFacts.
Import Partitioner.

(** X1.  get_store follows the pattern of its comment: with a positive
    block size and store count, the entries of block [x] (the indices from
    x * block_size to (x + 1) * block_size - 1) go to store
    x mod store_count, a valid store index. *)
Theorem get_store_block_pattern block_size store_count index x :
  0 < block_size < 2 ^ 31 ->
  0 < store_count < 2 ^ 31 ->
  0 <= x ->
  x * block_size <= index <= (x + 1) * block_size - 1 ->
  index < 2 ^ 64 ->
  bsal_sequence_partitioner_get_store block_size store_count index =
    Some (x mod store_count) /\
  0 <= x mod store_count < store_count.
Proof.
  intros Hb Hc Hx Hi Hmax.
  pose proof (Z.mod_pos_bound x store_count ltac:(lia)) as Hmod.
  split; [|exact Hmod].
  unfold bsal_sequence_partitioner_get_store.
  rewrite !to_uint64_small by lia.
  destruct (Z.eqb_spec store_count 0); [lia|].
  destruct (Z.eqb_spec block_size 0); [lia|].
  assert (index / block_size = x) as -> by (symmetry; apply (Z.div_unique index block_size x (index - x * block_size)); lia).
  rewrite to_int_small by lia. reflexivity.
Qed.

Lemma get_store_block_pattern_witness :
  bsal_sequence_partitioner_get_store 4096 3 20000 = Some 1.
Proof.
  destruct (get_store_block_pattern 4096 3 20000 4) as [H _]; try lia.
  exact H.
Defined.

(** X2.  get_store at its edges: without stores it answers store 0, and
    with stores but a zero block size it divides by zero. *)
Theorem get_store_edges block_size store_count index :
  bsal_sequence_partitioner_get_store block_size 0 index = Some 0 /\
  (store_count <> 0 ->
   bsal_sequence_partitioner_get_store 0 store_count index = None).
Proof.
  split; [reflexivity|]. intros Hc. unfold bsal_sequence_partitioner_get_store.
  destruct (Z.eqb_spec store_count 0); [contradiction | reflexivity].
Qed.

(** The second loop of verify appends to what is there. *)
Lemma verify_stores_app n stores currents entries remaining :
  verify_stores n stores currents entries remaining =
  (stores ++ (verify_stores n [] [] entries remaining).1,
   currents ++ (verify_stores n [] [] entries remaining).2).
Proof.
  revert stores currents entries remaining.
  induction n as [|n IH]; intros stores currents entries remaining.
  - cbn. rewrite !app_nil_r. reflexivity.
  - cbn [verify_stores]. cbv zeta. rewrite IH.
    rewrite (IH ([] ++ [entries])). cbn [fst snd app].
    rewrite <- !app_assoc. reflexivity.
Qed.

Lemma verify_stores_zero n :
  (verify_stores n [] [] 0 0).1 = replicate n 0.
Proof.
  induction n as [|n IH]; [reflexivity|].
  cbn [verify_stores]. cbv zeta. rewrite verify_stores_app. cbn [fst app].
  change (to_uint64 (0 - 0)) with 0. change (0 <? 0) with false. cbv iota.
  rewrite IH. reflexivity.
Qed.

(** The counts the loop pushes when it starts with [entries] at most
    [remaining]: full counts as long as they fit, then what is left, then
    zeros. *)
Lemma verify_stores_counts n entries remaining :
  0 < entries <= remaining -> remaining < 2 ^ 64 ->
  (verify_stores n [] [] entries remaining).1 =
  take n (replicate (Z.to_nat (remaining / entries)) entries ++
          remaining mod entries :: replicate n 0).
Proof.
  revert entries remaining. induction n as [|n IH]; intros entries remaining He Hr.
  - reflexivity.
  - cbn [verify_stores]. cbv zeta. rewrite verify_stores_app. cbn [fst app].
    rewrite to_uint64_small by lia.
    assert (1 <= remaining / entries) as Hq by (apply Z.div_le_lower_bound; lia).
    assert (remaining / entries = (remaining - entries) / entries + 1) as Hdiv.
    { replace remaining with ((remaining - entries) + 1 * entries) at 1 by lia.
      rewrite Z.div_add by lia. reflexivity. }
    assert (remaining mod entries = (remaining - entries) mod entries) as Hmod.
    { replace remaining with ((remaining - entries) + 1 * entries) at 1 by lia.
      rewrite Z.mod_add by lia. reflexivity. }
    assert (0 <= (remaining - entries) / entries) as Hq0 by (apply Z.div_pos; lia).
    rewrite Hdiv.
    replace (Z.to_nat ((remaining - entries) / entries + 1))
      with (S (Z.to_nat ((remaining - entries) / entries))) by lia.
    change (take (S n) (replicate (S ?k) entries ++ ?l))
      with (entries :: take n (replicate k entries ++ l)).
    f_equal.
    destruct (Z.ltb_spec (remaining - entries) entries) as [Hlt|Hge].
    + rewrite Z.div_small by lia. change (Z.to_nat 0) with 0%nat.
      rewrite Hmod, Z.mod_small by lia.
      change (replicate 0 entries ++ ?l) with l.
      destruct (Z.eq_dec (remaining - entries) 0) as [E|E].
      * rewrite E, verify_stores_zero.
        change (0 :: replicate (S n) 0) with (replicate (S (S n)) 0).
        rewrite take_replicate. f_equal. lia.
      * rewrite IH by lia. rewrite Z.div_same, Z.mod_same by lia.
        change (Z.to_nat 1) with 1%nat.
        change (replicate 1 ?a ++ ?l) with (a :: l).
        destruct n as [|n]; [reflexivity|].
        change (take (S n) (?a :: ?l)) with (a :: take n l). f_equal.
    + rewrite IH by lia. rewrite <- Hmod.
      set (full := replicate (Z.to_nat ((remaining - entries) / entries)) entries).
      destruct (decide (n <= length full)%nat) as [Hn|Hn].
      * rewrite !take_app_le by exact Hn. reflexivity.
      * rewrite !take_app_ge by lia.
        f_equal. destruct (n - length full)%nat as [|k] eqn:Hk; [lia|].
        change (take (S k) (?a :: ?l)) with (a :: take k l). f_equal.
        rewrite !take_replicate. f_equal. lia.
Qed.

Lemma sum_entries_app l1 l2 :
  sum_entries (l1 ++ l2) = sum_entries l1 + sum_entries l2.
Proof.
  unfold sum_entries. induction l1 as [|x l1 IH]; cbn [app fold_right]; [lia|].
  rewrite IH. lia.
Qed.

Lemma sum_entries_replicate n x : sum_entries (replicate n x) = Z.of_nat n * x.
Proof.
  unfold sum_entries. induction n as [|n IH]; cbn [replicate fold_right]; [lia|].
  rewrite IH. lia.
Qed.

(** The first loop of verify: one pushed position per stream, and the
    prefix sums as global positions, when the total fits in 64 bits. *)
Lemma verify_streams_spec stack streams positions globals start :
  Forall (fun entries => 0 <= entries) streams ->
  0 <= start ->
  start + sum_entries streams < 2 ^ 64 ->
  verify_streams stack streams positions globals start =
  (positions ++
     ((fun k => pushed_position 0 (stack k)) <$> seq (length positions) (length streams)),
   globals ++ prefix_sums start streams,
   start + sum_entries streams).
Proof.
  revert positions globals start.
  induction streams as [|entries streams IH]; intros positions globals start Hall Hs Hsum.
  - cbn. rewrite !app_nil_r. f_equal. unfold sum_entries. cbn. lia.
  - apply Forall_cons in Hall as [He Hall].
    assert (0 <= sum_entries streams) as Hnn.
    { clear -Hall. unfold sum_entries. induction Hall; cbn [fold_right]; lia. }
    unfold sum_entries in Hsum, Hnn |- *. cbn [fold_right] in Hsum |- *.
    cbn [verify_streams]. rewrite to_uint64_small by lia.
    rewrite IH by (try assumption; unfold sum_entries; lia).
    cbn [length seq fmap list_fmap prefix_sums]. rewrite length_app.
    cbn [length]. rewrite Nat.add_1_r. rewrite <- !app_assoc. cbn [app].
    unfold sum_entries. f_equal. lia.
Qed.


Lemma sum_entries_nonneg l : Forall (fun x => 0 <= x) l -> 0 <= sum_entries l.
Proof. intros H. unfold sum_entries. induction H; cbn [fold_right]; lia. Qed.

Lemma sum_entries_counts n entries remaining :
  0 < entries -> 0 <= remaining -> remaining <= Z.of_nat n * entries ->
  sum_entries (take n (replicate (Z.to_nat (remaining / entries)) entries ++
                       remaining mod entries :: replicate n 0)) = remaining.
Proof.
  intros He Hr Hn.
  pose proof (Z.div_mod remaining entries ltac:(lia)) as Hdm.
  pose proof (Z.mod_pos_bound remaining entries He) as Hm.
  assert (0 <= remaining / entries) as Hq by (apply Z.div_pos; lia).
  assert (remaining / entries <= Z.of_nat n) as Hqn.
  { apply Z.div_le_upper_bound; lia. }
  set (k := Z.to_nat (remaining / entries)).
  destruct (decide (k = n)) as [Hk|Hk].
  - rewrite take_app_le by (rewrite length_replicate; lia).
    rewrite take_replicate, sum_entries_replicate.
    replace (Z.of_nat (n `min` k)) with (remaining / entries) by lia. nia.
  - rewrite take_app_ge by (rewrite length_replicate; lia).
    rewrite length_replicate, sum_entries_app, sum_entries_replicate.
    destruct (n - k)%nat as [|j] eqn:Hj; [lia|].
    change (take (S j) (?a :: ?l)) with (a :: take j l).
    rewrite take_replicate.
    change (sum_entries (?a :: ?l)) with (a + sum_entries l).
    rewrite sum_entries_replicate. subst k. rewrite Z2Nat.id by lia. nia.
Qed.

(** What verify does once the three values are there. *)
Lemma verify_runs stack (s : bsal_sequence_partitioner) :
  0 < block_size s < 2 ^ 31 ->
  0 < store_count s < 2 ^ 31 ->
  stream_entries s <> [] ->
  Forall (fun entries => 0 <= entries) (stream_entries s) ->
  sum_entries (stream_entries s) < 2 ^ 64 ->
  let sum := sum_entries (stream_entries s) in
  let entries :=
    if sum / store_count s <? block_size s then block_size s
    else sum / store_count s in
  let counts := (verify_stores (Z.to_nat (store_count s)) [] [] entries sum).1 in
  exists s',
    bsal_sequence_partitioner_verify stack s = Some s' /\
    total s' = sum /\
    stream_entries s' = stream_entries s /\
    block_size s' = block_size s /\ store_count s' = store_count s /\
    stream_positions s' =
      stream_positions s ++
        ((fun k => pushed_position 0 (stack k)) <$>
           seq (length (stream_positions s)) (length (stream_entries s))) /\
    stream_global_positions s' =
      stream_global_positions s ++ prefix_sums 0 (stream_entries s) /\
    store_entries s' = store_entries s ++ counts /\
    sent s' = sent s ++
      [Message BSAL_SEQUENCE_PARTITIONER_PROVIDE_STORE_ENTRY_COUNTS (store_entries s')].
Proof.
  intros Hb Hc Hne Hall Hsum sum entries counts.
  unfold bsal_sequence_partitioner_verify.
  destruct (Z.eqb_spec (block_size s) (-1)); [lia|].
  destruct (Z.eqb_spec (store_count s) (-1)); [lia|].
  destruct (Z.eqb_spec (Z.of_nat (length (stream_entries s))) 0) as [E|_].
  { destruct (stream_entries s); [contradiction | cbn in E; lia]. }
  rewrite verify_streams_spec by (try assumption; lia).
  rewrite !to_uint64_small by lia.
  destruct (Z.eqb_spec (store_count s) 0); [lia|].
  change (0 + sum_entries (stream_entries s)) with sum.
  fold entries. rewrite verify_stores_app. fold counts.
  eexists. split; [reflexivity|]. cbn. repeat split.
Qed.

(** X3.  verify announces each stream's global position: the sum of the
    entries of the streams before it, and the total is the sum of all
    stream entries.  The per-stream positions it pushes are 0 in their low
    32 bits only: each push copies eight bytes from the four-byte
    [int position], so the high 32 bits of a new position are the four
    bytes that lie above [position] on the stack, and the position is 0
    exactly when those bytes are. *)
Theorem verify_global_positions stack (s : bsal_sequence_partitioner) :
  0 < block_size s < 2 ^ 31 ->
  0 < store_count s < 2 ^ 31 ->
  stream_entries s <> [] ->
  Forall (fun entries => 0 <= entries) (stream_entries s) ->
  sum_entries (stream_entries s) < 2 ^ 64 ->
  exists s',
    bsal_sequence_partitioner_verify stack s = Some s' /\
    total s' = sum_entries (stream_entries s) /\
    stream_global_positions s' =
      stream_global_positions s ++ prefix_sums 0 (stream_entries s) /\
    stream_positions s' =
      stream_positions s ++
        ((fun k => 2 ^ 32 * to_uint32 (stack k)) <$>
           seq (length (stream_positions s)) (length (stream_entries s))) /\
    (forall k position,
       (length (stream_positions s) <= k)%nat ->
       stream_positions s' !! k = Some position ->
       to_uint32 position = 0 /\
       position = 2 ^ 32 * to_uint32 (stack k) /\
       (position = 0 <-> to_uint32 (stack k) = 0)).
Proof.
  intros Hb Hc Hne Hall Hsum.
  destruct (verify_runs stack s Hb Hc Hne Hall Hsum)
    as (s' & Hrun & Htotal & _ & _ & _ & Hpos & Hglob & _).
  exists s'. split; [exact Hrun|]. split; [exact Htotal|]. split; [exact Hglob|].
  assert (stream_positions s' =
          stream_positions s ++
            ((fun k => 2 ^ 32 * to_uint32 (stack k)) <$>
               seq (length (stream_positions s)) (length (stream_entries s)))) as Hpos'.
  { rewrite Hpos. reflexivity. }
  split; [exact Hpos'|].
  intros k position Hk Hlookup. rewrite Hpos', lookup_app_r in Hlookup by exact Hk.
  rewrite list_lookup_fmap in Hlookup.
  destruct (seq _ _ !! _) as [j|] eqn:Hseq; [|discriminate].
  apply lookup_seq in Hseq as [-> _]. cbn in Hlookup. injection Hlookup as <-.
  replace (length (stream_positions s) + (k - length (stream_positions s)))%nat with k by lia.
  assert (0 <= to_uint32 (stack k) < 2 ^ 32) by (apply Z.mod_pos_bound; lia).
  split; [|split; [reflexivity | lia]].
  unfold to_uint32 at 1. rewrite Z.mul_comm, Z.mod_mul by lia. reflexivity.
Qed.

(** X4.  When the total is at least one block and the stores can take it
    in blocks (total / store_count <= block_size), verify gives full
    blocks to the first total / block_size stores, the rest to the next
    one and 0 to the others: at most one store has a count strictly
    between 0 and block_size.  If moreover total <= store_count *
    block_size, the counts sum to the total. *)
Theorem verify_counts_by_blocks stack (s : bsal_sequence_partitioner) :
  0 < block_size s < 2 ^ 31 ->
  0 < store_count s < 2 ^ 31 ->
  stream_entries s <> [] ->
  Forall (fun entries => 0 <= entries) (stream_entries s) ->
  sum_entries (stream_entries s) < 2 ^ 64 ->
  block_size s <= sum_entries (stream_entries s) ->
  sum_entries (stream_entries s) / store_count s <= block_size s ->
  let sum := sum_entries (stream_entries s) in
  let counts :=
    take (Z.to_nat (store_count s))
      (replicate (Z.to_nat (sum / block_size s)) (block_size s) ++
       sum mod block_size s :: replicate (Z.to_nat (store_count s)) 0) in
  exists s',
    bsal_sequence_partitioner_verify stack s = Some s' /\
    store_entries s' = store_entries s ++ counts /\
    sent s' = sent s ++
      [Message BSAL_SEQUENCE_PARTITIONER_PROVIDE_STORE_ENTRY_COUNTS (store_entries s')] /\
    (sum <= store_count s * block_size s -> sum_entries counts = sum).
Proof.
  intros Hb Hc Hne Hall Hsum Hblock Hfit sum counts.
  destruct (verify_runs stack s Hb Hc Hne Hall Hsum)
    as (s' & Hrun & _ & _ & _ & _ & _ & _ & Hstores & Hsent).
  exists s'. split; [exact Hrun|].
  assert ((if sum / store_count s <? block_size s then block_size s
           else sum / store_count s) = block_size s) as Hentries.
  { fold sum in Hfit. destruct (Z.ltb_spec (sum / store_count s) (block_size s)); lia. }
  fold sum in Hstores. rewrite Hentries in Hstores.
  rewrite verify_stores_counts in Hstores by (fold sum in Hsum, Hblock; lia).
  split; [exact Hstores|]. split; [exact Hsent|].
  intros Hroom. apply sum_entries_counts; [lia | unfold sum; lia |].
  rewrite Z2Nat.id by lia. exact Hroom.
Qed.

(** X5.  When the even share total / store_count is at least one block,
    verify gives that share to every store.  The counts then sum to
    store_count * (total / store_count): the total mod store_count
    remaining entries are given to no store. *)
Theorem verify_counts_even_share stack (s : bsal_sequence_partitioner) :
  0 < block_size s < 2 ^ 31 ->
  0 < store_count s < 2 ^ 31 ->
  stream_entries s <> [] ->
  Forall (fun entries => 0 <= entries) (stream_entries s) ->
  sum_entries (stream_entries s) < 2 ^ 64 ->
  block_size s <= sum_entries (stream_entries s) / store_count s ->
  let sum := sum_entries (stream_entries s) in
  let counts := replicate (Z.to_nat (store_count s)) (sum / store_count s) in
  exists s',
    bsal_sequence_partitioner_verify stack s = Some s' /\
    store_entries s' = store_entries s ++ counts /\
    sum_entries counts = sum - sum mod store_count s.
Proof.
  intros Hb Hc Hne Hall Hsum Hshare sum counts.
  destruct (verify_runs stack s Hb Hc Hne Hall Hsum)
    as (s' & Hrun & _ & _ & _ & _ & _ & _ & Hstores & _).
  exists s'. split; [exact Hrun|].
  fold sum in Hshare, Hstores, Hsum.
  pose proof (Z.div_mod sum (store_count s) ltac:(lia)) as Hdm.
  pose proof (Z.mod_pos_bound sum (store_count s) ltac:(lia)) as Hm.
  set (q := sum / store_count s) in *.
  assert ((if q <? block_size s then block_size s else q) = q) as Hentries
    by (destruct (Z.ltb_spec q (block_size s)); lia).
  rewrite Hentries in Hstores.
  assert (q <= sum) by nia.
  rewrite verify_stores_counts in Hstores by lia.
  assert (store_count s <= sum / q) as Hmany by (apply Z.div_le_lower_bound; lia).
  rewrite take_app_le in Hstores by (rewrite length_replicate; lia).
  rewrite take_replicate in Hstores.
  replace (Z.to_nat (store_count s) `min` Z.to_nat (sum / q))%nat
    with (Z.to_nat (store_count s)) in Hstores by lia.
  split; [exact Hstores|].
  unfold counts. rewrite sum_entries_replicate, Z2Nat.id by lia. lia.
Qed.

(** When [entries] exceeds [remaining] the subtraction wraps and the
    test [remaining < entries] never holds: every store gets [entries]. *)
Lemma verify_stores_wrapped n entries remaining :
  0 < entries ->
  Z.of_nat n * entries + entries <= remaining < 2 ^ 64 ->
  (verify_stores n [] [] entries remaining).1 = replicate n entries.
Proof.
  revert remaining. induction n as [|n IH]; intros remaining He Hr; [reflexivity|].
  cbn [verify_stores]. cbv zeta. rewrite verify_stores_app. cbn [fst app].
  rewrite to_uint64_small by lia.
  destruct (Z.ltb_spec (remaining - entries) entries); [lia|].
  rewrite IH by lia. reflexivity.
Qed.

(** X6.  A total smaller than one block: verify still announces a full
    block for every store, so the counts sum to store_count * block_size,
    more than the total. *)
Theorem verify_counts_small_total stack (s : bsal_sequence_partitioner) :
  0 < block_size s < 2 ^ 31 ->
  0 < store_count s < 2 ^ 31 ->
  stream_entries s <> [] ->
  Forall (fun entries => 0 <= entries) (stream_entries s) ->
  sum_entries (stream_entries s) < block_size s ->
  let counts := replicate (Z.to_nat (store_count s)) (block_size s) in
  exists s',
    bsal_sequence_partitioner_verify stack s = Some s' /\
    store_entries s' = store_entries s ++ counts /\
    sum_entries counts = store_count s * block_size s /\
    total s' < sum_entries counts.
Proof.
  intros Hb Hc Hne Hall Hsmall counts.
  pose proof (sum_entries_nonneg _ Hall) as Hnn.
  destruct (verify_runs stack s Hb Hc Hne Hall ltac:(lia))
    as (s' & Hrun & Htotal & _ & _ & _ & _ & _ & Hstores & _).
  exists s'. split; [exact Hrun|].
  set (sum := sum_entries (stream_entries s)) in *.
  assert (sum / store_count s < block_size s) as Hq.
  { apply Z.div_lt_upper_bound; nia. }
  assert ((if sum / store_count s <? block_size s then block_size s
           else sum / store_count s) = block_size s) as Hentries
    by (destruct (Z.ltb_spec (sum / store_count s) (block_size s)); lia).
  rewrite Hentries in Hstores.
  assert (store_count s * block_size s < 2 ^ 62) as Hprod by nia.
  destruct (Z.to_nat (store_count s)) as [|n] eqn:Hn; [lia|].
  assert (Z.of_nat n = store_count s - 1) as Hn' by lia.
  cbn [verify_stores] in Hstores. cbv zeta in Hstores.
  rewrite verify_stores_app in Hstores. cbn [fst app] in Hstores.
  assert (to_uint64 (sum - block_size s) = 2 ^ 64 + sum - block_size s) as Hwrap.
  { unfold to_uint64.
    replace (sum - block_size s) with ((2 ^ 64 + sum - block_size s) + (-1) * 2 ^ 64) by lia.
    rewrite Z.mod_add by lia. apply Z.mod_small. lia. }
  rewrite Hwrap in Hstores.
  destruct (Z.ltb_spec (2 ^ 64 + sum - block_size s) (block_size s)); [lia|].
  rewrite verify_stores_wrapped in Hstores by nia.
  split; [exact Hstores|].
  assert (sum_entries counts = store_count s * block_size s) as Hcounts.
  { unfold counts. rewrite sum_entries_replicate. lia. }
  split; [exact Hcounts|]. rewrite Hcounts, Htotal. nia.
Qed.

(** X7.  Once block size and entries are set, a store count of 0 makes
    verify divide by zero. *)
Theorem verify_zero_store_count_traps stack (s : bsal_sequence_partitioner) :
  block_size s <> -1 ->
  stream_entries s <> [] ->
  store_count s = 0 ->
  bsal_sequence_partitioner_verify stack s = None.
Proof.
  intros Hb Hne Hc. unfold bsal_sequence_partitioner_verify. rewrite Hc.
  destruct (Z.eqb_spec (block_size s) (-1)); [contradiction|].
  change (0 =? -1) with false. cbv iota.
  destruct (Z.eqb_spec (Z.of_nat (length (stream_entries s))) 0) as [E|_].
  { destruct (stream_entries s); [contradiction | cbn in E; lia]. }
  destruct (verify_streams _ _ _ _ _) as [[positions globals] entries].
  reflexivity.
Qed.

(** As long as one of the three values is missing, receive only
    acknowledges. *)
Lemma receive_incomplete stack (s : bsal_sequence_partitioner) m :
  let stored :=
    match m with
    | BSAL_SEQUENCE_PARTITIONER_SET_BLOCK_SIZE v => set_block_size (to_int v) s
    | BSAL_SEQUENCE_PARTITIONER_SET_ENTRY_VECTOR v => set_stream_entries (to_uint64 <$> v) s
    | BSAL_SEQUENCE_PARTITIONER_SET_ACTOR_COUNT v => set_store_count (to_int v) s
    end in
  block_size stored = -1 \/ store_count stored = -1 \/ stream_entries stored = [] ->
  bsal_sequence_partitioner_receive stack s m =
    Some (bsal_actor_send_reply (acknowledgement m) stored).
Proof.
  intros stored Hmissing.
  assert (forall t, bsal_sequence_partitioner_verify stack (bsal_actor_send_reply t stored) =
                    Some (bsal_actor_send_reply t stored)) as Hverify.
  { intros t. unfold bsal_sequence_partitioner_verify.
    change (block_size (bsal_actor_send_reply t stored)) with (block_size stored).
    change (store_count (bsal_actor_send_reply t stored)) with (store_count stored).
    change (stream_entries (bsal_actor_send_reply t stored)) with (stream_entries stored).
    destruct Hmissing as [-> | [-> | ->]].
    - reflexivity.
    - destruct (block_size stored =? -1); reflexivity.
    - destruct (block_size stored =? -1); [reflexivity|].
      destruct (store_count stored =? -1); reflexivity. }
  destruct m; apply Hverify.
Qed.

(** X8.  Nothing is provided before the handshake is complete: a sequence
    of configuration messages in which one of the three kinds never occurs
    is only acknowledged, message by message, and no store count is
    computed. *)
Theorem deliver_incomplete_only_acknowledges stack garbage (ms : list request) :
  forallb (fun m => negb (is_block_size m)) ms = true \/
  forallb (fun m => negb (is_entry_vector m)) ms = true \/
  forallb (fun m => negb (is_actor_count m)) ms = true ->
  exists s',
    deliver stack (bsal_sequence_partitioner_init garbage) ms = Some s' /\
    sent s' = acknowledgement <$> ms /\
    store_entries s' = [] /\
    stream_global_positions s' = [].
Proof.
  intros Hkind.
  assert (forall s : bsal_sequence_partitioner,
            (block_size s = -1 /\ forallb (fun m => negb (is_block_size m)) ms = true) \/
            (stream_entries s = [] /\ forallb (fun m => negb (is_entry_vector m)) ms = true) \/
            (store_count s = -1 /\ forallb (fun m => negb (is_actor_count m)) ms = true) ->
            exists s', deliver stack s ms = Some s' /\
                       sent s' = sent s ++ (acknowledgement <$> ms) /\
                       store_entries s' = store_entries s /\
                       stream_global_positions s' = stream_global_positions s) as Hgen.
  { clear Hkind. induction ms as [|m ms IH]; intros s Hs.
    - exists s. cbn. rewrite app_nil_r. repeat split.
    - cbn [deliver].
      assert (exists stored,
                bsal_sequence_partitioner_receive stack s m =
                  Some (bsal_actor_send_reply (acknowledgement m) stored) /\
                sent stored = sent s /\ store_entries stored = store_entries s /\
                stream_global_positions stored = stream_global_positions s /\
                ((block_size stored = -1 /\ forallb (fun m => negb (is_block_size m)) ms = true) \/
                 (stream_entries stored = [] /\ forallb (fun m => negb (is_entry_vector m)) ms = true) \/
                 (store_count stored = -1 /\ forallb (fun m => negb (is_actor_count m)) ms = true)))
        as (stored & Hreceive & Hsent & Hstores & Hglobals & Hnext).
      { destruct Hs as [[Hv Hall]|[[Hv Hall]|[Hv Hall]]];
          cbn [forallb] in Hall; apply andb_true_iff in Hall as [Hm Hall];
          destruct m as [v|v|v]; try discriminate Hm;
          eexists; (split; [apply receive_incomplete; cbn; auto|]);
          cbn; repeat split; auto. }
      rewrite Hreceive.
      destruct (IH (bsal_actor_send_reply (acknowledgement m) stored) Hnext)
        as (s' & Hdeliver & Hsent' & Hstores' & Hglobals').
      exists s'. split; [exact Hdeliver|]. cbn in Hsent', Hstores', Hglobals'.
      rewrite Hsent', Hsent, <- app_assoc, Hstores', Hstores, Hglobals', Hglobals.
      repeat split. }
  destruct (Hgen (bsal_sequence_partitioner_init garbage)) as (s' & H1 & H2 & H3 & H4).
  { destruct Hkind as [H|[H|H]]; [left | right; left | right; right]; split;
      try exact H; reflexivity. }
  exists s'. repeat split; assumption.
Qed.

End PartitionerMoreFacts.

Section PartitionerMoreExamples.
Import Partitioner.

Lemma get_store_edges_witness :
  bsal_sequence_partitioner_get_store 0 3 20000 = None.
Proof.
  destruct (get_store_edges 0 3 20000) as [_ H]. apply H. discriminate.
Defined.

Lemma verify_global_positions_witness :
  exists s',
    bsal_sequence_partitioner_verify (fun _ => 6%Z)
      (set_store_count 3 (set_stream_entries [6; 4]
         (set_block_size 1 (bsal_sequence_partitioner_init 0)))) = Some s' /\
    total s' = 10 /\
    stream_global_positions s' = [0; 6] /\
    stream_positions s' = [25769803776; 25769803776].
Proof.
  destruct (verify_global_positions (fun _ => 6%Z)
              (set_store_count 3 (set_stream_entries [6; 4]
                 (set_block_size 1 (bsal_sequence_partitioner_init 0)))))
    as (s' & Hrun & Htotal & Hglobals & Hpositions & _).
  - cbn. lia.
  - cbn. lia.
  - discriminate.
  - repeat constructor; lia.
  - vm_compute. reflexivity.
  - exists s'. split; [exact Hrun|]. split; [exact Htotal|].
    split; [exact Hglobals | exact Hpositions].
Defined.

Lemma verify_counts_by_blocks_witness :
  exists s',
    bsal_sequence_partitioner_verify (fun _ => 6%Z)
      (set_store_count 5 (set_stream_entries [6000; 4000]
         (set_block_size 4096 (bsal_sequence_partitioner_init 0)))) = Some s' /\
    store_entries s' = [4096; 4096; 1808; 0; 0] /\
    sent s' =
      [Message BSAL_SEQUENCE_PARTITIONER_PROVIDE_STORE_ENTRY_COUNTS (store_entries s')] /\
    (10000 <= 5 * 4096 -> sum_entries [4096; 4096; 1808; 0; 0] = 10000).
Proof.
  apply (verify_counts_by_blocks (fun _ => 6%Z)
           (set_store_count 5 (set_stream_entries [6000; 4000]
              (set_block_size 4096 (bsal_sequence_partitioner_init 0))))).
  - cbn. lia.
  - cbn. lia.
  - discriminate.
  - repeat constructor; lia.
  - vm_compute. reflexivity.
  - vm_compute. discriminate.
  - vm_compute. discriminate.
Defined.

Lemma verify_counts_even_share_witness :
  exists s',
    bsal_sequence_partitioner_verify (fun _ => 6%Z)
      (set_store_count 3 (set_stream_entries [6; 4]
         (set_block_size 1 (bsal_sequence_partitioner_init 0)))) = Some s' /\
    store_entries s' = [3; 3; 3] /\
    sum_entries [3; 3; 3] = 10 - 1.
Proof.
  apply (verify_counts_even_share (fun _ => 6%Z)
           (set_store_count 3 (set_stream_entries [6; 4]
              (set_block_size 1 (bsal_sequence_partitioner_init 0))))).
  - cbn. lia.
  - cbn. lia.
  - discriminate.
  - repeat constructor; lia.
  - vm_compute. reflexivity.
  - vm_compute. discriminate.
Defined.

Lemma verify_counts_small_total_witness :
  exists s',
    bsal_sequence_partitioner_verify (fun _ => 6%Z)
      (set_store_count 3 (set_stream_entries [100]
         (set_block_size 4096 (bsal_sequence_partitioner_init 0)))) = Some s' /\
    store_entries s' = [4096; 4096; 4096] /\
    sum_entries [4096; 4096; 4096] = 3 * 4096 /\
    total s' < sum_entries [4096; 4096; 4096].
Proof.
  apply (verify_counts_small_total (fun _ => 6%Z)
           (set_store_count 3 (set_stream_entries [100]
              (set_block_size 4096 (bsal_sequence_partitioner_init 0))))).
  - cbn. lia.
  - cbn. lia.
  - discriminate.
  - repeat constructor; lia.
  - vm_compute. reflexivity.
Defined.

Lemma verify_zero_store_count_traps_witness :
  bsal_sequence_partitioner_verify (fun _ => 6%Z)
    (set_store_count 0 (set_stream_entries [10000]
       (set_block_size 4096 (bsal_sequence_partitioner_init 0)))) = None.
Proof.
  apply (verify_zero_store_count_traps (fun _ => 6%Z)).
  - discriminate.
  - discriminate.
  - reflexivity.
Defined.

Lemma deliver_incomplete_only_acknowledges_witness :
  exists s',
    deliver (fun _ => 6%Z) (bsal_sequence_partitioner_init 0)
      [BSAL_SEQUENCE_PARTITIONER_SET_BLOCK_SIZE 4096;
       BSAL_SEQUENCE_PARTITIONER_SET_ENTRY_VECTOR [10000]] = Some s' /\
    sent s' =
      [Message BSAL_SEQUENCE_PARTITIONER_SET_BLOCK_SIZE_REPLY [];
       Message BSAL_SEQUENCE_PARTITIONER_SET_ENTRY_VECTOR_REPLY []] /\
    store_entries s' = [] /\
    stream_global_positions s' = [].
Proof.
  apply (deliver_incomplete_only_acknowledges (fun _ => 6%Z) 0
           [BSAL_SEQUENCE_PARTITIONER_SET_BLOCK_SIZE 4096;
            BSAL_SEQUENCE_PARTITIONER_SET_ENTRY_VECTOR [10000]]).
  right. right. reflexivity.
Defined.

End PartitionerMoreExamples.

(** ** The sequence partitioner: commands *)

Section CommandFacts.
Import Partitioner.

(** X9.  One generate_command for a stream, with positions inside the
    stream and inside the store that get_store picks: the len of the
    command is the smallest of the block size, what is left of the stream
    and what is left of the store.  If that is 0 nothing happens.
    Otherwise one command is queued and announced, whose three ranges
    start at the current positions and have that len, and the three
    positions move behind it; the command never reaches beyond the stream
    or the capacity of the store. *)
Theorem generate_command_takes_one_block (st : command_state) stream_index
    position global_first entries store_index store_position capacity :
  let s := partitioner st in
  0 < block_size s < 2 ^ 31 ->
  0 < store_count s < 2 ^ 31 ->
  0 <= stream_index ->
  stream_positions s !! Z.to_nat stream_index = Some position ->
  stream_global_positions s !! Z.to_nat stream_index = Some global_first ->
  stream_entries s !! Z.to_nat stream_index = Some entries ->
  0 <= position <= entries -> entries < 2 ^ 64 ->
  0 <= global_first < 2 ^ 63 ->
  store_index = (global_first / block_size s) mod store_count s ->
  store_current_entries s !! Z.to_nat store_index = Some store_position ->
  store_entries s !! Z.to_nat store_index = Some capacity ->
  0 <= store_position <= capacity -> capacity < 2 ^ 63 ->
  let len := Z.min (Z.min (block_size s) (entries - position)) (capacity - store_position) in
  (len = 0 ->
   bsal_sequence_partitioner_generate_command st stream_index = Some st) /\
  (len <> 0 ->
   0 < len <= block_size s /\
   position + len <= entries /\
   store_position + len <= capacity /\
   bsal_sequence_partitioner_generate_command st stream_index =
     Some {| partitioner :=
               set_positions
                 (<[Z.to_nat stream_index := position + len]> (stream_positions s))
                 (<[Z.to_nat stream_index := global_first + len]>
                    (stream_global_positions s))
                 (<[Z.to_nat store_index := store_position + len]>
                    (store_current_entries s))
                 (to_int (command_number s + 1)) s;
             available_commands :=
               available_commands st ++
               [StreamCommand (command_number s) stream_index
                  position (position + len - 1)
                  store_index store_position (store_position + len - 1)
                  global_first (global_first + len - 1)];
             command_is_ready_replies := S (command_is_ready_replies st) |}).
Proof.
  intros s Hb Hc Hi Hpos Hglob Hent Hrange Hmax Hg Hstore Hcur Hcap Hsrange Hcapmax len.
  assert (0 <= store_index < store_count s) as Hsi
    by (subst store_index; apply Z.mod_pos_bound; lia).
  assert (bsal_sequence_partitioner_get_store (block_size s) (store_count s) global_first =
          Some store_index) as Hget.
  { unfold bsal_sequence_partitioner_get_store. rewrite !to_uint64_small by lia.
    destruct (Z.eqb_spec (store_count s) 0); [lia|].
    destruct (Z.eqb_spec (block_size s) 0); [lia|].
    rewrite <- Hstore. rewrite to_int_small by lia. reflexivity. }
  assert (forall v i x, 0 <= i -> v !! Z.to_nat i = Some x -> vector_at v i = Some x) as Hat.
  { intros v i x H0 H. unfold vector_at. destruct (Z.ltb_spec i 0); [lia | exact H]. }
  assert (0 <= len) as Hlen0 by (unfold len; lia).
  assert (len <= block_size s) as Hlenb by (unfold len; lia).
  assert ((if to_uint64 (capacity - store_position) <?
              to_uint64 (if to_uint64 (entries - position) <? to_uint64 (block_size s)
                         then to_int (to_uint64 (entries - position)) else block_size s)
           then to_int (to_uint64 (capacity - store_position))
           else (if to_uint64 (entries - position) <? to_uint64 (block_size s)
                 then to_int (to_uint64 (entries - position)) else block_size s)) = len)
    as Hactual.
  { rewrite (to_uint64_small (entries - position)) by lia.
    rewrite (to_uint64_small (capacity - store_position)) by lia.
    rewrite (to_uint64_small (block_size s)) by lia.
    destruct (Z.ltb_spec (entries - position) (block_size s)).
    - rewrite to_int_small by lia. rewrite to_uint64_small by lia.
      destruct (Z.ltb_spec (capacity - store_position) (entries - position)).
      + rewrite to_int_small by lia. unfold len. lia.
      + unfold len. lia.
    - rewrite to_uint64_small by lia.
      destruct (Z.ltb_spec (capacity - store_position) (block_size s)).
      + rewrite to_int_small by lia. unfold len. lia.
      + unfold len. lia. }
  assert (bsal_sequence_partitioner_generate_command st stream_index =
          if len =? 0 then Some st
          else Some {| partitioner :=
               set_positions
                 (vector_set (stream_positions s) stream_index
                    (to_uint64 (to_uint64 (position + to_uint64 len - 1) + 1)))
                 (vector_set (stream_global_positions s) stream_index
                    (to_uint64 (to_uint64 (global_first + to_uint64 len - 1) + 1)))
                 (vector_set (store_current_entries s) store_index
                    (to_uint64 (to_uint64 (store_position + to_uint64 len - 1) + 1)))
                 (to_int (command_number s + 1)) s;
             available_commands :=
               available_commands st ++
               [StreamCommand (command_number s) stream_index
                  position (to_uint64 (position + to_uint64 len - 1))
                  store_index store_position
                  (to_uint64 (store_position + to_uint64 len - 1))
                  global_first (to_uint64 (global_first + to_uint64 len - 1))];
             command_is_ready_replies := S (command_is_ready_replies st) |}) as Hrun.
  { unfold bsal_sequence_partitioner_generate_command. fold s.
    rewrite (Hat _ _ _ Hi Hpos). cbn [mbind option_bind].
    rewrite (Hat _ _ _ Hi Hglob). cbn [mbind option_bind].
    rewrite Hget. cbn [mbind option_bind].
    rewrite (Hat _ _ _ (proj1 Hsi) Hcur). cbn [mbind option_bind].
    rewrite (Hat _ _ _ Hi Hent). cbn [mbind option_bind].
    rewrite (Hat _ _ _ (proj1 Hsi) Hcap). cbn [mbind option_bind].
    cbv zeta. rewrite Hactual. reflexivity. }
  split.
  - intros E. rewrite Hrun, E. reflexivity.
  - intros Hne. split; [lia|]. split; [unfold len in *; lia|].
    split; [unfold len in *; lia|].
    rewrite Hrun. destruct (Z.eqb_spec len 0); [contradiction|].
    assert (position + len <= entries) by (unfold len in *; lia).
    assert (store_position + len <= capacity) by (unfold len in *; lia).
    unfold vector_set.
    rewrite (to_uint64_small len) by lia.
    rewrite !(to_uint64_small (_ + len - 1)) by lia.
    rewrite !(to_uint64_small (_ + len - 1 + 1)) by lia.
    replace (position + len - 1 + 1) with (position + len) by lia.
    replace (global_first + len - 1 + 1) with (global_first + len) by lia.
    replace (store_position + len - 1 + 1) with (store_position + len) by lia.
    reflexivity.
Qed.

Lemma generate_command_takes_one_block_witness :
  bsal_sequence_partitioner_generate_command example_command_state 0 =
    Some {| partitioner :=
              set_positions [4096] [4096] [4096; 0; 0] 1
                (partitioner example_command_state);
            available_commands := [StreamCommand 0 0 0 4095 0 0 4095 0 4095];
            command_is_ready_replies := 1 |}.
Proof.
  assert (0 < 4096 < 2 ^ 31) as Hb by lia.
  assert (0 < 3 < 2 ^ 31) as Hc by lia.
  assert (0 <= 0 <= 10000) as Hrange by lia.
  assert (0 <= 0 < 2 ^ 63) as Hg by lia.
  assert (0 <= 0 <= 4096) as Hsrange by lia.
  pose proof (generate_command_takes_one_block example_command_state 0
                0 0 10000 0 0 4096 Hb Hc (Z.le_refl 0) eq_refl eq_refl eq_refl
                Hrange eq_refl Hg eq_refl eq_refl eq_refl Hsrange eq_refl) as [_ H].
  destruct H as (_ & _ & _ & H); [discriminate|]. exact H.
Defined.

End CommandFacts.

(** ** Memory pool: edges, reuse and order of recycling *)

Section PoolMoreFacts.
Import MemoryPool.

Variable discard_empty_queues : bool.

Ltac pool_unfold :=
  unfold tracking_enabled, disabled, set_recycle_bin, set_allocated_blocks,
    set_large_blocks, set_current_block, set_dried_blocks, set_ready_blocks,
    set_flags, all_blocks in *;
  cbn [recycle_bin allocated_blocks large_blocks current_block dried_blocks
       ready_blocks block_size flags option_list] in *.

(** X10.  A request of 0 bytes ends the process, whatever the pool (NULL,
    disabled, with or without normalization): the internal allocation
    answers NULL without calling the system, and allocate prints the error
    and the stack backtrace and exits with status 1. *)
Theorem allocate_zero_bytes_exits sys self :
  bsal_memory_pool_allocate_private discard_empty_queues sys self 0 = (NULL, sys, self) /\
  bsal_memory_pool_allocate discard_empty_queues sys self 0 =
    Exited 1
      (System (sys_answers sys)
         (sys_trace sys ++
          [SysPrintf "Error, requested %zu bytes, returned pointer is NULL\n" 0;
           SysStackBacktrace])).
Proof.
  split; [reflexivity|].
  unfold bsal_memory_pool_allocate.
  assert (requested_size self 0 = Some 0) as ->.
  { unfold requested_size. destruct self as [pool|]; [|reflexivity].
    destruct (normalization_enabled pool); reflexivity. }
  cbn. unfold sys_emit. cbn. rewrite <- app_assoc. reflexivity.
Qed.

(** X11.  A NULL pool and a disabled pool are a pass-through to the
    system: a request of any non-zero size, also below the block size, is
    the system's answer, freeing any non-null pointer, also a tracked one,
    is the system's free, and the pool is left as it is. *)
Theorem disabled_pool_passes_through sys (self : option bsal_memory_pool) size pointer :
  match self with Some pool => disabled pool = true | None => True end ->
  size <> 0 ->
  pointer <> NULL ->
  bsal_memory_pool_allocate_private discard_empty_queues sys self size =
    ((bsal_memory_allocate sys size).1, (bsal_memory_allocate sys size).2, self) /\
  bsal_memory_pool_free sys self pointer = (bsal_memory_free sys pointer, self).
Proof.
  intros Hself Hsize Hpointer. split.
  - unfold bsal_memory_pool_allocate_private.
    destruct (Z.eqb_spec size 0); [contradiction|].
    destruct self as [pool|]; [rewrite Hself|];
      destruct (bsal_memory_allocate sys size); reflexivity.
  - unfold bsal_memory_pool_free.
    destruct (Z.eqb_spec pointer NULL); [contradiction|].
    destruct self as [pool|]; [rewrite Hself|]; reflexivity.
Qed.

(** Taking bytes from the blocks without the system: the current block has
    room, or a ready block is waiting. *)
Lemma allocate_from_blocks_reuses sys (self : bsal_memory_pool) size :
  pool_invariant self ->
  0 < size < block_size self ->
  (exists b, current_block self = Some b /\ offset b + size <= total_bytes b) \/
    ready_blocks self <> [] ->
  exists pointer self',
    allocate_from_blocks sys self size = (pointer, sys, self') /\
    pointer <> NULL /\
    exists b, b ∈ all_blocks self /\ pointer = memory b + offset b.
Proof.
  intros Hinv Hsize Hroom.
  pose proof (inv_blocks_bounds _ Hinv) as Hbounds.
  pose proof (inv_ready_reset _ Hinv) as Hreset.
  destruct self as [bin alloc large cur dried ready bs fl].
  unfold allocate_from_blocks, bsal_memory_pool_add_block, bsal_memory_block_allocate.
  unfold NULL in *. pool_unfold.
  destruct cur as [b|].
  - assert (0 < memory b /\ total_bytes b = bs /\ 0 <= offset b <= total_bytes b)
      as (Hm & Ht & Ho) by (apply Hbounds; apply list_elem_of_here).
    destruct (Z.gtb_spec (offset b + size) (total_bytes b)) as [Hfull|Hfits].
    + destruct Hroom as [(b' & [= <-] & Hfit)|Hready]; [lia|].
      destruct ready as [|nb rest]; [contradiction|].
      assert (offset nb = 0) as Hnb0 by (apply Hreset; apply list_elem_of_here).
      assert (0 < memory nb /\ total_bytes nb = bs /\ 0 <= offset nb <= total_bytes nb)
        as (Hnm & Hnt & Hno).
      { apply Hbounds. apply list_elem_of_further, elem_of_app. right.
        apply list_elem_of_here. }
      change (0 =? 0) with true. cbv iota. pool_unfold.
      destruct (Z.gtb_spec (offset nb + size) (total_bytes nb)); [lia|].
      eexists _, _. split; [reflexivity|]. split; [lia|].
      exists nb. split; [|reflexivity].
      apply list_elem_of_further, elem_of_app. right. apply list_elem_of_here.
    + destruct (Z.eqb_spec (memory b + offset b) 0); [lia|].
      eexists _, _. split; [reflexivity|]. split; [lia|].
      exists b. split; [apply list_elem_of_here | reflexivity].
  - destruct Hroom as [(b' & [=] & _)|Hready].
    destruct ready as [|nb rest]; [contradiction|].
    assert (offset nb = 0) as Hnb0 by (apply Hreset; apply list_elem_of_here).
    assert (0 < memory nb /\ total_bytes nb = bs /\ 0 <= offset nb <= total_bytes nb)
      as (Hnm & Hnt & Hno).
    { apply Hbounds. change (nb ∈ dried ++ nb :: rest).
      apply elem_of_app. right. apply list_elem_of_here. }
    destruct (Z.gtb_spec (offset nb + size) (total_bytes nb)); [lia|].
    destruct (Z.eqb_spec (memory nb + offset nb) 0); [lia|].
    eexists _, _. split; [reflexivity|]. split; [lia|].
    exists nb. split; [|reflexivity].
    change (nb ∈ dried ++ nb :: rest).
    apply elem_of_app. right. apply list_elem_of_here.
Qed.

(** X12.  The pool asks the system only as a last resort.  On a pool that
    satisfies the invariant of allocate and free, a request below the block
    size is served without any call to the system whenever the recycle bin
    holds a pointer of that size, or the current block has room, or a
    ready block is waiting; the pointer is not NULL. *)
Theorem allocate_reuses_before_system sys (self : bsal_memory_pool) size :
  pool_invariant self ->
  0 < size < block_size self ->
  (exists p rest, recycle_bin self !! size_key size = Some (p :: rest)) \/
  (exists b, current_block self = Some b /\ offset b + size <= total_bytes b) \/
  ready_blocks self <> [] ->
  exists pointer self',
    bsal_memory_pool_allocate_private discard_empty_queues sys (Some self) size =
      (pointer, sys, Some self') /\
    pointer <> NULL.
Proof.
  intros Hinv Hsize Hreuse.
  pose proof (inv_block_size _ Hinv) as Hbs.
  unfold bsal_memory_pool_allocate_private.
  destruct (Z.eqb_spec size 0); [lia|]. rewrite (inv_enabled _ Hinv).
  rewrite to_size_t_small by lia.
  destruct (Z.geb_spec size (block_size self)); [lia|].
  unfold allocate_in_pool. rewrite (inv_tracking _ Hinv).
  destruct (recycle_bin self !! size_key size) as [[|p rest]|] eqn:Hqueue.
  - destruct Hreuse as [(p & rest & [=])|Hroom].
    destruct (allocate_from_blocks_reuses sys self size Hinv Hsize Hroom)
      as (pointer & self' & -> & Hnull & _).
    exists pointer, self'. split; [reflexivity | exact Hnull].
  - eexists _, _. split; [reflexivity|].
    intros ->.
    assert (in_bin self NULL) as Hbin.
    { exists (size_key size), (NULL :: rest). split; [exact Hqueue | apply list_elem_of_here]. }
    destruct (inv_tracked_in_block _ Hinv NULL (or_intror Hbin)) as (b & Hb & Hrange).
    destruct (inv_blocks_bounds _ Hinv b Hb) as (Hm & _). unfold NULL in Hrange. lia.
  - destruct Hreuse as [(p & rest & [=])|Hroom].
    destruct (allocate_from_blocks_reuses sys self size Hinv Hsize Hroom)
      as (pointer & self' & -> & Hnull & _).
    exists pointer, self'. split; [reflexivity | exact Hnull].
Qed.


(** free of a tracked pointer, and allocate with a recycled pointer, as
    equations. *)
Lemma free_tracked_eq sys (self : bsal_memory_pool) p s :
  tracking_enabled self = true -> disabled self = false ->
  p <> NULL -> p ∉ large_blocks self ->
  allocated_blocks self !! p = Some s ->
  bsal_memory_pool_free sys (Some self) p =
    (sys, Some (set_allocated_blocks (delete p (allocated_blocks self))
                  (set_recycle_bin
                     (<[s := default [] (recycle_bin self !! s) ++ [p]]> (recycle_bin self))
                     self))).
Proof.
  intros Htrack Hen Hp Hlarge Hmap. unfold bsal_memory_pool_free.
  destruct (Z.eqb_spec p NULL); [contradiction|]. rewrite Hen.
  rewrite bool_decide_eq_false_2 by exact Hlarge. rewrite Htrack, Hmap. reflexivity.
Qed.

Lemma allocate_recycled_eq sys (self : bsal_memory_pool) s p rest :
  tracking_enabled self = true -> disabled self = false ->
  0 < s < 2 ^ 31 -> s < to_size_t (block_size self) ->
  recycle_bin self !! s = Some (p :: rest) ->
  bsal_memory_pool_allocate_private discard_empty_queues sys (Some self) s =
    (p, sys,
     Some (set_recycle_bin
             (if discard_empty_queues && bool_decide (rest = [])
              then delete s (recycle_bin self) else <[s := rest]> (recycle_bin self))
             (set_allocated_blocks (<[p := s]> (allocated_blocks self)) self))).
Proof.
  intros Htrack Hen Hs Hbelow Hqueue. unfold bsal_memory_pool_allocate_private.
  destruct (Z.eqb_spec s 0); [lia|]. rewrite Hen.
  destruct (Z.geb_spec s (to_size_t (block_size self))); [lia|].
  unfold allocate_in_pool. rewrite Htrack, size_key_small by exact Hs.
  rewrite Hqueue. reflexivity.
Qed.

(** X13.  The recycle bin is first in, first out.  Two tracked pointers
    of the same size that are freed one after the other, into an empty
    queue, come back from the next two allocations of that size in the
    order in which they were freed, without any call to the system, and
    the allocated-blocks map is then what it was. *)
Theorem recycling_is_first_in_first_out sys (self : bsal_memory_pool) p1 p2 s :
  tracking_enabled self = true -> disabled self = false ->
  p1 <> NULL -> p2 <> NULL -> p1 <> p2 ->
  p1 ∉ large_blocks self -> p2 ∉ large_blocks self ->
  allocated_blocks self !! p1 = Some s ->
  allocated_blocks self !! p2 = Some s ->
  0 < s < 2 ^ 31 -> s < to_size_t (block_size self) ->
  recycle_bin self !! s = None \/ recycle_bin self !! s = Some [] ->
  exists self1 self2 self3 self4,
    bsal_memory_pool_free sys (Some self) p1 = (sys, Some self1) /\
    bsal_memory_pool_free sys (Some self1) p2 = (sys, Some self2) /\
    recycle_bin self2 !! s = Some [p1; p2] /\
    bsal_memory_pool_allocate_private discard_empty_queues sys (Some self2) s =
      (p1, sys, Some self3) /\
    bsal_memory_pool_allocate_private discard_empty_queues sys (Some self3) s =
      (p2, sys, Some self4) /\
    allocated_blocks self4 = allocated_blocks self.
Proof.
  intros Htrack Hen Hp1 Hp2 Hne Hl1 Hl2 Hm1 Hm2 Hs Hbelow Hqueue.
  assert (default [] (recycle_bin self !! s) = []) as Hdef
    by (destruct Hqueue as [-> | ->]; reflexivity).
  set (self1 := set_allocated_blocks (delete p1 (allocated_blocks self))
                  (set_recycle_bin (<[s := [p1]]> (recycle_bin self)) self)).
  set (self2 := set_allocated_blocks (delete p2 (allocated_blocks self1))
                  (set_recycle_bin (<[s := [p1; p2]]> (recycle_bin self1)) self1)).
  set (self3 := set_recycle_bin (<[s := [p2]]> (recycle_bin self2))
                  (set_allocated_blocks (<[p1 := s]> (allocated_blocks self2)) self2)).
  set (self4 := set_recycle_bin
                  (if discard_empty_queues
                   then delete s (recycle_bin self3) else <[s := []]> (recycle_bin self3))
                  (set_allocated_blocks (<[p2 := s]> (allocated_blocks self3)) self3)).
  exists self1, self2, self3, self4.
  split.
  { rewrite (free_tracked_eq sys self p1 s) by assumption. rewrite Hdef. reflexivity. }
  split.
  { rewrite (free_tracked_eq sys self1 p2 s); try assumption.
    - unfold self2. change (recycle_bin self1 !! s) with (<[s := [p1]]> (recycle_bin self) !! s).
      rewrite lookup_insert_eq. reflexivity.
    - unfold self1. cbn. rewrite lookup_delete_ne by exact Hne. exact Hm2. }
  split; [apply lookup_insert_eq|].
  split.
  { rewrite (allocate_recycled_eq sys self2 s p1 [p2]); try assumption.
    - rewrite bool_decide_eq_false_2 by discriminate. rewrite andb_false_r. reflexivity.
    - apply lookup_insert_eq. }
  split.
  { rewrite (allocate_recycled_eq sys self3 s p2 []); try assumption.
    - rewrite bool_decide_eq_true_2 by reflexivity. rewrite andb_true_r. reflexivity.
    - apply lookup_insert_eq. }
  cbn. apply map_eq. intros x.
  destruct (decide (x = p2)) as [->|Hx2]; [rewrite lookup_insert_eq; congruence|].
  rewrite lookup_insert_ne by congruence.
  destruct (decide (x = p1)) as [->|Hx1]; [rewrite lookup_insert_eq; congruence|].
  rewrite lookup_insert_ne by congruence.
  rewrite !lookup_delete_ne by congruence. reflexivity.
Qed.

Lemma free_all_blocks (self : bsal_memory_pool) :
  Z.of_nat (length (ready_blocks self)) < 2 ^ 31 ->
  bsal_memory_pool_free_all self =
    set_dried_blocks []
      (set_ready_blocks
         (bsal_memory_block_free_all <$> (ready_blocks self ++ dried_blocks self))
         (set_current_block (bsal_memory_block_free_all <$> current_block self) self)).
Proof.
  intros Hlen. unfold bsal_memory_pool_free_all, bsal_queue_size. pool_unfold.
  rewrite to_int_small by lia. rewrite Nat2Z.id.
  rewrite <- (app_nil_r (ready_blocks self)) at 2.
  rewrite reset_ready_blocks_spec, reset_dried_blocks_spec. cbn [app].
  rewrite fmap_app. reflexivity.
Qed.

(** X14.  free_all makes the blocks reusable.  On an enabled pool
    without tracking that owns at least one block, each block being
    block_size bytes at a non-null address, the allocation of a size below
    the block size that follows free_all is served from the start of one
    of the pool's blocks, without any call to the system. *)
Theorem free_all_then_allocate_reuses_a_block sys (self : bsal_memory_pool) size :
  tracking_enabled self = false -> disabled self = false ->
  0 < size < block_size self -> block_size self < 2 ^ 31 ->
  Z.of_nat (length (ready_blocks self)) < 2 ^ 31 ->
  all_blocks self <> [] ->
  (forall b, b ∈ all_blocks self -> 0 < memory b /\ total_bytes b = block_size self) ->
  exists b self',
    b ∈ all_blocks self /\
    bsal_memory_pool_allocate_private discard_empty_queues sys
      (Some (bsal_memory_pool_free_all self)) size = (memory b, sys, Some self') /\
    memory b <> NULL /\
    recycle_bin self' = recycle_bin self /\
    allocated_blocks self' = allocated_blocks self.
Proof.
  intros Htrack Hen Hsize Hbs Hlen Hsome Hwf.
  rewrite free_all_blocks by exact Hlen.
  unfold bsal_memory_pool_allocate_private.
  destruct (Z.eqb_spec size 0); [lia|].
  destruct self as [bin alloc large cur dried ready bs fl]. pool_unfold.
  rewrite Hen. rewrite to_size_t_small by lia.
  destruct (Z.geb_spec size bs); [lia|].
  unfold allocate_in_pool, allocate_from_blocks, bsal_memory_pool_add_block,
    bsal_memory_block_allocate, bsal_memory_block_free_all. pool_unfold.
  rewrite Htrack. unfold NULL.
  destruct cur as [b|]; cbn [fmap option_fmap option_map].
  - destruct (Hwf b) as [Hm Ht]; [apply list_elem_of_here|].
    cbn [memory total_bytes offset]. rewrite Ht.
    destruct (Z.gtb_spec (0 + size) bs); [lia|].
    destruct (Z.eqb_spec (memory b + 0) 0); [lia|]. pool_unfold. rewrite Htrack.
    exists b. eexists. split; [apply list_elem_of_here|].
    split; [rewrite Z.add_0_r; reflexivity|]. split; [lia|]. split; reflexivity.
  - change (option_list None ++ dried ++ ready) with (dried ++ ready) in *.
    destruct (ready ++ dried) as [|nb rest] eqn:Hblocks.
    { apply app_eq_nil in Hblocks as [-> ->]. contradiction. }
    assert (nb ∈ dried ++ ready) as Hnb.
    { assert (nb ∈ ready ++ dried) as Hin by (rewrite Hblocks; apply list_elem_of_here).
      apply elem_of_app in Hin. apply elem_of_app. tauto. }
    destruct (Hwf nb Hnb) as [Hm Ht].
    cbn [fmap list_fmap]. cbn [memory total_bytes offset]. rewrite Ht.
    destruct (Z.gtb_spec (0 + size) bs); [lia|].
    destruct (Z.eqb_spec (memory nb + 0) 0); [lia|]. pool_unfold. rewrite Htrack.
    exists nb. eexists. split; [exact Hnb|].
    split; [rewrite Z.add_0_r; reflexivity|]. split; [lia|]. split; reflexivity.
Qed.

End PoolMoreFacts.

Section PoolMoreExamples.
Import MemoryPool.

Lemma disabled_pool_passes_through_witness :
  bsal_memory_pool_allocate_private false (System [4096] [])
    (Some (bsal_memory_pool_disable (bsal_memory_pool_init 64))) 8 =
    (4096, System [] [SysAllocate 8 4096],
     Some (bsal_memory_pool_disable (bsal_memory_pool_init 64))) /\
  bsal_memory_pool_free (System [4096] [])
    (Some (bsal_memory_pool_disable (bsal_memory_pool_init 64))) 4096 =
    (System [4096] [SysFree 4096],
     Some (bsal_memory_pool_disable (bsal_memory_pool_init 64))).
Proof.
  assert (disabled (bsal_memory_pool_disable (bsal_memory_pool_init 64)) = true) as Hd
    by reflexivity.
  assert (8 <> 0) as Hsize by lia.
  assert (4096 <> NULL) as Hp by (unfold NULL; lia).
  exact (disabled_pool_passes_through false (System [4096] [])
           (Some (bsal_memory_pool_disable (bsal_memory_pool_init 64))) 8 4096 Hd Hsize Hp).
Defined.

Lemma allocate_reuses_before_system_witness :
  pool_invariant example_pool_freed /\
  exists pointer self',
    bsal_memory_pool_allocate_private false example_system (Some example_pool_freed) 48 =
      (pointer, example_system, Some self') /\
    pointer <> NULL.
Proof.
  assert (pool_invariant example_pool_freed) as Hinv
    by exact (proj1 (reachable_invariant _ _ _ example_pool_freed_reachable)).
  split; [exact Hinv|].
  apply (allocate_reuses_before_system false example_system example_pool_freed 48 Hinv).
  - cbn. lia.
  - left. exists 4096, []. reflexivity.
Defined.

Lemma recycling_is_first_in_first_out_witness :
  exists self1 self2 self3 self4,
    bsal_memory_pool_free example_system (Some example_pool) 4096 =
      (example_system, Some self1) /\
    bsal_memory_pool_free example_system (Some self1) 8192 =
      (example_system, Some self2) /\
    recycle_bin self2 !! 48 = Some [4096; 8192] /\
    bsal_memory_pool_allocate_private false example_system (Some self2) 48 =
      (4096, example_system, Some self3) /\
    bsal_memory_pool_allocate_private false example_system (Some self3) 48 =
      (8192, example_system, Some self4) /\
    allocated_blocks self4 = allocated_blocks example_pool.
Proof.
  apply (recycling_is_first_in_first_out false example_system example_pool 4096 8192 48).
  - reflexivity.
  - reflexivity.
  - unfold NULL. lia.
  - unfold NULL. lia.
  - lia.
  - apply not_elem_of_empty.
  - apply not_elem_of_empty.
  - reflexivity.
  - reflexivity.
  - lia.
  - vm_compute. reflexivity.
  - left. reflexivity.
Defined.

Lemma free_all_then_allocate_reuses_a_block_witness :
  exists b self',
    b ∈ all_blocks (bsal_memory_pool_disable_tracking example_pool) /\
    bsal_memory_pool_allocate_private false example_system
      (Some (bsal_memory_pool_free_all (bsal_memory_pool_disable_tracking example_pool))) 16 =
      (memory b, example_system, Some self') /\
    memory b <> NULL /\
    recycle_bin self' = recycle_bin (bsal_memory_pool_disable_tracking example_pool) /\
    allocated_blocks self' = allocated_blocks (bsal_memory_pool_disable_tracking example_pool).
Proof.
  apply (free_all_then_allocate_reuses_a_block false example_system
           (bsal_memory_pool_disable_tracking example_pool) 16).
  - reflexivity.
  - reflexivity.
  - cbn. lia.
  - cbn. lia.
  - cbn. lia.
  - discriminate.
  - intros b Hb. cbn in Hb.
    repeat (apply elem_of_cons in Hb as [->|Hb]; [cbn; lia|]). inversion Hb.
Defined.

End PoolMoreExamples.

(** ** Memory pool: freeing twice *)

Section DoubleFreeFacts.
Import MemoryPool.

(** X15.  The pool absorbs a second free.  On an enabled pool in which no
    large block is also in the allocated-blocks map, freeing a pointer a
    second time changes neither the pool nor the system: the first free
    took the pointer out of the table that the second one looks it up
    in, so the system free is not called twice and the recycle bin does
    not get the pointer twice. *)
Theorem free_twice_is_free_once sys (self : bsal_memory_pool) pointer sys1 self1 :
  disabled self = false ->
  (pointer ∈ large_blocks self -> allocated_blocks self !! pointer = None) ->
  bsal_memory_pool_free sys (Some self) pointer = (sys1, self1) ->
  bsal_memory_pool_free sys1 self1 pointer = (sys1, self1).
Proof.
  intros Hen Hlarge H. unfold bsal_memory_pool_free in H.
  destruct (Z.eqb_spec pointer NULL) as [Hnull|Hnull].
  { injection H as <- <-. unfold bsal_memory_pool_free.
    destruct (Z.eqb_spec pointer NULL); [reflexivity | contradiction]. }
  rewrite Hen in H.
  unfold bsal_memory_pool_free.
  destruct (Z.eqb_spec pointer NULL) as [?|_]; [contradiction|].
  destruct (decide (pointer ∈ large_blocks self)) as [Hin|Hout].
  - rewrite bool_decide_eq_true_2 in H by exact Hin. injection H as <- <-.
    assert (disabled (set_large_blocks (large_blocks self ∖ {[pointer]}) self) = false) as ->
      by exact Hen.
    rewrite bool_decide_eq_false_2
      by (cbn; intros [_ Hne]%elem_of_difference; apply Hne; apply elem_of_singleton; reflexivity).
    destruct (negb (tracking_enabled (set_large_blocks (large_blocks self ∖ {[pointer]}) self)));
      [reflexivity|].
    cbn [allocated_blocks set_large_blocks]. rewrite (Hlarge Hin). reflexivity.
  - rewrite bool_decide_eq_false_2 in H by exact Hout.
    destruct (negb (tracking_enabled self)) eqn:Htrack.
    + injection H as <- <-. rewrite Hen, bool_decide_eq_false_2, Htrack by exact Hout.
      reflexivity.
    + destruct (allocated_blocks self !! pointer) as [size|] eqn:Hmap.
      * injection H as <- <-.
        match goal with
        | |- context [disabled ?p] =>
            assert (disabled p = false) as -> by exact Hen;
            assert (tracking_enabled p = tracking_enabled self) as -> by reflexivity
        end.
        rewrite bool_decide_eq_false_2 by exact Hout. rewrite Htrack.
        cbn [allocated_blocks set_allocated_blocks set_recycle_bin].
        rewrite lookup_delete_eq. reflexivity.
      * injection H as <- <-. rewrite Hen, bool_decide_eq_false_2, Htrack, Hmap by exact Hout.
        reflexivity.
Qed.

End DoubleFreeFacts.

Section DoubleFreeExamples.
Import MemoryPool.

Lemma free_twice_is_free_once_witness :
  bsal_memory_pool_free example_system (Some example_pool) 4096 =
    (example_system, Some example_pool_freed) /\
  bsal_memory_pool_free example_system (Some example_pool_freed) 4096 =
    (example_system, Some example_pool_freed).
Proof.
  assert (bsal_memory_pool_free example_system (Some example_pool) 4096 =
            (example_system, Some example_pool_freed)) as H by (vm_compute; reflexivity).
  assert (4096 ∈ large_blocks example_pool -> allocated_blocks example_pool !! 4096 = None)
    as Hlarge.
  { intros Hin. cbn in Hin. destruct (not_elem_of_empty (C := gset Z) 4096 Hin). }
  split; [exact H|].
  exact (free_twice_is_free_once example_system example_pool 4096 example_system
           (Some example_pool_freed) eq_refl Hlarge H).
Defined.

End DoubleFreeExamples.

(** ** Memory pool: the bytes of live allocations *)

Section RangeFacts.
Import MemoryPool.

Lemma tracked_size_tracked (self : bsal_memory_pool) p s :
  tracked_size self p s -> in_use self p \/ in_bin self p.
Proof.
  intros [H|(q & Hq & Hp)]; [left; eexists; exact H | right; exists s, q; auto].
Qed.

Lemma range_invariant_transfer (self self' : bsal_memory_pool) :
  range_invariant self ->
  (forall p s, tracked_size self' p s -> tracked_size self p s) ->
  (forall b, b ∈ all_blocks self -> b ∈ all_blocks self') ->
  range_invariant self'.
Proof.
  intros [Hpos Hin Hapart] Htracked Hblocks. constructor.
  - intros p s H. exact (Hpos p s (Htracked p s H)).
  - intros p s H. destruct (Hin p s (Htracked p s H)) as (b & Hb & Hrange).
    exists b. split; [exact (Hblocks b Hb) | exact Hrange].
  - intros p1 s1 p2 s2 H1 H2. exact (Hapart p1 s1 p2 s2 (Htracked _ _ H1) (Htracked _ _ H2)).
Qed.

Lemma range_invariant_init bs : range_invariant (bsal_memory_pool_init bs).
Proof.
  assert (forall p s, ~ tracked_size (bsal_memory_pool_init bs) p s) as Hnone.
  { intros p s [H|(q & H & _)]; cbn in H; rewrite lookup_empty in H; discriminate. }
  constructor.
  - intros p s H. destruct (Hnone p s H).
  - intros p s H. destruct (Hnone p s H).
  - intros p1 s1 p2 s2 H. destruct (Hnone p1 s1 H).
Qed.

(** free keeps the size of the pointer it moves. *)
Lemma tracked_size_free (self : bsal_memory_pool) p size x s :
  allocated_blocks self !! p = Some size ->
  tracked_size
    (set_allocated_blocks (delete p (allocated_blocks self))
       (set_recycle_bin
          (<[size := default [] (recycle_bin self !! size) ++ [p]]> (recycle_bin self))
          self)) x s ->
  tracked_size self x s.
Proof.
  intros Hp [H|(q & Hq & Hx)]; cbn in *.
  - apply lookup_delete_Some in H as [_ H]. left. exact H.
  - destruct (decide (size = s)) as [<-|Hne].
    + rewrite lookup_insert_eq in Hq. injection Hq as <-.
      apply elem_of_app in Hx as [Hx|Hx].
      * right. destruct (recycle_bin self !! size) as [q0|] eqn:Hq0; cbn in Hx;
          [exists q0; auto | inversion Hx].
      * apply list_elem_of_singleton in Hx as ->. left. exact Hp.
    + rewrite lookup_insert_ne in Hq by exact Hne. right. exists q. auto.
Qed.

(** allocate recycles a pointer with the size under which it was freed. *)
Lemma tracked_size_recycle (self : bsal_memory_pool) k p rest bin' x s :
  recycle_bin self !! k = Some (p :: rest) ->
  bin' = <[k := rest]> (recycle_bin self) \/
    (rest = [] /\ bin' = delete k (recycle_bin self)) ->
  ~ in_use self p ->
  tracked_size
    (set_recycle_bin bin'
       (set_allocated_blocks (<[p := k]> (allocated_blocks self)) self)) x s ->
  tracked_size self x s.
Proof.
  intros Hk Hbin' Hnot [H|(q & Hq & Hx)]; cbn in *.
  - destruct (decide (p = x)) as [<-|Hne].
    + rewrite lookup_insert_eq in H. injection H as <-.
      right. exists (p :: rest). split; [exact Hk | apply list_elem_of_here].
    + rewrite lookup_insert_ne in H by exact Hne. left. exact H.
  - right. destruct (decide (k = s)) as [<-|Hne].
    + exists (p :: rest). split; [exact Hk|]. apply list_elem_of_further.
      destruct Hbin' as [->|[-> ->]].
      * rewrite lookup_insert_eq in Hq. injection Hq as <-. exact Hx.
      * rewrite lookup_delete_eq in Hq. discriminate.
    + exists q. split; [|exact Hx]. destruct Hbin' as [->|[_ ->]].
      * rewrite lookup_insert_ne in Hq by exact Hne. exact Hq.
      * rewrite lookup_delete_ne in Hq by exact Hne. exact Hq.
Qed.

(** The ranges after bytes were taken from a block. *)
Lemma range_invariant_bump (self self' : bsal_memory_pool) b others size :
  pool_invariant self ->
  range_invariant self ->
  0 < size ->
  all_blocks self' ≡ₚ bumped b size :: others ->
  (all_blocks self ≡ₚ b :: others \/
   (all_blocks self ≡ₚ others /\ region_free self (memory b) /\
    offset b = 0 /\ total_bytes b = block_size self)) ->
  offset b + size <= total_bytes b ->
  recycle_bin self' = recycle_bin self ->
  allocated_blocks self' = <[memory b + offset b := size]> (allocated_blocks self) ->
  range_invariant self'.
Proof.
  intros Hinv [Hpos Hin Hapart] Hsize Hnew Hold Hfit Hbin Halloc.
  pose proof (inv_block_size _ Hinv) as Hbspos.
  assert (forall x, x ∈ others -> x ∈ all_blocks self) as Hothers.
  { intros x Hx. destruct Hold as [Hp|[Hp _]]; rewrite Hp; [apply list_elem_of_further|]; exact Hx. }
  assert (forall x, x ∈ all_blocks self -> x = b \/ x ∈ others) as Hcases.
  { intros x Hx. destruct Hold as [Hp|[Hp _]]; rewrite Hp in Hx.
    - apply elem_of_cons in Hx. exact Hx.
    - right. exact Hx. }
  assert (0 < memory b /\ total_bytes b = block_size self /\ 0 <= offset b) as (Hbm & Hbt & Hbo).
  { destruct Hold as [Hp|(_ & [Ha _] & Ho & Ht)].
    - assert (b ∈ all_blocks self) as Hb by (rewrite Hp; apply list_elem_of_here).
      destruct (inv_blocks_bounds _ Hinv b Hb) as (? & ? & ? & ?). auto.
    - split; [exact Ha|]. split; [exact Ht | lia]. }
  assert (forall x, x ∈ others -> apart b x) as Hbapart.
  { intros x Hx. pose proof (Hothers x Hx) as Hxold.
    destruct (inv_blocks_bounds _ Hinv x Hxold) as (Hxm & Hxt & Hxo).
    destruct Hold as [Hp|(_ & [_ Hfree] & _ & _)].
    - apply (inv_blocks_apart _ Hinv); [rewrite Hp; apply list_elem_of_here | exact Hxold |].
      pose proof (inv_blocks_nodup _ Hinv) as Hnd. rewrite Hp in Hnd. cbn in Hnd.
      apply NoDup_cons in Hnd as [Hnotin _]. intros E. apply Hnotin. rewrite E.
      apply list_elem_of_fmap_2. exact Hx.
    - destruct (Hfree x Hxold) as [H|H]; unfold apart; lia. }
  (* where an old tracked range lies with respect to the new pointer *)
  assert (forall x s, tracked_size self x s ->
            x + s <= memory b + offset b \/ memory b + offset b + size <= x) as Hold_apart.
  { intros x s Hx. destruct (Hin x s Hx) as (blk & Hblk & Hlo & Hhi).
    pose proof (Hpos x s Hx) as Hs.
    destruct (inv_blocks_bounds _ Hinv blk Hblk) as (Hxm & Hxt & Hxo).
    destruct (Hcases blk Hblk) as [->|Hblk']; [left; lia|].
    destruct (Hbapart blk Hblk') as [H|H]; [right; lia | left; lia]. }
  assert (forall x s, tracked_size self' x s ->
            (x = memory b + offset b /\ s = size) \/
            (x <> memory b + offset b /\ tracked_size self x s)) as Hnew_tracked.
  { intros x s [H|(q & Hq & Hx)].
    - rewrite Halloc in H. destruct (decide (memory b + offset b = x)) as [<-|Hne].
      + rewrite lookup_insert_eq in H. injection H as <-. left. auto.
      + rewrite lookup_insert_ne in H by exact Hne. right. split; [congruence | left; exact H].
    - rewrite Hbin in Hq. right.
      assert (tracked_size self x s) as Ht by (right; exists q; auto).
      split; [|exact Ht]. intros ->. pose proof (Hpos _ _ Ht).
      destruct (Hold_apart _ _ Ht); lia. }
  constructor.
  - intros p s H. destruct (Hnew_tracked p s H) as [[_ ->]|[_ H']]; [exact Hsize | exact (Hpos p s H')].
  - intros p s H. destruct (Hnew_tracked p s H) as [[-> ->]|[_ H']].
    + exists (bumped b size). split; [rewrite Hnew; apply list_elem_of_here|]. cbn. lia.
    + destruct (Hin p s H') as (blk & Hblk & Hlo & Hhi).
      destruct (Hcases blk Hblk) as [->|Hblk'].
      * exists (bumped b size). split; [rewrite Hnew; apply list_elem_of_here|]. cbn. lia.
      * exists blk. split; [rewrite Hnew; apply list_elem_of_further; exact Hblk' | lia].
  - intros p1 s1 p2 s2 H1 H2 Hne.
    destruct (Hnew_tracked p1 s1 H1) as [[-> ->]|[Hn1 H1']];
      destruct (Hnew_tracked p2 s2 H2) as [[-> ->]|[Hn2 H2']].
    + contradiction.
    + destruct (Hold_apart _ _ H2'); [right | left]; lia.
    + destruct (Hold_apart _ _ H1'); [left | right]; lia.
    + exact (Hapart p1 s1 p2 s2 H1' H2' Hne).
Qed.

(** One public allocate keeps the ranges apart, and records the pointer
    it hands out for a size below block_size with that size. *)
Lemma range_invariant_allocate d sys (self : bsal_memory_pool) size size' pointer sys' self' :
  pool_invariant self ->
  range_invariant self ->
  0 <= size ->
  system_fresh sys self ->
  requested_size (Some self) size = Some size' ->
  bsal_memory_pool_allocate d sys (Some self) size = Returned pointer sys' (Some self') ->
  range_invariant self' /\
  (size' < to_size_t (block_size self) -> allocated_blocks self' !! pointer = Some size').
Proof.
  intros Hinv Hranges Hsize Hfresh Hreq Hcall.
  pose proof (requested_size_nonneg _ _ _ Hsize Hreq) as Hsize'.
  pose proof (inv_block_size _ Hinv) as Hbs.
  assert (to_size_t (block_size self) = block_size self) as Hcast
    by (apply to_size_t_small; lia).
  unfold bsal_memory_pool_allocate in Hcall. rewrite Hreq in Hcall.
  destruct (bsal_memory_pool_allocate_private d sys (Some self) size')
    as [[ptr sys1] self1] eqn:Hpriv.
  destruct (Z.eqb_spec ptr NULL) as [|Hnull]; [discriminate|].
  injection Hcall as -> -> ->.
  unfold bsal_memory_pool_allocate_private in Hpriv.
  destruct (Z.eqb_spec size' 0) as [|Hnz]; [injection Hpriv as <- _ _; contradiction|].
  rewrite (inv_enabled _ Hinv) in Hpriv.
  destruct (Z.geb_spec size' (to_size_t (block_size self))) as [Hlarge|Hsmall].
  - destruct (bsal_memory_allocate sys size') as [p sys2].
    injection Hpriv as <- <- <-.
    split; [|lia]. apply (range_invariant_transfer self); auto.
  - assert (0 < size' < block_size self) as Hrange by lia.
    assert (0 < size') as Hpos by lia.
    assert (size_key size' = size') as Hkey by (apply size_key_small; lia).
    destruct (allocate_in_pool d sys self size') as [[p sys2] pool2] eqn:Hin.
    injection Hpriv as -> -> <-.
    unfold allocate_in_pool in Hin. rewrite (inv_tracking _ Hinv) in Hin.
    rewrite Hkey in Hin.
    assert (forall sys2 pool2,
              allocate_from_blocks sys self size' = (pointer, sys2, pool2) ->
              range_invariant pool2 /\ allocated_blocks pool2 !! pointer = Some size')
      as Hblocks.
    { intros sys3 pool3 Hfrom.
      destruct (allocate_from_blocks_spec _ _ _ _ _ _ Hinv Hfresh Hrange Hfrom Hnull)
        as (b & others & H1 & H2 & H3 & H4 & H5 & H6 & H7 & H8 & H9).
      rewrite Hkey in H7. subst pointer.
      split; [|rewrite H7; apply lookup_insert_eq].
      exact (range_invariant_bump self pool3 b others size' Hinv Hranges Hpos H1 H2 H3 H6 H7). }
    destruct (recycle_bin self !! size') as [[|p0 rest]|] eqn:Hqueue.
    + destruct (Hblocks _ _ Hin) as [H1 H2]. split; [exact H1 | intros _; exact H2].
    + injection Hin as Hp0 _ Hpool. subst p0 pool2.
      split; [|intros _; cbn; apply lookup_insert_eq].
      apply (range_invariant_transfer self); [exact Hranges | | auto].
      intros x s. apply (tracked_size_recycle self size' pointer rest); [exact Hqueue | |].
      * destruct d; cbn [andb]; [|left; reflexivity].
        destruct (decide (rest = [])) as [->|Hne].
        -- right. split; reflexivity.
        -- left. rewrite bool_decide_eq_false_2 by exact Hne. reflexivity.
      * intros Hu. apply (inv_exclusive _ Hinv pointer Hu).
        exists size', (pointer :: rest). split; [exact Hqueue | apply list_elem_of_here].
    + destruct (Hblocks _ _ Hin) as [H1 H2]. split; [exact H1 | intros _; exact H2].
Qed.

Lemma range_invariant_free sys (self : bsal_memory_pool) pointer sys' self' :
  pool_invariant self ->
  range_invariant self ->
  bsal_memory_pool_free sys (Some self) pointer = (sys', Some self') ->
  range_invariant self'.
Proof.
  intros Hinv Hranges Hcall. unfold bsal_memory_pool_free in Hcall.
  destruct (pointer =? NULL); [injection Hcall as _ <-; exact Hranges|].
  rewrite (inv_enabled _ Hinv), (inv_tracking _ Hinv) in Hcall. cbn [negb] in Hcall.
  destruct (bool_decide (pointer ∈ large_blocks self)).
  { injection Hcall as _ <-. apply (range_invariant_transfer self); auto. }
  destruct (allocated_blocks self !! pointer) as [size|] eqn:Hmap;
    [|injection Hcall as _ <-; exact Hranges].
  injection Hcall as _ <-.
  apply (range_invariant_transfer self); [exact Hranges | | auto].
  intros x s. apply tracked_size_free. exact Hmap.
Qed.

Lemma reachable_ranges d (self : bsal_memory_pool) handed :
  reachable d self handed -> range_invariant self.
Proof.
  induction 1 as [bs Hbs
                 |self handed sys size size' pointer sys' self' Hreach IH Hsize Hfresh Hreq Hcall
                 |self handed sys pointer sys' self' Hreach IH Hcall
                 |self handed Hreach IH
                 |self handed Hreach IH].
  - apply range_invariant_init.
  - destruct (reachable_invariant _ _ _ Hreach) as [Hinv _].
    exact (proj1 (range_invariant_allocate _ _ _ _ _ _ _ _ Hinv IH (proj1 Hsize) Hfresh Hreq Hcall)).
  - destruct (reachable_invariant _ _ _ Hreach) as [Hinv _].
    exact (range_invariant_free _ _ _ _ _ Hinv IH Hcall).
  - apply (range_invariant_transfer self); auto.
  - apply (range_invariant_transfer self); auto.
Qed.

(** X16.  Live allocations do not overlap.  In every pool reached from
    init by allocate and free (on a system that answers block requests
    with fresh memory), the bytes of two different tracked pointers, in
    use or waiting in the recycle bin, do not overlap, and the bytes of
    each tracked pointer lie inside one block of the pool. *)
Theorem live_allocations_do_not_overlap d (self : bsal_memory_pool) handed :
  reachable d self handed ->
  (forall p1 s1 p2 s2,
     tracked_size self p1 s1 -> tracked_size self p2 s2 -> p1 <> p2 ->
     p1 + s1 <= p2 \/ p2 + s2 <= p1) /\
  (forall p s,
     tracked_size self p s ->
     0 < s /\
     exists b, b ∈ all_blocks self /\
               memory b <= p /\ p + s <= memory b + total_bytes b).
Proof.
  intros Hreach. destruct (reachable_invariant _ _ _ Hreach) as [Hinv _].
  destruct (reachable_ranges _ _ _ Hreach) as [Hpos Hin Hapart].
  split; [exact Hapart|]. intros p s H. split; [exact (Hpos p s H)|].
  destruct (Hin p s H) as (b & Hb & Hlo & Hhi).
  destruct (inv_blocks_bounds _ Hinv b Hb) as (_ & _ & Ho).
  exists b. split; [exact Hb|]. lia.
Qed.

(** X17.  allocate hands out bytes of its own.  On a reachable pool, the
    pointer returned for a size below block_size is recorded in the
    allocated-blocks map with the size that was asked for (after
    normalization), whether it was recycled or taken from a block, and
    its bytes overlap the bytes of no other tracked pointer. *)
Theorem allocated_bytes_are_exclusive d sys (self : bsal_memory_pool) handed
    size size' pointer sys' self' :
  reachable d self handed ->
  0 <= size < 2 ^ 64 ->
  system_fresh sys self ->
  requested_size (Some self) size = Some size' ->
  size' < to_size_t (block_size self) ->
  bsal_memory_pool_allocate d sys (Some self) size = Returned pointer sys' (Some self') ->
  allocated_blocks self' !! pointer = Some size' /\
  forall p s, tracked_size self' p s -> p <> pointer ->
              p + s <= pointer \/ pointer + size' <= p.
Proof.
  intros Hreach Hsize Hfresh Hreq Hsmall Hcall.
  destruct (reachable_invariant _ _ _ Hreach) as [Hinv _].
  pose proof (reachable_ranges _ _ _ Hreach) as Hranges.
  destruct (range_invariant_allocate _ _ _ _ _ _ _ _ Hinv Hranges (proj1 Hsize) Hfresh Hreq Hcall)
    as [Hranges' Hrecord].
  specialize (Hrecord Hsmall). split; [exact Hrecord|].
  intros p s Hp Hne.
  apply (ranges_apart _ Hranges' p s pointer size' Hp); [left; exact Hrecord | exact Hne].
Qed.

End RangeFacts.

Section RangeExamples.
Import MemoryPool.

Lemma live_allocations_do_not_overlap_witness :
  reachable false example_pool_freed ({[8192]} ∪ ({[4096]} ∪ ∅)) /\
  (4096 + 48 <= 8192 \/ 8192 + 48 <= 4096).
Proof.
  split; [exact example_pool_freed_reachable|].
  apply (proj1 (live_allocations_do_not_overlap false example_pool_freed _
                  example_pool_freed_reachable) 4096 48 8192 48).
  - right. exists [4096]. split; [reflexivity | apply list_elem_of_here].
  - left. reflexivity.
  - lia.
Defined.

Lemma allocated_bytes_are_exclusive_witness :
  reachable false example_pool_freed ({[8192]} ∪ ({[4096]} ∪ ∅)) /\
  (8192 + 48 <= 4096 \/ 4096 + 48 <= 8192).
Proof.
  split; [exact example_pool_freed_reachable|].
  pose (after := set_recycle_bin (<[48 := []]> (recycle_bin example_pool_freed))
                   (set_allocated_blocks
                      (<[4096 := 48]> (allocated_blocks example_pool_freed))
                      example_pool_freed)).
  assert (system_fresh example_system example_pool_freed) as Hfresh.
  { unfold system_fresh. cbn [sys_answers example_system].
    repeat apply Forall_cons_2; try apply Forall_nil_2.
    split; [lia|]. intros blk Hb. cbn in Hb.
    repeat (apply elem_of_cons in Hb as [->|Hb]; [cbn; lia|]). inversion Hb. }
  assert (0 <= 48 < 2 ^ 64) as Hsize by lia.
  assert (48 < to_size_t (block_size example_pool_freed)) as Hsmall
    by (vm_compute; reflexivity).
  assert (bsal_memory_pool_allocate false example_system (Some example_pool_freed) 48 =
          Returned 4096 example_system (Some after)) as Hcall
    by (vm_compute; reflexivity).
  destruct (allocated_bytes_are_exclusive false example_system example_pool_freed _
              48 48 4096 example_system after
              example_pool_freed_reachable Hsize Hfresh eq_refl Hsmall Hcall) as [_ H].
  apply (H 8192 48); [left; reflexivity | lia].
Defined.

End RangeExamples.

(** ** Red-black tree: search, lowest key and comparators *)

Section TreeSearchFacts.
Import RedBlackTree.

Lemma get_loop_stops magnitude fuel m (self : bsal_red_black_tree) key node value :
  node = NULL \/ value <> NULL ->
  get_loop magnitude fuel m self key node value = Some (node, value).
Proof.
  intros H.
  assert (negb (node =? NULL) && (value =? NULL) = false) as Hc.
  { destruct H as [->|H]; [reflexivity|].
    destruct (Z.eqb_spec value NULL) as [E|_]; [contradiction|].
    apply andb_false_r. }
  destruct fuel; cbn [get_loop]; rewrite Hc; reflexivity.
Qed.

(** Where the search stops: at NULL without a value, or on a node whose
    key compares equal, with the value of that node. *)
Lemma get_loop_result magnitude fuel m (self : bsal_red_black_tree) key node node' value' :
  get_loop magnitude fuel m self key node NULL = Some (node', value') ->
  (node' = NULL /\ value' = NULL) \/
  (node' <> NULL /\ value' <> NULL /\
   exists n, nodes m !! node' = Some n /\
             bsal_red_black_tree_compare magnitude m self key (RedBlackTree.key n) = Some 0 /\
             RedBlackTree.value n = value').
Proof.
  revert node. induction fuel as [|fuel IH]; intros node H.
  - cbn [get_loop] in H. destruct (Z.eqb_spec node NULL) as [E|Hn].
    + injection H as <- <-. left. auto.
    + discriminate.
  - cbn [get_loop] in H. destruct (Z.eqb_spec node NULL) as [E|Hn].
    + injection H as <- <-. left. auto.
    + cbn in H. destruct (nodes m !! node) as [n|] eqn:Hnode; [|discriminate].
      cbn in H.
      destruct (bsal_red_black_tree_compare magnitude m self key (RedBlackTree.key n))
        as [result|] eqn:Hcmp; [|discriminate].
      cbn in H. destruct (Z.ltb_spec result 0) as [Hlt|Hge]; [exact (IH _ H)|].
      destruct (Z.gtb_spec result 0) as [Hgt|Hle]; [exact (IH _ H)|].
      assert (result = 0) as -> by lia.
      destruct (Z.eq_dec (RedBlackTree.value n) NULL) as [E|E].
      * rewrite E in H. exact (IH _ H).
      * rewrite get_loop_stops in H by (right; exact E).
        injection H as <- <-. right. split; [exact Hn|]. split; [exact E|].
        exists n. auto.
Qed.

(** X18.  What get answers.  A value that is not NULL is the value of the
    node that the last-node cache holds afterwards, and that node either
    has the very key buffer that was passed (the shortcut compares the
    addresses) or a key that compares equal to it.  A search that finds
    nothing leaves the cache at NULL.  Nothing but the cache is written. *)
Theorem get_answers_from_cached_node magnitude fuel m (self : bsal_red_black_tree) key v self' :
  bsal_red_black_tree_get magnitude fuel m self key = Some (v, self') ->
  self' = set_cached_last_node (cached_last_node self') self /\
  (v <> NULL ->
   cached_last_node self' <> NULL /\
   exists n, nodes m !! cached_last_node self' = Some n /\
             RedBlackTree.value n = v /\
             (RedBlackTree.key n = key \/
              bsal_red_black_tree_compare magnitude m self key (RedBlackTree.key n) = Some 0)) /\
  (v = NULL -> self' = self \/ cached_last_node self' = NULL).
Proof.
  unfold bsal_red_black_tree_get. intros H.
  assert (forall node value,
            get_loop magnitude fuel m self key (root self) NULL = Some (node, value) ->
            Some (value, set_cached_last_node node self) = Some (v, self') ->
            self' = set_cached_last_node (cached_last_node self') self /\
            (v <> NULL ->
             cached_last_node self' <> NULL /\
             exists n, nodes m !! cached_last_node self' = Some n /\
                       RedBlackTree.value n = v /\
                       (RedBlackTree.key n = key \/
                        bsal_red_black_tree_compare magnitude m self key (RedBlackTree.key n) = Some 0)) /\
            (v = NULL -> self' = self \/ cached_last_node self' = NULL)) as Hsearch.
  { intros node value Hloop Hret. injection Hret as -> <-.
    split; [reflexivity|]. cbn [cached_last_node set_cached_last_node].
    destruct (get_loop_result _ _ _ _ _ _ _ _ Hloop) as [[-> ->]|(Hn & Hv & n & Hnode & Hcmp & Hval)].
    - split; [intros E; contradiction | intros _; right; reflexivity].
    - split; [|intros E; contradiction]. intros _. split; [exact Hn|].
      exists n. auto. }
  destruct (Z.eqb_spec (cached_last_node self) NULL) as [Hnull|Hcached].
  - cbn in H. destruct (get_loop magnitude fuel m self key (root self) NULL) as [[node value]|] eqn:Hloop;
      [|discriminate].
    exact (Hsearch node value eq_refl H).
  - cbn in H. destruct (nodes m !! cached_last_node self) as [last|] eqn:Hlast; [|discriminate].
    cbn in H. destruct (Z.eqb_spec (RedBlackTree.key last) key) as [Hkey|Hkey].
    + injection H as <- <-. split; [destruct self; reflexivity|].
      split; [|intros _; left; reflexivity].
      intros _. split; [exact Hcached|]. exists last. auto.
    + destruct (get_loop magnitude fuel m self key (root self) NULL) as [[node value]|] eqn:Hloop;
        [|discriminate].
      exact (Hsearch node value eq_refl H).
Qed.

(** X19.  get twice.  Whatever get answered, the same get on the tree it
    left answers the same and leaves that tree as it is. *)
Theorem get_twice magnitude fuel m (self : bsal_red_black_tree) key v self' :
  bsal_red_black_tree_get magnitude fuel m self key = Some (v, self') ->
  bsal_red_black_tree_get magnitude fuel m self' key = Some (v, self').
Proof.
  intros H. pose proof H as H0. unfold bsal_red_black_tree_get in H.
  assert (forall node value,
            get_loop magnitude fuel m self key (root self) NULL = Some (node, value) ->
            Some (value, set_cached_last_node node self) = Some (v, self') ->
            bsal_red_black_tree_get magnitude fuel m self' key = Some (v, self')) as Hsearch.
  { intros node value Hloop Hret. injection Hret as -> <-.
    unfold bsal_red_black_tree_get. cbn [cached_last_node set_cached_last_node].
    change (root (set_cached_last_node node self)) with (root self).
    assert (get_loop magnitude fuel m (set_cached_last_node node self) key
              (root self) NULL = Some (node, v)) as Hloop'.
    { rewrite (get_loop_after_delete magnitude fuel m self (set_cached_last_node node self))
        by reflexivity. exact Hloop. }
    destruct (get_loop_result _ _ _ _ _ _ _ _ Hloop) as [[-> ->]|(Hn & Hv & n & Hnode & Hcmp & Hval)].
    - cbn. rewrite Hloop'. reflexivity.
    - destruct (Z.eqb_spec node NULL) as [E|_]; [contradiction|].
      cbn. rewrite Hnode. cbn.
      destruct (RedBlackTree.key n =? key).
      + rewrite Hval. reflexivity.
      + rewrite Hloop'. reflexivity. }
  destruct (Z.eqb_spec (cached_last_node self) NULL) as [Hnull|Hcached].
  - cbn in H. destruct (get_loop magnitude fuel m self key (root self) NULL) as [[node value]|] eqn:Hloop;
      [|discriminate].
    exact (Hsearch node value eq_refl H).
  - cbn in H. destruct (nodes m !! cached_last_node self) as [last|] eqn:Hlast; [|discriminate].
    cbn in H. destruct (Z.eqb_spec (RedBlackTree.key last) key) as [Hkey|Hkey].
    + injection H as <- <-. exact H0.
    + destruct (get_loop magnitude fuel m self key (root self) NULL) as [[node value]|] eqn:Hloop;
        [|discriminate].
      exact (Hsearch node value eq_refl H).
Qed.

(** X20.  From the lowest key to its value without a search.  When the
    lowest-key cache is set, get_lowest_key returns the key buffer of the
    cached node and primes the last-node cache, so that a get with the
    returned key answers the value of that node at once: it needs no
    step of the search loop and leaves the tree as it is. *)
Theorem lowest_key_then_get magnitude fuel m (self : bsal_red_black_tree) lowest_key self' :
  cached_lowest_node self <> NULL ->
  bsal_red_black_tree_get_lowest_key fuel m self = Some (lowest_key, self') ->
  exists lowest,
    nodes m !! cached_lowest_node self = Some lowest /\
    lowest_key = RedBlackTree.key lowest /\
    self' = set_cached_last_node (cached_lowest_node self) self /\
    bsal_red_black_tree_get magnitude 0 m self' lowest_key = Some (RedBlackTree.value lowest, self').
Proof.
  intros Hcache H. unfold bsal_red_black_tree_get_lowest_key in H.
  destruct (Z.eqb_spec (cached_lowest_node self) NULL) as [E|_]; [contradiction|].
  cbn in H. destruct (nodes m !! cached_lowest_node self) as [lowest|] eqn:Hnode; [|discriminate].
  injection H as <- <-. exists lowest. split; [reflexivity|]. split; [reflexivity|].
  split; [reflexivity|].
  unfold bsal_red_black_tree_get. cbn [cached_last_node set_cached_last_node].
  destruct (Z.eqb_spec (cached_lowest_node self) NULL) as [E|_]; [contradiction|].
  cbn. rewrite Hnode. cbn. rewrite Z.eqb_refl. reflexivity.
Qed.

Lemma in_order_null fuel m : in_order fuel m NULL = Some [].
Proof. destruct fuel; reflexivity. Qed.

Lemma in_order_step fuel m node :
  node <> NULL ->
  in_order (S fuel) m node =
    (n ← nodes m !! node;
     lower ← in_order fuel m (left_node n);
     higher ← in_order fuel m (right_node n);
     Some (lower ++ node :: higher)).
Proof.
  intros Hn. cbn [in_order]. destruct (Z.eqb_spec node NULL) as [E|_]; [contradiction|].
  reflexivity.
Qed.

Lemma in_order_inv fuel m node l :
  node <> NULL ->
  in_order fuel m node = Some l ->
  exists fuel' n lower higher,
    fuel = S fuel' /\ nodes m !! node = Some n /\
    in_order fuel' m (left_node n) = Some lower /\
    in_order fuel' m (right_node n) = Some higher /\
    l = lower ++ node :: higher.
Proof.
  intros Hn H. destruct fuel as [|fuel].
  - cbn in H. destruct (Z.eqb_spec node NULL) as [E|_]; [contradiction | discriminate].
  - rewrite in_order_step in H by exact Hn.
    destruct (nodes m !! node) as [n|] eqn:Hnode; [|discriminate]. cbn in H.
    destruct (in_order fuel m (left_node n)) as [lower|] eqn:Hl; [|discriminate]. cbn in H.
    destruct (in_order fuel m (right_node n)) as [higher|] eqn:Hh; [|discriminate]. cbn in H.
    injection H as <-. exists fuel, n, lower, higher. auto.
Qed.

Lemma lowest_loop_first fuel m node first rest :
  node <> NULL ->
  in_order fuel m node = Some (first :: rest) ->
  exists n, nodes m !! first = Some n /\
            lowest_loop fuel m node = Some (RedBlackTree.key n).
Proof.
  revert node first rest. induction fuel as [|fuel IH]; intros node first rest Hn H.
  - cbn in H. destruct (Z.eqb_spec node NULL) as [E|_]; [contradiction | discriminate].
  - destruct (in_order_inv _ _ _ _ Hn H) as (fuel' & n & lower & higher & Hf & Hnode & Hl & Hh & Hlist).
    injection Hf as <-. cbn [lowest_loop]. rewrite Hnode. cbn.
    destruct (Z.eqb_spec (left_node n) NULL) as [Hleft|Hleft].
    + rewrite Hleft, in_order_null in Hl. injection Hl as <-.
      cbn in Hlist. injection Hlist as -> _. exists n. auto.
    + destruct lower as [|a lower'].
      * destruct (in_order_inv _ _ _ _ Hleft Hl) as (_ & _ & l1 & l2 & _ & _ & _ & _ & E).
        destruct l1; discriminate.
      * cbn in Hlist. injection Hlist as -> _.
        exact (IH _ _ _ Hleft Hl).
Qed.

(** X21.  The lowest key without the cache.  When the lowest-key cache is
    NULL, get_lowest_key walks the left links from the root: on an empty
    tree it answers NULL, otherwise the key buffer of the first node in
    order; the tree is not written. *)
Theorem lowest_key_is_first_in_order fuel m (self : bsal_red_black_tree) l :
  cached_lowest_node self = NULL ->
  in_order fuel m (root self) = Some l ->
  match l with
  | [] => bsal_red_black_tree_get_lowest_key fuel m self = Some (NULL, self)
  | first :: _ =>
      exists n, nodes m !! first = Some n /\
                bsal_red_black_tree_get_lowest_key fuel m self =
                  Some (RedBlackTree.key n, self)
  end.
Proof.
  intros Hcache H. unfold bsal_red_black_tree_get_lowest_key. rewrite Hcache.
  change (negb (NULL =? NULL)) with false. cbv iota.
  destruct (Z.eqb_spec (root self) NULL) as [Hroot|Hroot].
  - rewrite Hroot, in_order_null in H. injection H as <-. reflexivity.
  - destruct l as [|first rest].
    + destruct (in_order_inv _ _ _ _ Hroot H) as (_ & _ & l1 & l2 & _ & _ & _ & _ & E).
      destruct l1; discriminate.
    + destruct (lowest_loop_first _ _ _ _ _ Hroot H) as (n & Hn & Hloop).
      exists n. split; [exact Hn|]. rewrite Hloop. reflexivity.
Qed.

Lemma first_difference_swap bytes1 bytes2 n result :
  first_difference bytes1 bytes2 n = Some result ->
  first_difference bytes2 bytes1 n = Some (- result) /\
  (result = -1 \/ result = 0 \/ result = 1).
Proof.
  revert bytes1 bytes2. induction n as [|n IH]; intros bytes1 bytes2 H.
  - destruct bytes1, bytes2; simpl in *; injection H as <-; (split; [reflexivity | lia]).
  - destruct bytes1 as [|b1 rest1]; [destruct bytes2; discriminate|].
    destruct bytes2 as [|b2 rest2]; [discriminate|]. simpl in *.
    destruct (Z.ltb_spec b1 b2) as [Hlt|Hge].
    + injection H as <-. destruct (Z.ltb_spec b2 b1); [lia|].
      split; [reflexivity | lia].
    + destruct (Z.ltb_spec b2 b1) as [Hlt|Hge'].
      * injection H as <-. split; [reflexivity | lia].
      * exact (IH _ _ H).
Qed.

Lemma first_difference_trans bytes1 bytes2 bytes3 n result12 result23 :
  first_difference bytes1 bytes2 n = Some result12 ->
  first_difference bytes2 bytes3 n = Some result23 ->
  result12 <= 0 -> result23 <= 0 ->
  exists result13,
    first_difference bytes1 bytes3 n = Some result13 /\ result13 <= 0 /\
    (result13 = 0 <-> result12 = 0 /\ result23 = 0).
Proof.
  revert bytes1 bytes2 bytes3. induction n as [|n IH]; intros bytes1 bytes2 bytes3 H12 H23 Hle12 Hle23.
  - destruct bytes1, bytes2, bytes3; simpl in *; injection H12 as <-; injection H23 as <-;
      exists 0; (split; [reflexivity | lia]).
  - destruct bytes1 as [|b1 rest1]; [discriminate|].
    destruct bytes2 as [|b2 rest2]; [discriminate|].
    destruct bytes3 as [|b3 rest3]; [discriminate|]. simpl in *.
    destruct (Z.ltb_spec b1 b2) as [Hlt12|Hge12].
    + injection H12 as <-.
      destruct (Z.ltb_spec b2 b3) as [Hlt23|Hge23].
      * destruct (Z.ltb_spec b1 b3); [|lia]. exists (-1). split; [reflexivity|]. lia.
      * destruct (Z.ltb_spec b3 b2) as [Hlt32|Hge32]; [injection H23 as <-; lia|].
        destruct (Z.ltb_spec b1 b3); [|lia]. exists (-1). split; [reflexivity|]. lia.
    + destruct (Z.ltb_spec b2 b1) as [Hlt21|Hge21]; [injection H12 as <-; lia|].
      assert (b1 = b2) as -> by lia.
      destruct (Z.ltb_spec b2 b3) as [Hlt23|Hge23].
      * injection H23 as <-. exists (-1). split; [reflexivity|]. lia.
      * destruct (Z.ltb_spec b3 b2) as [Hlt32|Hge32]; [injection H23 as <-; lia|].
        exact (IH _ _ _ H12 H23 Hle12 Hle23).
Qed.

(** What [memcmp] answers has the sign of the first difference. *)
Lemma memcmp_sign magnitude bytes1 bytes2 n result :
  memcmp magnitude bytes1 bytes2 n = Some result ->
  exists sign,
    first_difference bytes1 bytes2 n = Some sign /\
    result = sign * Z.pos (magnitude bytes1 bytes2 n) /\
    Z.sgn result = sign /\ (sign = -1 \/ sign = 0 \/ sign = 1).
Proof.
  unfold memcmp. intros H.
  destruct (first_difference bytes1 bytes2 n) as [sign|] eqn:Hsign; [|discriminate].
  cbn [mbind option_bind] in H. injection H as <-.
  destruct (first_difference_swap _ _ _ _ Hsign) as [_ Hrange].
  exists sign. split; [reflexivity|]. split; [reflexivity|]. split; [|exact Hrange].
  destruct Hrange as [-> | [-> | ->]]; reflexivity.
Qed.

Lemma memcmp_swap magnitude bytes1 bytes2 n result :
  memcmp magnitude bytes1 bytes2 n = Some result ->
  exists result',
    memcmp magnitude bytes2 bytes1 n = Some result' /\
    Z.sgn result' = - Z.sgn result.
Proof.
  intros H. destruct (memcmp_sign _ _ _ _ _ H) as (sign & Hsign & _ & Hsgn & Hrange).
  destruct (first_difference_swap _ _ _ _ Hsign) as [Hswap _].
  unfold memcmp. rewrite Hswap. cbn [mbind option_bind].
  eexists. split; [reflexivity|]. rewrite Hsgn.
  destruct Hrange as [-> | [-> | ->]]; reflexivity.
Qed.

Lemma memcmp_trans magnitude bytes1 bytes2 bytes3 n result12 result23 :
  memcmp magnitude bytes1 bytes2 n = Some result12 ->
  memcmp magnitude bytes2 bytes3 n = Some result23 ->
  result12 <= 0 -> result23 <= 0 ->
  exists result13,
    memcmp magnitude bytes1 bytes3 n = Some result13 /\ result13 <= 0 /\
    (result13 = 0 <-> result12 = 0 /\ result23 = 0).
Proof.
  intros H12 H23 Hle12 Hle23.
  destruct (memcmp_sign _ _ _ _ _ H12) as (sign12 & Hsign12 & -> & _ & Hrange12).
  destruct (memcmp_sign _ _ _ _ _ H23) as (sign23 & Hsign23 & -> & _ & Hrange23).
  destruct (first_difference_trans _ _ _ _ _ _ Hsign12 Hsign23) as (sign13 & Hsign13 & Hle13 & Hzero);
    [lia | lia |].
  destruct (first_difference_swap _ _ _ _ Hsign13) as [_ Hrange13].
  unfold memcmp. rewrite Hsign13. cbn [mbind option_bind].
  eexists. split; [reflexivity|]. split; [lia|]. lia.
Qed.

(** X22.  The comparators are antisymmetric.  With either comparator,
    when compare answers for two keys it also answers for the same keys
    in the other order, with the opposite sign, and with 0 for 0.  With
    compare_uint64_t the answers are -1, 0 or 1 and the second is the
    exact opposite of the first; compare_memory_content passes on what
    memcmp answers, of which only the sign is determined. *)
Theorem compare_is_antisymmetric magnitude m (self : bsal_red_black_tree) key1 key2 result :
  bsal_red_black_tree_compare magnitude m self key1 key2 = Some result ->
  exists result',
    bsal_red_black_tree_compare magnitude m self key2 key1 = Some result' /\
    Z.sgn result' = - Z.sgn result /\
    (result' = 0 <-> result = 0) /\
    (compare self = bsal_red_black_tree_compare_uint64_t ->
     result' = - result /\ (result = -1 \/ result = 0 \/ result = 1)).
Proof.
  unfold bsal_red_black_tree_compare. intros H.
  destruct (buffers m !! key1) as [bytes1|]; [|discriminate].
  destruct (buffers m !! key2) as [bytes2|]; [|discriminate].
  cbn -[read_unsigned memcmp] in *. destruct (compare self).
  - destruct (memcmp_swap _ _ _ _ _ H) as (result' & Hswap & Hsgn).
    exists result'. split; [exact Hswap|]. split; [exact Hsgn|].
    split; [lia | discriminate].
  - destruct (read_unsigned 8 bytes1) as [k1|]; [|discriminate].
    destruct (read_unsigned 8 bytes2) as [k2|]; [|discriminate].
    cbn -[read_unsigned memcmp] in *.
    destruct (Z.ltb_spec k1 k2), (Z.gtb_spec k1 k2), (Z.ltb_spec k2 k1), (Z.gtb_spec k2 k1);
      injection H as <-; try lia;
      (eexists; split; [reflexivity|]; split; [reflexivity|]; split; [lia|];
       intros _; split; [reflexivity | lia]).
Qed.

(** X23.  The comparators are transitive.  With either comparator, when
    the first key is not above the second and the second not above the
    third, compare answers for the first and the third, the first is not
    above the third, and they compare equal only when both pairs do. *)
Theorem compare_is_transitive magnitude m (self : bsal_red_black_tree) key1 key2 key3
    result12 result23 :
  bsal_red_black_tree_compare magnitude m self key1 key2 = Some result12 ->
  bsal_red_black_tree_compare magnitude m self key2 key3 = Some result23 ->
  result12 <= 0 -> result23 <= 0 ->
  exists result13,
    bsal_red_black_tree_compare magnitude m self key1 key3 = Some result13 /\
    result13 <= 0 /\
    (result13 = 0 <-> result12 = 0 /\ result23 = 0).
Proof.
  unfold bsal_red_black_tree_compare. intros H12 H23 Hle12 Hle23.
  destruct (buffers m !! key1) as [bytes1|]; [|discriminate].
  destruct (buffers m !! key2) as [bytes2|]; [|discriminate].
  destruct (buffers m !! key3) as [bytes3|]; [|discriminate].
  cbn -[read_unsigned memcmp] in *. destruct (compare self).
  - exact (memcmp_trans _ _ _ _ _ _ _ H12 H23 Hle12 Hle23).
  - destruct (read_unsigned 8 bytes1) as [k1|]; [|discriminate].
    destruct (read_unsigned 8 bytes2) as [k2|]; [|discriminate].
    destruct (read_unsigned 8 bytes3) as [k3|]; [|discriminate].
    cbn -[read_unsigned memcmp] in *.
    destruct (Z.ltb_spec k1 k2), (Z.gtb_spec k1 k2), (Z.ltb_spec k2 k3), (Z.gtb_spec k2 k3),
      (Z.ltb_spec k1 k3), (Z.gtb_spec k1 k3);
      injection H12 as <-; injection H23 as <-; try lia;
      eexists; (split; [reflexivity | lia]).
Qed.

End TreeSearchFacts.

Section TreeSearchExamples.
Import RedBlackTree.

Lemma get_answers_from_cached_node_witness :
  bsal_red_black_tree_get example_magnitude 2 example_memory example_tree 500 =
    Some (1200, set_cached_last_node 1000 example_tree) /\
  exists n, nodes example_memory !! 1000 = Some n /\
            RedBlackTree.value n = 1200 /\
            (RedBlackTree.key n = 500 \/
             bsal_red_black_tree_compare example_magnitude example_memory example_tree 500
               (RedBlackTree.key n) = Some 0).
Proof.
  assert (bsal_red_black_tree_get example_magnitude 2 example_memory example_tree 500 =
            Some (1200, set_cached_last_node 1000 example_tree)) as H
    by (vm_compute; reflexivity).
  split; [exact H|].
  destruct (get_answers_from_cached_node example_magnitude 2 example_memory example_tree 500 1200
              (set_cached_last_node 1000 example_tree) H) as (_ & Hfound & _).
  assert (1200 <> NULL) as Hv by (unfold NULL; lia).
  exact (proj2 (Hfound Hv)).
Defined.

Lemma get_twice_witness :
  bsal_red_black_tree_get example_magnitude 2 example_memory example_tree 500 =
    Some (1200, set_cached_last_node 1000 example_tree) /\
  bsal_red_black_tree_get example_magnitude 2 example_memory (set_cached_last_node 1000 example_tree) 500 =
    Some (1200, set_cached_last_node 1000 example_tree).
Proof.
  assert (bsal_red_black_tree_get example_magnitude 2 example_memory example_tree 500 =
            Some (1200, set_cached_last_node 1000 example_tree)) as H
    by (vm_compute; reflexivity).
  split; [exact H|].
  exact (get_twice example_magnitude 2 example_memory example_tree 500 1200
           (set_cached_last_node 1000 example_tree) H).
Defined.

Lemma lowest_key_then_get_witness :
  exists lowest,
    nodes example_memory !! cached_lowest_node example_tree = Some lowest /\
    1100 = RedBlackTree.key lowest /\
    set_cached_last_node 1000 example_tree =
      set_cached_last_node (cached_lowest_node example_tree) example_tree /\
    bsal_red_black_tree_get example_magnitude 0 example_memory (set_cached_last_node 1000 example_tree) 1100 =
      Some (RedBlackTree.value lowest, set_cached_last_node 1000 example_tree).
Proof.
  assert (cached_lowest_node example_tree <> NULL) as Hcache by (cbn; unfold NULL; lia).
  assert (bsal_red_black_tree_get_lowest_key 0 example_memory example_tree =
            Some (1100, set_cached_last_node 1000 example_tree)) as H
    by (vm_compute; reflexivity).
  exact (lowest_key_then_get example_magnitude 0 example_memory example_tree 1100
           (set_cached_last_node 1000 example_tree) Hcache H).
Defined.

Lemma lowest_key_is_first_in_order_witness :
  in_order 3 example_nodes (root example_rooted) = Some [1000; 2000; 3000; 4000; 5000] /\
  exists n, nodes example_nodes !! 1000 = Some n /\
            bsal_red_black_tree_get_lowest_key 3 example_nodes example_rooted =
              Some (RedBlackTree.key n, example_rooted).
Proof.
  assert (in_order 3 example_nodes (root example_rooted) =
            Some [1000; 2000; 3000; 4000; 5000]) as H by (vm_compute; reflexivity).
  split; [exact H|].
  exact (lowest_key_is_first_in_order 3 example_nodes example_rooted
           [1000; 2000; 3000; 4000; 5000] eq_refl H).
Defined.

Lemma compare_is_antisymmetric_witness :
  bsal_red_black_tree_compare example_magnitude example_nodes example_rooted 1100 2100 =
    Some (-2) /\
  exists result',
    bsal_red_black_tree_compare example_magnitude example_nodes example_rooted 2100 1100 =
      Some result' /\
    Z.sgn result' = - Z.sgn (-2) /\
    (result' = 0 <-> -2 = 0).
Proof.
  assert (bsal_red_black_tree_compare example_magnitude example_nodes example_rooted
            1100 2100 = Some (-2)) as H by (vm_compute; reflexivity).
  split; [exact H|].
  destruct (compare_is_antisymmetric example_magnitude example_nodes example_rooted
              1100 2100 (-2) H) as (result' & Hswap & Hsgn & Hzero & _).
  exists result'. split; [exact Hswap|]. split; [exact Hsgn | exact Hzero].
Defined.

Lemma compare_is_transitive_witness :
  exists result13,
    bsal_red_black_tree_compare example_magnitude example_nodes example_rooted 1100 3100 =
      Some result13 /\
    result13 <= 0 /\
    (result13 = 0 <-> -2 = 0 /\ -2 = 0).
Proof.
  apply (compare_is_transitive example_magnitude example_nodes example_rooted
           1100 2100 3100 (-2) (-2)).
  - vm_compute. reflexivity.
  - vm_compute. reflexivity.
  - lia.
  - lia.
Defined.

End TreeSearchExamples.

(** ** Red-black tree: rotations *)

Section RotationFacts.
Import RedBlackTree.

Lemma read_node_eq m address :
  address <> NULL -> read_node m address = nodes m !! address.
Proof.
  intros H. unfold read_node. destruct (Z.eqb_spec address NULL); [contradiction | reflexivity].
Qed.

Lemma write_node_eq m address f n :
  address <> NULL -> nodes m !! address = Some n ->
  write_node m address f = Some (Memory (<[address := f n]> (nodes m)) (buffers m)).
Proof.
  intros Ha Hn. unfold write_node. rewrite read_node_eq, Hn by exact Ha. reflexivity.
Qed.

Ltac lookups :=
  cbn [nodes buffers];
  repeat first [ rewrite lookup_insert_eq
               | rewrite lookup_insert_ne by congruence ];
  try reflexivity; try assumption.

(** What a left rotation around N writes: N, its right child D, the left
    child E of D and the parent G of N, and no other node. *)
Lemma rotate_left_spec m (self : bsal_red_black_tree) node n d :
  node <> NULL -> nodes m !! node = Some n ->
  right_node n <> NULL -> right_node n <> node ->
  nodes m !! right_node n = Some d ->
  (left_node d = NULL \/
   (left_node d <> node /\ left_node d <> right_node n /\
    is_Some (nodes m !! left_node d))) ->
  (parent n = NULL \/
   (parent n <> node /\ parent n <> right_node n /\ parent n <> left_node d /\
    is_Some (nodes m !! parent n))) ->
  exists m',
    bsal_red_black_tree_rotate_left m self node =
      Some (m', if parent n =? NULL then set_root (right_node n) self else self) /\
    buffers m' = buffers m /\
    nodes m' !! node =
      Some (set_parent (right_node n) (set_right_node (left_node d) n)) /\
    nodes m' !! right_node n =
      Some (set_parent (parent n) (set_left_node node d)) /\
    (left_node d <> NULL ->
     forall e, nodes m !! left_node d = Some e ->
               nodes m' !! left_node d = Some (set_parent node e)) /\
    (parent n <> NULL ->
     forall g, nodes m !! parent n = Some g ->
               nodes m' !! parent n =
                 Some (if left_node g =? node then set_left_node (right_node n) g
                       else set_right_node (right_node n) g)) /\
    (forall a, a <> node -> a <> right_node n ->
               (left_node d <> NULL -> a <> left_node d) ->
               (parent n <> NULL -> a <> parent n) ->
               nodes m' !! a = nodes m !! a).
Proof.
  intros HN Hn HD HDN Hd HE HG.
  assert (left_node d <> NULL -> left_node d <> node /\ left_node d <> right_node n) as HEd.
  { intros Hne. destruct HE as [HE|(HEN & HED & _)]; [contradiction | auto]. }
  unfold bsal_red_black_tree_rotate_left.
  rewrite (read_node_eq m node HN), Hn. cbn [mbind option_bind].
  rewrite (read_node_eq m _ HD), Hd. cbn [mbind option_bind].
  rewrite (write_node_eq m node _ n HN Hn). cbn [mbind option_bind].
  set (m1 := Memory (<[node := set_right_node (left_node d) n]> (nodes m)) (buffers m)).
  assert (exists m2,
            (if negb (left_node d =? NULL)
             then write_node m1 (left_node d) (set_parent node) else Some m1) = Some m2 /\
            buffers m2 = buffers m /\
            nodes m2 !! node = Some (set_right_node (left_node d) n) /\
            nodes m2 !! right_node n = Some d /\
            (left_node d <> NULL ->
             forall e, nodes m !! left_node d = Some e ->
                       nodes m2 !! left_node d = Some (set_parent node e)) /\
            (forall a, a <> node -> (left_node d <> NULL -> a <> left_node d) ->
                       nodes m2 !! a = nodes m !! a))
    as (m2 & -> & Hb2 & HN2 & HD2 & HE2 & Hrest2).
  { destruct (Z.eqb_spec (left_node d) NULL) as [HEnull|HEnull].
    - exists m1. cbn [negb].
      split; [reflexivity|]. split; [reflexivity|]. subst m1.
      split; [lookups|]. split; [lookups|].
      split; [intros Hne; contradiction|]. intros a Ha _. lookups.
    - destruct HE as [HE|(HEN & HED & [e He])]; [contradiction|].
      cbn [negb].
      rewrite (write_node_eq m1 (left_node d) _ e HEnull) by (subst m1; lookups).
      eexists. split; [reflexivity|]. subst m1. split; [reflexivity|].
      split; [lookups|]. split; [lookups|].
      split; [intros _ e' He'; lookups; congruence|].
      intros a Ha Hae. specialize (Hae HEnull). lookups. }
  cbn [mbind option_bind].
  rewrite (write_node_eq m2 (right_node n) _ d HD HD2). cbn [mbind option_bind].
  set (m3 := Memory (<[right_node n := set_left_node node d]> (nodes m2)) (buffers m2)).
  rewrite (write_node_eq m3 node _ (set_right_node (left_node d) n) HN)
    by (subst m3; lookups).
  cbn [mbind option_bind].
  set (m4 := Memory (<[node := set_parent (right_node n) (set_right_node (left_node d) n)]>
                       (nodes m3)) (buffers m3)).
  assert (exists m5,
            (if negb (parent n =? NULL)
             then g ← read_node m4 (parent n);
                  if left_node g =? node
                  then m ← write_node m4 (parent n) (set_left_node (right_node n));
                       Some (m, self)
                  else m ← write_node m4 (parent n) (set_right_node (right_node n));
                       Some (m, self)
             else Some (m4, set_root (right_node n) self)) =
              Some (m5, if parent n =? NULL then set_root (right_node n) self else self) /\
            buffers m5 = buffers m /\
            nodes m5 !! node =
              Some (set_parent (right_node n) (set_right_node (left_node d) n)) /\
            nodes m5 !! right_node n = Some (set_left_node node d) /\
            (left_node d <> NULL ->
             forall e, nodes m !! left_node d = Some e ->
                       nodes m5 !! left_node d = Some (set_parent node e)) /\
            (parent n <> NULL ->
             forall g, nodes m !! parent n = Some g ->
                       nodes m5 !! parent n =
                         Some (if left_node g =? node then set_left_node (right_node n) g
                               else set_right_node (right_node n) g)) /\
            (forall a, a <> node -> a <> right_node n ->
                       (left_node d <> NULL -> a <> left_node d) ->
                       (parent n <> NULL -> a <> parent n) ->
                       nodes m5 !! a = nodes m !! a))
    as (m5 & -> & Hb5 & HN5 & HD5 & HE5 & HG5 & Hrest5).
  { assert (forall a, a <> node -> a <> right_node n -> nodes m4 !! a = nodes m2 !! a) as H42.
    { intros a Ha1 Ha2. subst m4 m3. lookups. }
    destruct (Z.eqb_spec (parent n) NULL) as [HGnull|HGnull].
    - exists m4. cbn [negb]. split; [reflexivity|]. subst m4 m3.
      split; [exact Hb2|]. split; [lookups|]. split; [lookups|].
      split; [intros Hne e He; destruct (HEd Hne) as [? ?]; lookups; exact (HE2 Hne e He)|].
      split; [intros Hne; contradiction|].
      intros a Ha1 Ha2 Ha3 _. lookups. exact (Hrest2 a Ha1 Ha3).
    - destruct HG as [HG|(HGN & HGD & HGE & [g Hg])]; [contradiction|].
      assert (nodes m4 !! parent n = Some g) as Hg4.
      { rewrite (H42 _ HGN HGD), (Hrest2 _ HGN (fun _ => HGE)). exact Hg. }
      cbn [negb]. rewrite (read_node_eq m4 _ HGnull), Hg4. cbn [mbind option_bind].
      destruct (left_node g =? node) eqn:Hleft.
      + rewrite (write_node_eq m4 (parent n) _ g HGnull Hg4). cbn [mbind option_bind].
        eexists. split; [reflexivity|]. subst m4 m3. cbn [buffers].
        split; [exact Hb2|]. split; [lookups|]. split; [lookups|].
        split; [intros Hne e He; destruct (HEd Hne) as [? ?]; lookups; exact (HE2 Hne e He)|].
        split; [intros _ g' Hg'; lookups; rewrite Hg in Hg'; injection Hg' as <-;
                rewrite Hleft; reflexivity|].
        intros a Ha1 Ha2 Ha3 Ha4. specialize (Ha4 HGnull). lookups. exact (Hrest2 a Ha1 Ha3).
      + rewrite (write_node_eq m4 (parent n) _ g HGnull Hg4). cbn [mbind option_bind].
        eexists. split; [reflexivity|]. subst m4 m3. cbn [buffers].
        split; [exact Hb2|]. split; [lookups|]. split; [lookups|].
        split; [intros Hne e He; destruct (HEd Hne) as [? ?]; lookups; exact (HE2 Hne e He)|].
        split; [intros _ g' Hg'; lookups; rewrite Hg in Hg'; injection Hg' as <-;
                rewrite Hleft; reflexivity|].
        intros a Ha1 Ha2 Ha3 Ha4. specialize (Ha4 HGnull). lookups. exact (Hrest2 a Ha1 Ha3). }
  cbn [mbind option_bind].
  rewrite (write_node_eq m5 (right_node n) _ _ HD HD5). cbn [mbind option_bind].
  eexists. split; [reflexivity|]. cbn [buffers nodes].
  split; [exact Hb5|]. split; [lookups|]. split; [lookups|].
  split; [intros Hne e He; destruct HE as [HE|(HEN & HED & _)]; [contradiction|];
          lookups; exact (HE5 Hne e He)|].
  split; [intros Hne g Hg; destruct HG as [HG|(HGN & HGD & _)]; [contradiction|];
          lookups; exact (HG5 Hne g Hg)|].
  intros a Ha1 Ha2 Ha3 Ha4. lookups. exact (Hrest5 a Ha1 Ha2 Ha3 Ha4).
Qed.

(** What a right rotation around N writes: N, its left child D, the right
    child E of D and the parent G of N, and no other node. *)
Lemma rotate_right_spec m (self : bsal_red_black_tree) node n d :
  node <> NULL -> nodes m !! node = Some n ->
  left_node n <> NULL -> left_node n <> node ->
  nodes m !! left_node n = Some d ->
  (right_node d = NULL \/
   (right_node d <> node /\ right_node d <> left_node n /\
    is_Some (nodes m !! right_node d))) ->
  (parent n = NULL \/
   (parent n <> node /\ parent n <> left_node n /\ parent n <> right_node d /\
    is_Some (nodes m !! parent n))) ->
  exists m',
    bsal_red_black_tree_rotate_right m self node =
      Some (m', if parent n =? NULL then set_root (left_node n) self else self) /\
    buffers m' = buffers m /\
    nodes m' !! node =
      Some (set_parent (left_node n) (set_left_node (right_node d) n)) /\
    nodes m' !! left_node n =
      Some (set_parent (parent n) (set_right_node node d)) /\
    (right_node d <> NULL ->
     forall e, nodes m !! right_node d = Some e ->
               nodes m' !! right_node d = Some (set_parent node e)) /\
    (parent n <> NULL ->
     forall g, nodes m !! parent n = Some g ->
               nodes m' !! parent n =
                 Some (if right_node g =? node then set_right_node (left_node n) g
                       else set_left_node (left_node n) g)) /\
    (forall a, a <> node -> a <> left_node n ->
               (right_node d <> NULL -> a <> right_node d) ->
               (parent n <> NULL -> a <> parent n) ->
               nodes m' !! a = nodes m !! a).
Proof.
  intros HN Hn HD HDN Hd HE HG.
  assert (right_node d <> NULL -> right_node d <> node /\ right_node d <> left_node n) as HEd.
  { intros Hne. destruct HE as [HE|(HEN & HED & _)]; [contradiction | auto]. }
  unfold bsal_red_black_tree_rotate_right.
  rewrite (read_node_eq m node HN), Hn. cbn [mbind option_bind].
  rewrite (read_node_eq m _ HD), Hd. cbn [mbind option_bind].
  rewrite (write_node_eq m node _ n HN Hn). cbn [mbind option_bind].
  set (m1 := Memory (<[node := set_left_node (right_node d) n]> (nodes m)) (buffers m)).
  assert (exists m2,
            (if negb (right_node d =? NULL)
             then write_node m1 (right_node d) (set_parent node) else Some m1) = Some m2 /\
            buffers m2 = buffers m /\
            nodes m2 !! node = Some (set_left_node (right_node d) n) /\
            nodes m2 !! left_node n = Some d /\
            (right_node d <> NULL ->
             forall e, nodes m !! right_node d = Some e ->
                       nodes m2 !! right_node d = Some (set_parent node e)) /\
            (forall a, a <> node -> (right_node d <> NULL -> a <> right_node d) ->
                       nodes m2 !! a = nodes m !! a))
    as (m2 & -> & Hb2 & HN2 & HD2 & HE2 & Hrest2).
  { destruct (Z.eqb_spec (right_node d) NULL) as [HEnull|HEnull].
    - exists m1. cbn [negb].
      split; [reflexivity|]. split; [reflexivity|]. subst m1.
      split; [lookups|]. split; [lookups|].
      split; [intros Hne; contradiction|]. intros a Ha _. lookups.
    - destruct HE as [HE|(HEN & HED & [e He])]; [contradiction|].
      cbn [negb].
      rewrite (write_node_eq m1 (right_node d) _ e HEnull) by (subst m1; lookups).
      eexists. split; [reflexivity|]. subst m1. split; [reflexivity|].
      split; [lookups|]. split; [lookups|].
      split; [intros _ e' He'; lookups; congruence|].
      intros a Ha Hae. specialize (Hae HEnull). lookups. }
  cbn [mbind option_bind].
  rewrite (write_node_eq m2 (left_node n) _ d HD HD2). cbn [mbind option_bind].
  set (m3 := Memory (<[left_node n := set_right_node node d]> (nodes m2)) (buffers m2)).
  rewrite (write_node_eq m3 node _ (set_left_node (right_node d) n) HN)
    by (subst m3; lookups).
  cbn [mbind option_bind].
  set (m4 := Memory (<[node := set_parent (left_node n) (set_left_node (right_node d) n)]>
                       (nodes m3)) (buffers m3)).
  assert (exists m5,
            (if negb (parent n =? NULL)
             then g ← read_node m4 (parent n);
                  if right_node g =? node
                  then m ← write_node m4 (parent n) (set_right_node (left_node n));
                       Some (m, self)
                  else m ← write_node m4 (parent n) (set_left_node (left_node n));
                       Some (m, self)
             else Some (m4, set_root (left_node n) self)) =
              Some (m5, if parent n =? NULL then set_root (left_node n) self else self) /\
            buffers m5 = buffers m /\
            nodes m5 !! node =
              Some (set_parent (left_node n) (set_left_node (right_node d) n)) /\
            nodes m5 !! left_node n = Some (set_right_node node d) /\
            (right_node d <> NULL ->
             forall e, nodes m !! right_node d = Some e ->
                       nodes m5 !! right_node d = Some (set_parent node e)) /\
            (parent n <> NULL ->
             forall g, nodes m !! parent n = Some g ->
                       nodes m5 !! parent n =
                         Some (if right_node g =? node then set_right_node (left_node n) g
                               else set_left_node (left_node n) g)) /\
            (forall a, a <> node -> a <> left_node n ->
                       (right_node d <> NULL -> a <> right_node d) ->
                       (parent n <> NULL -> a <> parent n) ->
                       nodes m5 !! a = nodes m !! a))
    as (m5 & -> & Hb5 & HN5 & HD5 & HE5 & HG5 & Hrest5).
  { assert (forall a, a <> node -> a <> left_node n -> nodes m4 !! a = nodes m2 !! a) as H42.
    { intros a Ha1 Ha2. subst m4 m3. lookups. }
    destruct (Z.eqb_spec (parent n) NULL) as [HGnull|HGnull].
    - exists m4. cbn [negb]. split; [reflexivity|]. subst m4 m3.
      split; [exact Hb2|]. split; [lookups|]. split; [lookups|].
      split; [intros Hne e He; destruct (HEd Hne) as [? ?]; lookups; exact (HE2 Hne e He)|].
      split; [intros Hne; contradiction|].
      intros a Ha1 Ha2 Ha3 _. lookups. exact (Hrest2 a Ha1 Ha3).
    - destruct HG as [HG|(HGN & HGD & HGE & [g Hg])]; [contradiction|].
      assert (nodes m4 !! parent n = Some g) as Hg4.
      { rewrite (H42 _ HGN HGD), (Hrest2 _ HGN (fun _ => HGE)). exact Hg. }
      cbn [negb]. rewrite (read_node_eq m4 _ HGnull), Hg4. cbn [mbind option_bind].
      destruct (right_node g =? node) eqn:Hright.
      + rewrite (write_node_eq m4 (parent n) _ g HGnull Hg4). cbn [mbind option_bind].
        eexists. split; [reflexivity|]. subst m4 m3. cbn [buffers].
        split; [exact Hb2|]. split; [lookups|]. split; [lookups|].
        split; [intros Hne e He; destruct (HEd Hne) as [? ?]; lookups; exact (HE2 Hne e He)|].
        split; [intros _ g' Hg'; lookups; rewrite Hg in Hg'; injection Hg' as <-;
                rewrite Hright; reflexivity|].
        intros a Ha1 Ha2 Ha3 Ha4. specialize (Ha4 HGnull). lookups. exact (Hrest2 a Ha1 Ha3).
      + rewrite (write_node_eq m4 (parent n) _ g HGnull Hg4). cbn [mbind option_bind].
        eexists. split; [reflexivity|]. subst m4 m3. cbn [buffers].
        split; [exact Hb2|]. split; [lookups|]. split; [lookups|].
        split; [intros Hne e He; destruct (HEd Hne) as [? ?]; lookups; exact (HE2 Hne e He)|].
        split; [intros _ g' Hg'; lookups; rewrite Hg in Hg'; injection Hg' as <-;
                rewrite Hright; reflexivity|].
        intros a Ha1 Ha2 Ha3 Ha4. specialize (Ha4 HGnull). lookups. exact (Hrest2 a Ha1 Ha3). }
  cbn [mbind option_bind].
  rewrite (write_node_eq m5 (left_node n) _ _ HD HD5). cbn [mbind option_bind].
  eexists. split; [reflexivity|]. cbn [buffers nodes].
  split; [exact Hb5|]. split; [lookups|]. split; [lookups|].
  split; [intros Hne e He; destruct HE as [HE|(HEN & HED & _)]; [contradiction|];
          lookups; exact (HE5 Hne e He)|].
  split; [intros Hne g Hg; destruct HG as [HG|(HGN & HGD & _)]; [contradiction|];
          lookups; exact (HG5 Hne g Hg)|].
  intros a Ha1 Ha2 Ha3 Ha4. lookups. exact (Hrest5 a Ha1 Ha2 Ha3 Ha4).
Qed.


Lemma in_order_more fuel m node l :
  in_order fuel m node = Some l -> in_order (S fuel) m node = Some l.
Proof.
  revert node l. induction fuel as [|fuel IH]; intros node l H.
  - cbn in H. cbn [in_order]. destruct (node =? NULL); [exact H | discriminate].
  - destruct (Z.eq_dec node NULL) as [->|Hn].
    + rewrite in_order_null in *. exact H.
    + rewrite in_order_step in H by exact Hn. rewrite in_order_step by exact Hn.
      destruct (nodes m !! node) as [n|]; [|discriminate]. cbn [mbind option_bind] in *.
      destruct (in_order fuel m (left_node n)) as [lower|] eqn:Hl; [|discriminate].
      destruct (in_order fuel m (right_node n)) as [higher|] eqn:Hh; [|discriminate].
      rewrite (IH _ _ Hl), (IH _ _ Hh). exact H.
Qed.

Lemma in_order_elements fuel m node l a :
  in_order fuel m node = Some l -> a ∈ l ->
  a <> NULL /\ is_Some (nodes m !! a).
Proof.
  revert node l. induction fuel as [|fuel IH]; intros node l H Ha.
  - cbn in H. destruct (node =? NULL); [|discriminate]. injection H as <-. inversion Ha.
  - destruct (Z.eq_dec node NULL) as [->|Hn].
    + rewrite in_order_null in H. injection H as <-. inversion Ha.
    + destruct (in_order_inv _ _ _ _ Hn H) as (f & n & lower & higher & Hf & Hnode & Hl & Hh & ->).
      injection Hf as <-. apply elem_of_app in Ha as [Ha|Ha]; [exact (IH _ _ Hl Ha)|].
      apply elem_of_cons in Ha as [->|Ha]; [|exact (IH _ _ Hh Ha)].
      split; [exact Hn | eexists; exact Hnode].
Qed.

Lemma in_order_root fuel m node l :
  node <> NULL -> in_order fuel m node = Some l -> node ∈ l.
Proof.
  intros Hn H. destruct (in_order_inv _ _ _ _ Hn H) as (f & n & lower & higher & _ & _ & _ & _ & ->).
  apply elem_of_app. right. apply list_elem_of_here.
Qed.

(** The order below a node depends on the child links of the nodes in it
    only. *)
Lemma in_order_frame fuel m m' node l :
  in_order fuel m node = Some l ->
  (forall a x, a ∈ l -> nodes m !! a = Some x ->
     exists x', nodes m' !! a = Some x' /\
                left_node x' = left_node x /\ right_node x' = right_node x) ->
  in_order fuel m' node = Some l.
Proof.
  revert node l. induction fuel as [|fuel IH]; intros node l H Hkept.
  - cbn in *. destruct (node =? NULL); [exact H | discriminate].
  - destruct (Z.eq_dec node NULL) as [->|Hn].
    + rewrite in_order_null in *. exact H.
    + destruct (in_order_inv _ _ _ _ Hn H) as (f & n & lower & higher & Hf & Hnode & Hl & Hh & ->).
      injection Hf as <-. rewrite in_order_step by exact Hn.
      destruct (Hkept node n) as (n' & Hn' & Hleft & Hright);
        [apply elem_of_app; right; apply list_elem_of_here | exact Hnode |].
      rewrite Hn'. cbn [mbind option_bind]. rewrite Hleft, Hright.
      rewrite (IH _ _ Hl), (IH _ _ Hh); [reflexivity| |].
      * intros a x Ha. apply Hkept. apply elem_of_app. right. apply list_elem_of_further. exact Ha.
      * intros a x Ha. apply Hkept. apply elem_of_app. left. exact Ha.
Qed.

(** X24.  A left rotation keeps the order.  Around a node N with a right
    child D, when the nodes below N are all different and the parent of
    N is a node that is not below N, rotate_left returns, D has N as its
    left child and gets the parent of N (it becomes the root when there
    is none), and the nodes below D are then, from left to right, the
    nodes that were below N; no key buffer is written. *)
Theorem rotate_left_keeps_order fuel m (self : bsal_red_black_tree) node n l :
  node <> NULL -> nodes m !! node = Some n ->
  right_node n <> NULL ->
  in_order fuel m node = Some l -> NoDup l ->
  parent n = NULL \/ ((parent n ∉ l) /\ is_Some (nodes m !! parent n)) ->
  exists m' d',
    bsal_red_black_tree_rotate_left m self node =
      Some (m', if parent n =? NULL then set_root (right_node n) self else self) /\
    in_order (S fuel) m' (right_node n) = Some l /\
    buffers m' = buffers m /\
    nodes m' !! right_node n = Some d' /\
    parent d' = parent n /\ left_node d' = node.
Proof.
  intros HN Hn HD Horder Hnodup HG.
  destruct (in_order_inv _ _ _ _ HN Horder) as (f1 & n0 & lc & lr & -> & Hn0 & Hlc & Hlr & ->).
  rewrite Hn in Hn0. injection Hn0 as <-.
  destruct (in_order_inv _ _ _ _ HD Hlr) as (f2 & d & le & lf & -> & Hd & Hle & Hlf & ->).
  apply NoDup_app in Hnodup as (Hlc_nodup & Hlc_out & Hnodup).
  apply NoDup_cons in Hnodup as (HN_out & Hnodup).
  apply NoDup_app in Hnodup as (Hle_nodup & Hle_out & Hnodup).
  apply NoDup_cons in Hnodup as (HD_out & Hlf_nodup).
  assert (right_node n <> node) as HDN.
  { intros E. apply HN_out. rewrite <- E. apply elem_of_app. right. apply list_elem_of_here. }
  assert (left_node d <> NULL -> left_node d ∈ le) as HEin.
  { intros Hne. exact (in_order_root _ _ _ _ Hne Hle). }
  assert (left_node d = NULL \/
          (left_node d <> node /\ left_node d <> right_node n /\
           is_Some (nodes m !! left_node d))) as HE.
  { destruct (Z.eq_dec (left_node d) NULL) as [E|Hne]; [left; exact E | right].
    pose proof (HEin Hne) as Hin.
    split; [|split].
    - intros E. apply HN_out. rewrite <- E. apply elem_of_app. left. exact Hin.
    - intros E. apply (Hle_out _ Hin). rewrite E. apply list_elem_of_here.
    - exact (proj2 (in_order_elements _ _ _ _ _ Hle Hin)). }
  assert (parent n = NULL \/
          (parent n <> node /\ parent n <> right_node n /\ parent n <> left_node d /\
           is_Some (nodes m !! parent n))) as HG'.
  { destruct (Z.eq_dec (parent n) NULL) as [HGnull|HGnull]; [left; exact HGnull | right].
    destruct HG as [HG|[Hout Hsome]]; [contradiction|].
    split; [|split; [|split]]; [| | |exact Hsome].
    - intros E. apply Hout. rewrite E. apply elem_of_app. right. apply list_elem_of_here.
    - intros E. apply Hout. rewrite E. apply elem_of_app. right. apply list_elem_of_further.
      apply elem_of_app. right. apply list_elem_of_here.
    - intros E. apply Hout. rewrite E. apply elem_of_app. right. apply list_elem_of_further.
      apply elem_of_app. left. apply HEin. congruence. }
  destruct (rotate_left_spec m self node n d HN Hn HD HDN Hd HE HG')
    as (m' & Hrun & Hbuffers & HN' & HD' & HE' & _ & Hrest).
  exists m', (set_parent (parent n) (set_left_node node d)).
  split; [exact Hrun|]. split; [|split; [exact Hbuffers|split; [exact HD'|split; reflexivity]]].
  assert (forall a x, a <> NULL -> a <> node -> a <> right_node n -> a <> parent n ->
                      nodes m !! a = Some x ->
                      exists x', nodes m' !! a = Some x' /\
                                 left_node x' = left_node x /\ right_node x' = right_node x)
    as Hkept.
  { intros a x Ha0 Ha1 Ha2 Ha3 Hx. destruct (Z.eq_dec a (left_node d)) as [->|Hae].
    - exists (set_parent node x). split; [exact (HE' Ha0 x Hx) | split; reflexivity].
    - exists x. split; [|split; reflexivity]. rewrite (Hrest a Ha1 Ha2 (fun _ => Hae) (fun _ => Ha3)). exact Hx. }
  assert (forall a, a ∈ lc ++ node :: le ++ right_node n :: lf -> a <> parent n) as Hparent.
  { intros a Ha E. destruct HG as [HG|[Hout _]].
    - destruct (in_order_elements _ _ _ _ _ Horder Ha) as [Hne _]. congruence.
    - apply Hout. rewrite <- E. exact Ha. }
  rewrite (in_order_step _ m' (right_node n) HD), HD'. cbn [mbind option_bind left_node right_node set_parent set_left_node].
  rewrite (in_order_step _ m' node HN), HN'. cbn [mbind option_bind left_node right_node set_parent set_right_node].
  rewrite (in_order_frame (S f2) m m' (left_node n) lc Hlc).
  2:{ intros a x Ha Hx. destruct (in_order_elements _ _ _ _ _ Hlc Ha) as [Hne _].
      apply (Hkept a x Hne); [| | |exact Hx].
      - intros ->. exact (Hlc_out _ Ha (list_elem_of_here _ _)).
      - intros ->. apply (Hlc_out _ Ha). apply list_elem_of_further.
        apply elem_of_app. right. apply list_elem_of_here.
      - apply Hparent. apply elem_of_app. left. exact Ha. }
  rewrite (in_order_frame (S f2) m m' (left_node d) le (in_order_more _ _ _ _ Hle)).
  2:{ intros a x Ha Hx. destruct (in_order_elements _ _ _ _ _ Hle Ha) as [Hne _].
      apply (Hkept a x Hne); [| | |exact Hx].
      - intros ->. apply HN_out. apply elem_of_app. left. exact Ha.
      - intros ->. exact (Hle_out _ Ha (list_elem_of_here _ _)).
      - apply Hparent. apply elem_of_app. right. apply list_elem_of_further.
        apply elem_of_app. left. exact Ha. }
  cbn [mbind option_bind].
  rewrite (in_order_frame (S (S f2)) m m' (right_node d) lf
             (in_order_more _ _ _ _ (in_order_more _ _ _ _ Hlf))).
  2:{ intros a x Ha Hx. destruct (in_order_elements _ _ _ _ _ Hlf Ha) as [Hne _].
      apply (Hkept a x Hne); [| | |exact Hx].
      - intros ->. apply HN_out. apply elem_of_app. right. apply list_elem_of_further. exact Ha.
      - intros ->. exact (HD_out Ha).
      - apply Hparent. apply elem_of_app. right. apply list_elem_of_further.
        apply elem_of_app. right. apply list_elem_of_further. exact Ha. }
  cbn [mbind option_bind]. rewrite <- app_assoc. reflexivity.
Qed.


(** X25.  A right rotation keeps the order.  Around a node N with a left
    child D, under the same conditions, rotate_right returns, D has N as
    its right child and gets the parent of N (it becomes the root when
    there is none), and the nodes below D are then, from left to right,
    the nodes that were below N; no key buffer is written. *)
Theorem rotate_right_keeps_order fuel m (self : bsal_red_black_tree) node n l :
  node <> NULL -> nodes m !! node = Some n ->
  left_node n <> NULL ->
  in_order fuel m node = Some l -> NoDup l ->
  parent n = NULL \/ ((parent n ∉ l) /\ is_Some (nodes m !! parent n)) ->
  exists m' d',
    bsal_red_black_tree_rotate_right m self node =
      Some (m', if parent n =? NULL then set_root (left_node n) self else self) /\
    in_order (S fuel) m' (left_node n) = Some l /\
    buffers m' = buffers m /\
    nodes m' !! left_node n = Some d' /\
    parent d' = parent n /\ right_node d' = node.
Proof.
  intros HN Hn HD Horder Hnodup HG.
  destruct (in_order_inv _ _ _ _ HN Horder) as (f1 & n0 & ll & lc & -> & Hn0 & Hll & Hlc & ->).
  rewrite Hn in Hn0. injection Hn0 as <-.
  destruct (in_order_inv _ _ _ _ HD Hll) as (f2 & d & lf & le & -> & Hd & Hlf & Hle & ->).
  assert (forall a, a ∈ lf -> a <> node /\ a <> left_node n /\ (a ∉ le) /\ (a ∉ lc)) as Hlf_out.
  { intros a Ha. rewrite <- app_assoc in Hnodup. apply NoDup_app in Hnodup as (_ & Hout & _).
    specialize (Hout a Ha). cbn in Hout.
    rewrite !not_elem_of_cons, not_elem_of_app, !not_elem_of_cons in Hout.
    destruct Hout as (H1 & H2 & H3 & H4). auto. }
  assert (forall a, a ∈ le -> a <> node /\ a <> left_node n /\ (a ∉ lf) /\ (a ∉ lc)) as Hle_out.
  { intros a Ha. rewrite <- app_assoc in Hnodup. apply NoDup_app in Hnodup as (_ & Hout1 & Hnodup).
    cbn in Hnodup. apply NoDup_cons in Hnodup as (HDout & Hnodup).
    apply NoDup_app in Hnodup as (_ & Hout2 & _). specialize (Hout2 a Ha).
    rewrite not_elem_of_cons in Hout2. destruct Hout2 as [H1 H2].
    split; [exact H1|]. split; [|split; [|exact H2]].
    - intros ->. apply HDout. apply elem_of_app. left. exact Ha.
    - intros Hin. apply (Hout1 a Hin). cbn. apply list_elem_of_further.
      apply elem_of_app. left. exact Ha. }
  assert (forall a, a ∈ lc -> a <> node /\ a <> left_node n /\ (a ∉ lf) /\ (a ∉ le)) as Hlc_out.
  { intros a Ha. rewrite <- app_assoc in Hnodup. apply NoDup_app in Hnodup as (_ & Hout1 & Hnodup).
    cbn in Hnodup. apply NoDup_cons in Hnodup as (HDout & Hnodup).
    apply NoDup_app in Hnodup as (_ & Hout2 & Hnodup).
    apply NoDup_cons in Hnodup as (HNout & _).
    split; [intros ->; exact (HNout Ha)|]. split; [|split].
    - intros ->. apply HDout. apply elem_of_app. right. apply list_elem_of_further. exact Ha.
    - intros Hin. apply (Hout1 a Hin). cbn. apply list_elem_of_further.
      apply elem_of_app. right. apply list_elem_of_further. exact Ha.
    - intros Hin. apply (Hout2 a Hin). apply list_elem_of_further. exact Ha. }
  assert (left_node n <> node) as HDN.
  { intros E. rewrite <- app_assoc in Hnodup. apply NoDup_app in Hnodup as (_ & _ & Hnodup).
    cbn in Hnodup. apply NoDup_cons in Hnodup as (HDout & _).
    apply HDout. rewrite E. apply elem_of_app. right. apply list_elem_of_here. }
  assert (right_node d <> NULL -> right_node d ∈ le) as HEin.
  { intros Hne. exact (in_order_root _ _ _ _ Hne Hle). }
  assert (right_node d = NULL \/
          (right_node d <> node /\ right_node d <> left_node n /\
           is_Some (nodes m !! right_node d))) as HE.
  { destruct (Z.eq_dec (right_node d) NULL) as [E|Hne]; [left; exact E | right].
    pose proof (HEin Hne) as Hin. destruct (Hle_out _ Hin) as (H1 & H2 & _).
    split; [exact H1|]. split; [exact H2|].
    exact (proj2 (in_order_elements _ _ _ _ _ Hle Hin)). }
  assert (parent n = NULL \/
          (parent n <> node /\ parent n <> left_node n /\ parent n <> right_node d /\
           is_Some (nodes m !! parent n))) as HG'.
  { destruct (Z.eq_dec (parent n) NULL) as [HGnull|HGnull]; [left; exact HGnull | right].
    destruct HG as [HG|[Hout Hsome]]; [contradiction|].
    split; [|split; [|split]]; [| | |exact Hsome].
    - intros E. apply Hout. rewrite E. apply elem_of_app. right. apply list_elem_of_here.
    - intros E. apply Hout. rewrite E. apply elem_of_app. left.
      apply elem_of_app. right. apply list_elem_of_here.
    - intros E. apply Hout. rewrite E. apply elem_of_app. left.
      apply elem_of_app. right. apply list_elem_of_further. apply HEin. congruence. }
  destruct (rotate_right_spec m self node n d HN Hn HD HDN Hd HE HG')
    as (m' & Hrun & Hbuffers & HN' & HD' & HE' & _ & Hrest).
  exists m', (set_parent (parent n) (set_right_node node d)).
  split; [exact Hrun|]. split; [|split; [exact Hbuffers|split; [exact HD'|split; reflexivity]]].
  assert (forall a x, a <> NULL -> a <> node -> a <> left_node n -> a <> parent n ->
                      nodes m !! a = Some x ->
                      exists x', nodes m' !! a = Some x' /\
                                 left_node x' = left_node x /\ right_node x' = right_node x)
    as Hkept.
  { intros a x Ha0 Ha1 Ha2 Ha3 Hx. destruct (Z.eq_dec a (right_node d)) as [->|Hae].
    - exists (set_parent node x). split; [exact (HE' Ha0 x Hx) | split; reflexivity].
    - exists x. split; [|split; reflexivity]. rewrite (Hrest a Ha1 Ha2 (fun _ => Hae) (fun _ => Ha3)). exact Hx. }
  assert (forall a, a ∈ (lf ++ left_node n :: le) ++ node :: lc -> a <> parent n) as Hparent.
  { intros a Ha E. destruct HG as [HG|[Hout _]].
    - destruct (in_order_elements _ _ _ _ _ Horder Ha) as [Hne _]. congruence.
    - apply Hout. rewrite <- E. exact Ha. }
  rewrite (in_order_step _ m' (left_node n) HD), HD'.
  cbn [mbind option_bind left_node right_node set_parent set_right_node].
  rewrite (in_order_frame (S (S f2)) m m' (left_node d) lf
             (in_order_more _ _ _ _ (in_order_more _ _ _ _ Hlf))).
  2:{ intros a x Ha Hx. destruct (in_order_elements _ _ _ _ _ Hlf Ha) as [Hne _].
      destruct (Hlf_out a Ha) as (H1 & H2 & _).
      apply (Hkept a x Hne H1 H2); [|exact Hx].
      apply Hparent. apply elem_of_app. left. apply elem_of_app. left. exact Ha. }
  cbn [mbind option_bind].
  rewrite (in_order_step _ m' node HN), HN'.
  cbn [mbind option_bind left_node right_node set_parent set_left_node].
  rewrite (in_order_frame (S f2) m m' (right_node d) le (in_order_more _ _ _ _ Hle)).
  2:{ intros a x Ha Hx. destruct (in_order_elements _ _ _ _ _ Hle Ha) as [Hne _].
      destruct (Hle_out a Ha) as (H1 & H2 & _).
      apply (Hkept a x Hne H1 H2); [|exact Hx].
      apply Hparent. apply elem_of_app. left. apply elem_of_app. right.
      apply list_elem_of_further. exact Ha. }
  rewrite (in_order_frame (S f2) m m' (right_node n) lc Hlc).
  2:{ intros a x Ha Hx. destruct (in_order_elements _ _ _ _ _ Hlc Ha) as [Hne _].
      destruct (Hlc_out a Ha) as (H1 & H2 & _).
      apply (Hkept a x Hne H1 H2); [|exact Hx].
      apply Hparent. apply elem_of_app. right. apply list_elem_of_further. exact Ha. }
  cbn [mbind option_bind]. rewrite <- app_assoc. reflexivity.
Qed.


(** X26.  A right rotation undoes a left rotation.  Around a node N of a
    well-linked tree (the right child D of N and the left child of D
    point back to their parents, the parent of N has N as one child and
    D as none, or N is the root), rotate_left around N followed by
    rotate_right around D gives back the memory and the tree. *)
Theorem rotate_left_then_right m (self : bsal_red_black_tree) node n d :
  node <> NULL -> nodes m !! node = Some n ->
  right_node n <> NULL -> right_node n <> node ->
  nodes m !! right_node n = Some d -> parent d = node ->
  (left_node d = NULL \/
   (left_node d <> node /\ left_node d <> right_node n /\
    exists e, nodes m !! left_node d = Some e /\ parent e = right_node n)) ->
  ((parent n = NULL /\ root self = node) \/
   (parent n <> NULL /\ parent n <> node /\ parent n <> right_node n /\
    parent n <> left_node d /\
    exists g, nodes m !! parent n = Some g /\
              ((left_node g = node /\ right_node g <> right_node n) \/
               (left_node g <> node /\ right_node g = node)))) ->
  exists m1 self1,
    bsal_red_black_tree_rotate_left m self node = Some (m1, self1) /\
    bsal_red_black_tree_rotate_right m1 self1 (right_node n) = Some (m, self).
Proof.
  intros HN Hn HD HDN Hd Hdparent HE HG.
  assert (left_node d = NULL \/
          (left_node d <> node /\ left_node d <> right_node n /\
           is_Some (nodes m !! left_node d))) as HE1.
  { destruct HE as [HE|(H1 & H2 & e & He & _)]; [left; exact HE | right].
    split; [exact H1|]. split; [exact H2|]. eexists; exact He. }
  assert (parent n = NULL \/
          (parent n <> node /\ parent n <> right_node n /\ parent n <> left_node d /\
           is_Some (nodes m !! parent n))) as HG1.
  { destruct HG as [[HG _]|(H0 & H1 & H2 & H3 & g & Hg & _)]; [left; exact HG | right].
    split; [exact H1|]. split; [exact H2|]. split; [exact H3|]. eexists; exact Hg. }
  destruct (rotate_left_spec m self node n d HN Hn HD HDN Hd HE1 HG1)
    as (m1 & Hrun1 & Hbuffers1 & HN1 & HD1 & HEw1 & HGw1 & Hrest1).
  set (self1 := if parent n =? NULL then set_root (right_node n) self else self) in *.
  set (n1 := set_parent (right_node n) (set_right_node (left_node d) n)) in *.
  set (d1 := set_parent (parent n) (set_left_node node d)) in *.
  assert (right_node n1 = NULL \/
          (right_node n1 <> right_node n /\ right_node n1 <> left_node d1 /\
           is_Some (nodes m1 !! right_node n1))) as HE2.
  { change (right_node n1) with (left_node d). change (left_node d1) with node.
    destruct HE as [HE|(H1 & H2 & e & He & _)]; [left; exact HE | right].
    split; [exact H2|]. split; [exact H1|].
    destruct (Z.eq_dec (left_node d) NULL) as [E|Hne].
    - rewrite (Hrest1 _ H1 H2); [eexists; exact He | | ].
      + congruence.
      + destruct HG as [[HG _]|(H0 & _ & _ & H3 & _)]; congruence.
    - eexists. exact (HEw1 Hne e He). }
  assert (parent d1 = NULL \/
          (parent d1 <> right_node n /\ parent d1 <> left_node d1 /\
           parent d1 <> right_node n1 /\ is_Some (nodes m1 !! parent d1))) as HG2.
  { change (parent d1) with (parent n). change (left_node d1) with node.
    change (right_node n1) with (left_node d).
    destruct HG as [[HG _]|(H0 & H1 & H2 & H3 & g & Hg & _)]; [left; exact HG | right].
    split; [exact H2|]. split; [exact H1|]. split; [exact H3|].
    eexists. exact (HGw1 H0 g Hg). }
  destruct (rotate_right_spec m1 self1 (right_node n) d1 n1 HD HD1 HN
              (not_eq_sym HDN) HN1 HE2 HG2)
    as (m2 & Hrun2 & Hbuffers2 & HD2 & HN2 & HEw2 & HGw2 & Hrest2).
  change (parent d1) with (parent n) in *. change (left_node d1) with node in *.
  change (right_node n1) with (left_node d) in *.
  exists m1, self1. split; [exact Hrun1|]. rewrite Hrun2.
  assert ((if parent n =? NULL then set_root node self1 else self1) = self) as ->.
  { subst self1. destruct HG as [[HG Hroot]|(H0 & _)].
    - rewrite HG. change (NULL =? NULL) with true. cbv iota.
      destruct self. cbn in *. rewrite Hroot. reflexivity.
    - destruct (Z.eqb_spec (parent n) NULL); [contradiction | reflexivity]. }
  assert (m2 = m) as ->; [|reflexivity].
  destruct m2 as [nodes2 buffers2], m as [nodes0 buffers0]. cbn [nodes buffers] in *.
  f_equal; [|congruence].
  apply map_eq. intros a.
  destruct (Z.eq_dec a node) as [->|Ha1].
  { rewrite HN2, Hn. f_equal. subst n1. destruct n. reflexivity. }
  destruct (Z.eq_dec a (right_node n)) as [->|Ha2].
  { rewrite HD2, Hd. f_equal. subst d1. destruct d. cbn in *. subst. reflexivity. }
  destruct (Z.eq_dec (left_node d) NULL) as [HEnull|HEnull];
    [|destruct (Z.eq_dec a (left_node d)) as [->|Ha3]].
  2:{ destruct HE as [HE|(_ & _ & e & He & Heparent)]; [contradiction|].
      rewrite (HEw2 HEnull _ (HEw1 HEnull e He)), He. f_equal.
      destruct e. cbn in *. subst. reflexivity. }
  all: destruct (Z.eq_dec (parent n) NULL) as [HGnull|HGnull];
    [|destruct (Z.eq_dec a (parent n)) as [->|Ha4]].
  all: try (rewrite (Hrest2 a Ha2 Ha1), (Hrest1 a Ha1 Ha2); [reflexivity|..];
            intros; solve [assumption | contradiction]).
  all: destruct HG as [[HG _]|(_ & H1 & H2 & H3 & g & Hg & Hlinks)]; [contradiction|];
    rewrite (HGw2 HGnull _ (HGw1 HGnull g Hg)), Hg; f_equal;
    destruct Hlinks as [[Hl Hr]|[Hl Hr]].
  all: destruct (Z.eqb_spec (left_node g) node) as [?|?]; try contradiction;
    cbn [right_node left_node set_left_node set_right_node].
  all: destruct (Z.eqb_spec (right_node g) (right_node n)) as [?|?]; try contradiction;
    try (rewrite Z.eqb_refl);
    destruct g; cbn in *; subst; reflexivity.
Qed.

End RotationFacts.

Section RotationExamples.
Import RedBlackTree.

Lemma rotate_left_keeps_order_witness :
  exists m' d',
    bsal_red_black_tree_rotate_left example_nodes example_rooted 2000 =
      Some (m', set_root 4000 example_rooted) /\
    in_order 4 m' 4000 = Some [1000; 2000; 3000; 4000; 5000] /\
    buffers m' = buffers example_nodes /\
    nodes m' !! 4000 = Some d' /\
    parent d' = NULL /\ left_node d' = 2000.
Proof.
  assert (2000 <> NULL) as HN by (unfold NULL; lia).
  assert (4000 <> NULL) as HD by (unfold NULL; lia).
  assert (NoDup [1000; 2000; 3000; 4000; 5000]) as Hnodup
    by (apply (bool_decide_unpack _); vm_compute; exact I).
  exact (rotate_left_keeps_order 3 example_nodes example_rooted 2000
           (Node NULL 1000 4000 BSAL_COLOR_BLACK 2100 2200)
           [1000; 2000; 3000; 4000; 5000]
           HN eq_refl HD eq_refl Hnodup (or_introl eq_refl)).
Defined.

Lemma rotate_right_keeps_order_witness :
  exists m' d',
    bsal_red_black_tree_rotate_right example_nodes example_rooted 4000 =
      Some (m', example_rooted) /\
    in_order 3 m' 3000 = Some [3000; 4000; 5000] /\
    buffers m' = buffers example_nodes /\
    nodes m' !! 3000 = Some d' /\
    parent d' = 2000 /\ right_node d' = 4000.
Proof.
  assert (4000 <> NULL) as HN by (unfold NULL; lia).
  assert (3000 <> NULL) as HD by (unfold NULL; lia).
  assert (NoDup [3000; 4000; 5000]) as Hnodup
    by (apply (bool_decide_unpack _); vm_compute; exact I).
  assert ((2000 ∉ [3000; 4000; 5000]) /\ is_Some (nodes example_nodes !! 2000)) as HG.
  { split; [|eexists; reflexivity].
    rewrite !not_elem_of_cons. repeat split; try lia. apply not_elem_of_nil. }
  exact (rotate_right_keeps_order 2 example_nodes example_rooted 4000
           (Node 2000 3000 5000 BSAL_COLOR_RED 4100 4200)
           [3000; 4000; 5000]
           HN eq_refl HD eq_refl Hnodup (or_intror HG)).
Defined.

Lemma rotate_left_then_right_witness :
  exists m1 self1,
    bsal_red_black_tree_rotate_left example_nodes example_rooted 2000 = Some (m1, self1) /\
    bsal_red_black_tree_rotate_right m1 self1 4000 = Some (example_nodes, example_rooted).
Proof.
  assert (2000 <> NULL) as HN by (unfold NULL; lia).
  assert (4000 <> NULL) as HD by (unfold NULL; lia).
  assert (4000 <> 2000) as HDN by lia.
  assert (3000 <> 2000 /\ 3000 <> 4000 /\
          exists e, nodes example_nodes !! 3000 = Some e /\ parent e = 4000) as HE.
  { split; [lia|]. split; [lia|]. eexists. split; reflexivity. }
  exact (rotate_left_then_right example_nodes example_rooted 2000
           (Node NULL 1000 4000 BSAL_COLOR_BLACK 2100 2200)
           (Node 2000 3000 5000 BSAL_COLOR_RED 4100 4200)
           HN eq_refl HD HDN eq_refl eq_refl (or_intror HE)
           (or_introl (conj eq_refl eq_refl))).
Defined.

End RotationExamples.

(** ** The hash function *)

Section HashFacts.
Import RedBlackTree MurmurHash.

Lemma lxor_range a b n :
  0 <= n -> 0 <= a < 2 ^ n -> 0 <= b < 2 ^ n -> 0 <= Z.lxor a b < 2 ^ n.
Proof.
  intros Hn Ha Hb.
  assert (0 <= Z.lxor a b) as Hnonneg by (apply Z.lxor_nonneg; split; lia).
  split; [exact Hnonneg|].
  destruct (Z.eq_dec (Z.lxor a b) 0) as [->|Hne]; [apply Z.pow_pos_nonneg; lia|].
  apply Z.log2_lt_pow2; [lia|].
  assert (0 < n) as Hpos.
  { destruct (Z.eq_dec n 0) as [->|?]; [|lia].
    change (2 ^ 0) with 1 in Ha, Hb. assert (a = 0) as -> by lia.
    assert (b = 0) as -> by lia. contradiction. }
  eapply Z.le_lt_trans; [apply Z.log2_lxor; lia|].
  apply Z.max_lub_lt.
  - destruct (Z.eq_dec a 0) as [->|?]; [change (Z.log2 0) with 0; lia|].
    apply Z.log2_lt_pow2; lia.
  - destruct (Z.eq_dec b 0) as [->|?]; [change (Z.log2 0) with 0; lia|].
    apply Z.log2_lt_pow2; lia.
Qed.

Lemma shiftr_range a k : 0 <= k -> 0 <= a < 2 ^ 64 -> 0 <= Z.shiftr a k < 2 ^ 64.
Proof.
  intros Hk Ha. rewrite Z.shiftr_div_pow2 by exact Hk.
  assert (0 < 2 ^ k) by (apply Z.pow_pos_nonneg; lia).
  split; [apply Z.div_pos; lia|].
  eapply Z.le_lt_trans; [apply Z.div_le_upper_bound with (q := a); nia | lia].
Qed.

Lemma to_uint64_range z : 0 <= to_uint64 z < 2 ^ 64.
Proof. unfold to_uint64. apply Z.mod_pos_bound. lia. Qed.

Lemma xorshift_range h : 0 <= h < 2 ^ 64 -> 0 <= Z.lxor h (Z.shiftr h r) < 2 ^ 64.
Proof.
  intros Hh. apply lxor_range; [lia | exact Hh | apply shiftr_range; [unfold r; lia | exact Hh]].
Qed.

(** [x ^= x >> 47] on a 64-bit word is its own inverse. *)
Lemma xorshift_twice h :
  0 <= h < 2 ^ 64 ->
  Z.lxor (Z.lxor h (Z.shiftr h r)) (Z.shiftr (Z.lxor h (Z.shiftr h r)) r) = h.
Proof.
  intros Hh. apply Z.bits_inj'. intros i Hi. unfold r.
  rewrite !Z.lxor_spec, !Z.shiftr_spec, !Z.lxor_spec, !Z.shiftr_spec by lia.
  replace (Z.testbit h (i + 47 + 47)) with false.
  - destruct (Z.testbit h i), (Z.testbit h (i + 47)); reflexivity.
  - symmetry. rewrite <- (Z.mod_small h (2 ^ 64)) by exact Hh.
    apply Z.mod_pow2_bits_high. lia.
Qed.

(** Multiplying a 64-bit word by [m], which is odd, loses nothing. *)
Lemma multiply_back h :
  0 <= h < 2 ^ 64 -> to_uint64 (to_uint64 (h * m) * 6879827495036328381) = h.
Proof.
  intros Hh. unfold to_uint64. rewrite Z.mul_mod_idemp_l by lia.
  rewrite <- Z.mul_assoc, <- Z.mul_mod_idemp_r by lia.
  replace ((m * 6879827495036328381) mod 2 ^ 64) with 1 by (vm_compute; reflexivity).
  rewrite Z.mul_1_r. apply Z.mod_small. exact Hh.
Qed.

Lemma multiply_injective h1 h2 :
  0 <= h1 < 2 ^ 64 -> 0 <= h2 < 2 ^ 64 ->
  to_uint64 (h1 * m) = to_uint64 (h2 * m) -> h1 = h2.
Proof.
  intros H1 H2 E. rewrite <- (multiply_back h1 H1), <- (multiply_back h2 H2), E. reflexivity.
Qed.

Lemma xorshift_injective h1 h2 :
  0 <= h1 < 2 ^ 64 -> 0 <= h2 < 2 ^ 64 ->
  Z.lxor h1 (Z.shiftr h1 r) = Z.lxor h2 (Z.shiftr h2 r) -> h1 = h2.
Proof.
  intros H1 H2 E. rewrite <- (xorshift_twice h1 H1), <- (xorshift_twice h2 H2), E. reflexivity.
Qed.

Lemma lxor_injective h k1 k2 : Z.lxor h k1 = Z.lxor h k2 -> k1 = k2.
Proof.
  intros E. rewrite <- (Z.lxor_0_l k1), <- (Z.lxor_0_l k2), <- (Z.lxor_nilpotent h).
  rewrite !Z.lxor_assoc, E. reflexivity.
Qed.

Lemma finish_range h : 0 <= finish h < 2 ^ 64.
Proof. unfold finish. apply xorshift_range. apply to_uint64_range. Qed.

Lemma finish_injective h1 h2 :
  0 <= h1 < 2 ^ 64 -> 0 <= h2 < 2 ^ 64 -> finish h1 = finish h2 -> h1 = h2.
Proof.
  intros H1 H2 E. unfold finish in E.
  apply xorshift_injective in E; [|apply to_uint64_range..].
  apply multiply_injective in E; [|apply xorshift_range; assumption..].
  exact (xorshift_injective _ _ H1 H2 E).
Qed.

Lemma mix_word_range h k : 0 <= mix_word h k < 2 ^ 64.
Proof. unfold mix_word. apply to_uint64_range. Qed.

Lemma mix_word_injective h k1 k2 :
  0 <= h < 2 ^ 64 -> 0 <= k1 < 2 ^ 64 -> 0 <= k2 < 2 ^ 64 ->
  mix_word h k1 = mix_word h k2 -> k1 = k2.
Proof.
  intros Hh H1 H2 E. unfold mix_word in E.
  apply multiply_injective in E;
    [|apply lxor_range; [lia | exact Hh | apply to_uint64_range]..].
  apply lxor_injective in E.
  apply multiply_injective in E; [|apply xorshift_range; apply to_uint64_range..].
  apply xorshift_injective in E; [|apply to_uint64_range..].
  exact (multiply_injective _ _ H1 H2 E).
Qed.

Lemma read_unsigned_range n bytes v :
  is_bytes bytes -> read_unsigned n bytes = Some v -> 0 <= v < 256 ^ Z.of_nat n.
Proof.
  revert bytes v. induction n as [|n IH]; intros bytes v Hb H.
  - cbn in H. injection H as <-. cbn. lia.
  - cbn [read_unsigned] in H. destruct bytes as [|b rest]; [discriminate|].
    apply Forall_cons in Hb as [Hb Hrest].
    destruct (read_unsigned n rest) as [v'|] eqn:Hv; [|discriminate].
    cbn in H. injection H as <-. specialize (IH _ _ Hrest Hv).
    rewrite Nat2Z.inj_succ, Z.pow_succ_r by lia. lia.
Qed.

Lemma read_unsigned_injective n bytes1 bytes2 v :
  is_bytes bytes1 -> is_bytes bytes2 ->
  length bytes1 = n -> length bytes2 = n ->
  read_unsigned n bytes1 = Some v -> read_unsigned n bytes2 = Some v ->
  bytes1 = bytes2.
Proof.
  revert bytes1 bytes2 v. induction n as [|n IH]; intros bytes1 bytes2 v Hb1 Hb2 Hl1 Hl2 H1 H2.
  - destruct bytes1, bytes2; try discriminate. reflexivity.
  - cbn [read_unsigned] in *.
    destruct bytes1 as [|b1 rest1]; [discriminate|].
    destruct bytes2 as [|b2 rest2]; [discriminate|].
    apply Forall_cons in Hb1 as [Hb1 Hrest1]. apply Forall_cons in Hb2 as [Hb2 Hrest2].
    destruct (read_unsigned n rest1) as [v1|] eqn:Hv1; [|discriminate].
    destruct (read_unsigned n rest2) as [v2|] eqn:Hv2; [|discriminate].
    cbn in H1, H2. injection H1 as <-. injection H2 as H2.
    assert (b1 = b2 /\ v1 = v2) as [-> ->] by lia.
    f_equal. apply (IH _ _ v2 Hrest1 Hrest2); cbn in Hl1, Hl2; congruence || lia.
Qed.

Lemma read_unsigned_total n bytes :
  (n <= length bytes)%nat -> is_Some (read_unsigned n bytes).
Proof.
  revert bytes. induction n as [|n IH]; intros bytes Hl.
  - eexists. reflexivity.
  - destruct bytes as [|b rest]; [cbn in Hl; lia|]. cbn in Hl.
    destruct (IH rest ltac:(lia)) as [v Hv]. cbn [read_unsigned]. rewrite Hv.
    eexists. reflexivity.
Qed.

Lemma read_unsigned_app n bytes extra :
  (n <= length bytes)%nat -> read_unsigned n (bytes ++ extra) = read_unsigned n bytes.
Proof.
  revert bytes. induction n as [|n IH]; intros bytes Hl.
  - reflexivity.
  - destruct bytes as [|b rest]; [cbn in Hl; lia|]. cbn in Hl.
    cbn [read_unsigned app]. rewrite IH by lia. reflexivity.
Qed.

Lemma initial_range seed len :
  0 <= Z.lxor (to_uint32 seed) (to_uint32 len) < 2 ^ 64.
Proof.
  assert (0 <= to_uint32 seed < 2 ^ 32) by (apply Z.mod_pos_bound; lia).
  assert (0 <= to_uint32 len < 2 ^ 32) by (apply Z.mod_pos_bound; lia).
  pose proof (lxor_range (to_uint32 seed) (to_uint32 len) 32). lia.
Qed.

(** The hash of a key of eight bytes. *)
Lemma hash_of_word key seed :
  bsal_murmur_hash_2_64_a key 8 seed =
    (k ← read_unsigned 8 key;
     Some (finish (mix_word (Z.lxor (to_uint32 seed) (to_uint32 8)) k))).
Proof.
  unfold bsal_murmur_hash_2_64_a.
  change (8 ÷ 8 <? 0) with false. change (Z.to_nat (8 ÷ 8)) with 1%nat.
  change (Z.land 8 7 =? 0) with true. cbv iota. cbn [hash_words].
  destruct (read_unsigned 8 key); reflexivity.
Qed.

(** X27.  No two keys of eight bytes collide.  For a fixed seed, the
    hash of an 8-byte key (one 64-bit word) determines the key: every
    step of the function on one word can be undone. *)
Theorem hash_of_words_has_no_collision key1 key2 seed h :
  is_bytes key1 -> is_bytes key2 ->
  length key1 = 8%nat -> length key2 = 8%nat ->
  bsal_murmur_hash_2_64_a key1 8 seed = Some h ->
  bsal_murmur_hash_2_64_a key2 8 seed = Some h ->
  key1 = key2.
Proof.
  intros Hb1 Hb2 Hl1 Hl2 H1 H2. rewrite hash_of_word in H1, H2.
  destruct (read_unsigned 8 key1) as [k1|] eqn:Hk1; [|discriminate].
  destruct (read_unsigned 8 key2) as [k2|] eqn:Hk2; [|discriminate].
  cbn [mbind option_bind] in H1, H2. rewrite <- H2 in H1. injection H1 as E.
  pose proof (read_unsigned_range _ _ _ Hb1 Hk1) as Hr1.
  pose proof (read_unsigned_range _ _ _ Hb2 Hk2) as Hr2.
  change (256 ^ Z.of_nat 8) with (2 ^ 64) in Hr1, Hr2.
  apply finish_injective in E; [|apply mix_word_range..].
  apply mix_word_injective in E; [|apply initial_range | exact Hr1 | exact Hr2].
  subst k2. exact (read_unsigned_injective 8 key1 key2 k1 Hb1 Hb2 Hl1 Hl2 Hk1 Hk2).
Qed.

Lemma hash_words_total count data h :
  (8 * count <= length data)%nat ->
  exists h', hash_words count data h = Some (drop (8 * count) data, h') /\
             (0 <= h < 2 ^ 64 -> 0 <= h' < 2 ^ 64).
Proof.
  revert data h. induction count as [|count IH]; intros data h Hl.
  - exists h. split; [reflexivity | auto].
  - cbn [hash_words].
    destruct (read_unsigned_total 8 data ltac:(lia)) as [k Hk]. rewrite Hk.
    cbn [mbind option_bind].
    destruct (IH (drop 8 data) (mix_word h k)) as (h' & Hrun & Hrange).
    { rewrite length_drop. lia. }
    exists h'. rewrite Hrun, drop_drop.
    replace (8 + 8 * count)%nat with (8 * S count)%nat by lia.
    split; [reflexivity|]. intros _. apply Hrange. apply mix_word_range.
Qed.

Lemma hash_words_app count data extra h :
  (8 * count <= length data)%nat ->
  hash_words count (data ++ extra) h =
    ('(data2, h') ← hash_words count data h; Some (data2 ++ extra, h')).
Proof.
  revert data h. induction count as [|count IH]; intros data h Hl.
  - reflexivity.
  - cbn [hash_words]. rewrite read_unsigned_app by lia.
    destruct (read_unsigned 8 data) as [k|]; [|reflexivity].
    cbn [mbind option_bind]. rewrite drop_app_le by lia.
    apply IH. rewrite length_drop. lia.
Qed.

Lemma hash_tail_total count data2 h :
  (count <= length data2)%nat -> (count <= 7)%nat -> is_bytes data2 ->
  0 <= h < 2 ^ 64 ->
  exists h', hash_tail count data2 h = Some h' /\ 0 <= h' < 2 ^ 64.
Proof.
  revert h. induction count as [|count IH]; intros h Hl Hc Hb Hh.
  - exists h. split; [reflexivity | exact Hh].
  - cbn [hash_tail].
    destruct (lookup_lt_is_Some_2 data2 count ltac:(lia)) as [b Hbyte].
    rewrite Hbyte. cbn [mbind option_bind].
    apply IH; [lia | lia | exact Hb |].
    apply lxor_range; [lia | exact Hh |].
    pose proof (proj1 (Forall_lookup _ _) Hb _ _ Hbyte) as Hrange. cbn in Hrange.
    rewrite Z.shiftl_mul_pow2 by lia.
    assert (0 < 2 ^ (8 * Z.of_nat count) <= 2 ^ 48).
    { split; [apply Z.pow_pos_nonneg; lia | apply Z.pow_le_mono_r; lia]. }
    nia.
Qed.

Lemma hash_tail_app count data2 extra h :
  (count <= length data2)%nat ->
  hash_tail count (data2 ++ extra) h = hash_tail count data2 h.
Proof.
  revert h. induction count as [|count IH]; intros h Hl.
  - reflexivity.
  - cbn [hash_tail]. rewrite lookup_app_l by lia.
    destruct (data2 !! count) as [b|]; [|reflexivity].
    cbn [mbind option_bind]. apply IH. lia.
Qed.

Lemma length_split len :
  0 <= len ->
  len = 8 * (len ÷ 8) + Z.land len 7 /\ 0 <= Z.land len 7 < 8 /\ 0 <= len ÷ 8.
Proof.
  intros Hlen. rewrite Z.quot_div_nonneg by lia.
  change 7 with (Z.ones 3). rewrite Z.land_ones by lia. change (2 ^ 3) with 8.
  pose proof (Z.div_mod len 8). pose proof (Z.mod_pos_bound len 8).
  pose proof (Z.div_pos len 8). lia.
Qed.

(** X28.  The hash is defined on every key.  For a key of at least [len]
    bytes, with [len] not negative, the function returns, and what it
    returns is a 64-bit value. *)
Theorem hash_returns_a_word key len seed :
  is_bytes key -> 0 <= len <= Z.of_nat (length key) ->
  exists h, bsal_murmur_hash_2_64_a key len seed = Some h /\ 0 <= h < 2 ^ 64.
Proof.
  intros Hb Hlen. destruct (length_split len (proj1 Hlen)) as (Hsplit & Htail & Hwords).
  unfold bsal_murmur_hash_2_64_a.
  destruct (Z.ltb_spec (len ÷ 8) 0) as [?|_]; [lia|].
  destruct (hash_words_total (Z.to_nat (len ÷ 8)) key
              (Z.lxor (to_uint32 seed) (to_uint32 len)) ltac:(lia)) as (h1 & -> & Hh1).
  specialize (Hh1 (initial_range seed len)). cbn [mbind option_bind].
  destruct (Z.eqb_spec (Z.land len 7) 0) as [_|Hne].
  - cbn [mbind option_bind]. eexists. split; [reflexivity | apply finish_range].
  - destruct (hash_tail_total (Z.to_nat (Z.land len 7))
                (drop (8 * Z.to_nat (len ÷ 8)) key) h1) as (h2 & -> & Hh2).
    + rewrite length_drop. lia.
    + lia.
    + apply Forall_drop. exact Hb.
    + exact Hh1.
    + cbn [mbind option_bind]. eexists. split; [reflexivity | apply finish_range].
Qed.

(** X29.  The hash reads [len] bytes.  Whatever follows the first [len]
    bytes of the key does not change the hash. *)
Theorem hash_reads_len_bytes key extra len seed :
  0 <= len <= Z.of_nat (length key) ->
  bsal_murmur_hash_2_64_a (key ++ extra) len seed = bsal_murmur_hash_2_64_a key len seed.
Proof.
  intros Hlen. destruct (length_split len (proj1 Hlen)) as (Hsplit & Htail & Hwords).
  unfold bsal_murmur_hash_2_64_a.
  destruct (Z.ltb_spec (len ÷ 8) 0) as [?|_]; [lia|].
  rewrite hash_words_app by lia.
  destruct (hash_words_total (Z.to_nat (len ÷ 8)) key
              (Z.lxor (to_uint32 seed) (to_uint32 len)) ltac:(lia)) as (h1 & -> & _).
  cbn [mbind option_bind].
  destruct (Z.land len 7 =? 0); [reflexivity|].
  rewrite hash_tail_app; [reflexivity|]. rewrite length_drop. lia.
Qed.

End HashFacts.

Section HashExamples.
Import MurmurHash.

Lemma hash_of_words_has_no_collision_witness :
  bsal_murmur_hash_2_64_a [1; 0; 0; 0; 0; 0; 0; 0] 8 42 = Some 4646965345326492524 /\
  [1; 0; 0; 0; 0; 0; 0; 0] = [1; 0; 0; 0; 0; 0; 0; 0].
Proof.
  assert (is_bytes [1; 0; 0; 0; 0; 0; 0; 0]) as Hbytes
    by (unfold is_bytes; repeat (apply Forall_cons_2; [lia|]); apply Forall_nil_2).
  assert (bsal_murmur_hash_2_64_a [1; 0; 0; 0; 0; 0; 0; 0] 8 42 =
            Some 4646965345326492524) as H by (vm_compute; reflexivity).
  split; [exact H|].
  exact (hash_of_words_has_no_collision [1; 0; 0; 0; 0; 0; 0; 0] [1; 0; 0; 0; 0; 0; 0; 0]
           42 4646965345326492524 Hbytes Hbytes eq_refl eq_refl H H).
Defined.

Lemma hash_returns_a_word_witness :
  exists h,
    bsal_murmur_hash_2_64_a [1; 2; 3; 4; 5; 6; 7; 8; 9; 10; 11] 11 42 = Some h /\
    0 <= h < 2 ^ 64.
Proof.
  assert (is_bytes [1; 2; 3; 4; 5; 6; 7; 8; 9; 10; 11]) as Hbytes
    by (unfold is_bytes; repeat (apply Forall_cons_2; [lia|]); apply Forall_nil_2).
  assert (0 <= 11 <= Z.of_nat (length [1; 2; 3; 4; 5; 6; 7; 8; 9; 10; 11])) as Hlen
    by (cbn; lia).
  exact (hash_returns_a_word [1; 2; 3; 4; 5; 6; 7; 8; 9; 10; 11] 11 42 Hbytes Hlen).
Defined.

Lemma hash_reads_len_bytes_witness :
  bsal_murmur_hash_2_64_a ([1; 2; 3; 4; 5; 6; 7; 8; 9; 10; 11] ++ [99; 98]) 11 42 =
  bsal_murmur_hash_2_64_a [1; 2; 3; 4; 5; 6; 7; 8; 9; 10; 11] 11 42.
Proof.
  assert (0 <= 11 <= Z.of_nat (length [1; 2; 3; 4; 5; 6; 7; 8; 9; 10; 11])) as Hlen
    by (cbn; lia).
  exact (hash_reads_len_bytes [1; 2; 3; 4; 5; 6; 7; 8; 9; 10; 11] [99; 98] 11 42 Hlen).
Defined.

End HashExamples.
